(** * vscode-cadence: version resolver, reactive cache and language-server supervisor

  A shallow embedding of

    - [extension/src/flow-cli/cli-versions-provider.ts]
      ([parseFlowCliVersion], [CliVersionsProvider]), and
    - [extension/src/emulator/server/language-server.ts]
      ([LanguageServerAPI]: [watchEmulator], [startClient], [stopClient],
      [restart]),

  together with the properties the specification states about them. *)

From Stdlib Require Import Strings.String Strings.Ascii.
From Stdlib Require Import NArith ZArith Decimal DecimalFacts DecimalN Lia.
From stdpp Require Import base option list gmap.

Local Open Scope N_scope.

(** ** JavaScript strings

  A JavaScript string is a sequence of UTF-16 code units; a code unit is
  modelled by its number. *)
Module Js.

Abbreviation jsstring := (list N).

(** The code units of an ASCII literal of the source. *)
Definition lit (s : string) : jsstring :=
  map N_of_ascii (list_ascii_of_string s).

(** ECMAScript [LineTerminator]: LF, CR, LS, PS. *)
Definition isLineTerminator (c : N) : bool :=
  (c =? 10) || (c =? 13) || (c =? 8232) || (c =? 8233).

(** ECMAScript [WhiteSpace] or [LineTerminator]: what [\s] matches and what
    [String.prototype.trim] removes. *)
Definition isWhiteSpace (c : N) : bool :=
  (c =? 9) || (c =? 11) || (c =? 12) || (c =? 32) || (c =? 160)
  || (c =? 5760) || ((8192 <=? c) && (c <=? 8202))
  || (c =? 8239) || (c =? 8287) || (c =? 12288) || (c =? 65279)
  || isLineTerminator c.

(** [.] without the [s] flag. *)
Definition isDot (c : N) : bool := negb (isLineTerminator c).

Fixpoint take_while (p : N -> bool) (s : jsstring) : jsstring :=
  match s with
  | c :: tl => if p c then c :: take_while p tl else []
  | [] => []
  end.

Fixpoint drop_while (p : N -> bool) (s : jsstring) : jsstring :=
  match s with
  | c :: tl => if p c then drop_while p tl else s
  | [] => []
  end.

(** [String.prototype.trim]. *)
Definition trimStart (s : jsstring) : jsstring := drop_while isWhiteSpace s.
Definition trimEnd (s : jsstring) : jsstring := rev (trimStart (rev s)).
Definition trim (s : jsstring) : jsstring := trimEnd (trimStart s).

(** [String.prototype.split] with a one-character separator: the pieces
    between the separators, the empty ones included. *)
Fixpoint split (sep : N) (s : jsstring) : list jsstring :=
  match s with
  | [] => [[]]
  | c :: tl =>
      if c =? sep then [] :: split sep tl
      else match split sep tl with
           | p :: ps => (c :: p) :: ps
           | [] => [[c]]
           end
  end.

(** [Array.prototype.join] with a one-character separator. *)
Fixpoint join (sep : N) (ps : list jsstring) : jsstring :=
  match ps with
  | [] => []
  | [p] => p
  | p :: ps' => p ++ sep :: join sep ps'
  end.

(** Decimal digits and natural numbers: the unary [+] on a string of
    digits, and the conversion of a number to a string. *)
Fixpoint uint_of_digits (ds : jsstring) : uint :=
  match ds with
  | [] => Nil
  | c :: tl =>
      let u := uint_of_digits tl in
      match c with
      | 48 => D0 u | 49 => D1 u | 50 => D2 u | 51 => D3 u | 52 => D4 u
      | 53 => D5 u | 54 => D6 u | 55 => D7 u | 56 => D8 u | _ => D9 u
      end
  end.

Fixpoint digits_of_uint (u : uint) : jsstring :=
  match u with
  | Nil => []
  | D0 u => 48 :: digits_of_uint u | D1 u => 49 :: digits_of_uint u
  | D2 u => 50 :: digits_of_uint u | D3 u => 51 :: digits_of_uint u
  | D4 u => 52 :: digits_of_uint u | D5 u => 53 :: digits_of_uint u
  | D6 u => 54 :: digits_of_uint u | D7 u => 55 :: digits_of_uint u
  | D8 u => 56 :: digits_of_uint u | D9 u => 57 :: digits_of_uint u
  end.

(** [+ds] for a string [ds] of decimal digits, exact below 2^53. *)
Definition toNumber (ds : jsstring) : N := N.of_uint (uint_of_digits ds).
(** [String(n)] for a natural number [n] below 2^53. *)
Definition numToString (n : N) : jsstring := digits_of_uint (N.to_uint n).

(** The completion of a call: a value, or a thrown exception (for an
    [async] function, a rejected promise). *)
Inductive completion (A : Type) : Type :=
| Normal (a : A)
| Throw.
Arguments Normal {A} a.
Arguments Throw {A}.

(** [p.catch(() => d)] and [try { p } catch { d }] for a handler that is a
    value. *)
Definition catch_value {A : Type} (p : completion A) (d : A) : completion A :=
  match p with
  | Normal a => Normal a
  | Throw => Normal d
  end.

(** [Promise.all]: the values in order, rejected when one of the promises
    is. *)
Fixpoint Promise_all {A : Type} (ps : list (completion A)) : completion (list A) :=
  match ps with
  | [] => Normal []
  | p :: ps' =>
      match p, Promise_all ps' with
      | Normal a, Normal l => Normal (a :: l)
      | _, _ => Throw
      end
  end.

#[local] Set Warnings "-register-all".

(** The values [JSON.parse] returns, and [undefined].  Of a number only the
    fact that it is one matters here. *)
Inductive value : Type :=
| VUndefined
| VNull
| VBoolean (b : bool)
| VNumber (n : Z)
| VString (s : jsstring)
| VArray (elements : list value)
| VObject (properties : list (jsstring * value)).

Fixpoint assoc (key : jsstring) (ps : list (jsstring * value)) : option value :=
  match ps with
  | [] => None
  | (k, v) :: ps' => if decide (k = key) then Some v else assoc key ps'
  end.

(** [v.version] for a value [v] that [JSON.parse] returned: a [TypeError] on
    [null], the own property of an object, [undefined] otherwise (no
    prototype of these values has a property of that name). *)
Definition get_version (v : value) : completion value :=
  match v with
  | VUndefined | VNull => Throw
  | VObject ps => Normal (default VUndefined (assoc (lit "version") ps))
  | _ => Normal VUndefined
  end.

(** The own property names of [Object.prototype]: what a lookup [o[name]] on
    a plain object finds when [o] has no property [name] of its own.  All of
    them hold a value that is not [null]. *)
Definition Object_prototype_names : list jsstring :=
  map lit
    ["constructor"; "__defineGetter__"; "__defineSetter__"; "hasOwnProperty";
     "__lookupGetter__"; "__lookupSetter__"; "isPrototypeOf";
     "propertyIsEnumerable"; "toString"; "valueOf"; "__proto__";
     "toLocaleString"]%string.

End Js.

(** ** Regular expressions

  A backtracking matcher for the fragment of ECMAScript regular expressions
  that the source uses: literals, character classes, sequence, ordered
  alternation, the greedy star, one capturing group and the [$] assertion
  under the [m] flag.  The matcher is written in continuation-passing
  style: the continuation is the rest of the pattern, and a failure of the
  continuation makes the matcher try its next choice. *)
Module RegExp.
Import Js.

Inductive re : Type :=
| Class (p : N -> bool)      (* one code unit satisfying [p] *)
| Empty                      (* the empty pattern *)
| Seq (r1 r2 : re)
| Alt (r1 r2 : re)           (* [r1|r2], [r1] tried first *)
| Star (r : re)              (* greedy [r*] *)
| Group (r : re)             (* capturing group 1 *)
| Eol.                       (* [$] with the [m] flag *)

Definition Chr (c : N) : re := Class (N.eqb c).

(** A literal run of characters. *)
Definition Str (s : jsstring) : re :=
  foldr (fun c r => Seq (Chr c) r) Empty s.

Section Matcher.
Context {R : Type}.

(** The continuation receives the rest of the input and the current
    capture. *)
Definition cont := jsstring -> option jsstring -> option R.

(** The iteration of a star: [body] is the matcher of the starred
    pattern.  An iteration that consumes nothing is rejected, as in
    ECMAScript's RepeatMatcher. *)
Fixpoint repeat (body : jsstring -> option jsstring -> cont -> option R)
    (fuel : nat) (s : jsstring) (cap : option jsstring) (k : cont)
    : option R :=
  match fuel with
  | O => k s cap
  | S fuel' =>
      match body s cap (fun s' cap' =>
              if (length s' <? length s)%nat
              then repeat body fuel' s' cap' k else None) with
      | Some x => Some x
      | None => k s cap
      end
  end.

Fixpoint run (r : re) (s : jsstring) (cap : option jsstring) (k : cont)
    : option R :=
  match r with
  | Class p =>
      match s with
      | c :: tl => if p c then k tl cap else None
      | [] => None
      end
  | Empty => k s cap
  | Seq r1 r2 => run r1 s cap (fun s' cap' => run r2 s' cap' k)
  | Alt r1 r2 =>
      match run r1 s cap k with
      | Some x => Some x
      | None => run r2 s cap k
      end
  | Star r' => repeat (run r') (length s) s cap k
  | Group r' =>
      run r' s cap (fun s' _ =>
        k s' (Some (take (length s - length s')%nat s)))
  | Eol =>
      match s with
      | [] => k s cap
      | c :: _ => if isLineTerminator c then k s cap else None
      end
  end.
End Matcher.

(** The choices of a greedy star of a class: the longest run first. *)
Fixpoint star_class {R : Type} (p : N -> bool) (s : jsstring)
    (cap : option jsstring) (k : @cont R) : option R :=
  match s with
  | c :: tl =>
      if p c then
        match star_class p tl cap k with
        | Some x => Some x
        | None => k s cap
        end
      else k s cap
  | [] => k s cap
  end.

(** A match at the start of [s]: the value of capture group 1. *)
Definition match_here (r : re) (s : jsstring) : option (option jsstring) :=
  run r s None (fun _ cap => Some cap).

(** [RegExp.prototype.exec] without the [g] flag: the leftmost start index
    at which the pattern matches. *)
Fixpoint exec (r : re) (s : jsstring) : option (option jsstring) :=
  match match_here r s with
  | Some cap => Some cap
  | None =>
      match s with
      | [] => None
      | _ :: tl => exec r tl
      end
  end.

(** *** The language of a pattern

    [lang r w post]: the pattern [r] matches the text [w] when [post] is the
    input that follows it (the [$] assertion looks at [post]). *)
Definition at_eol (post : jsstring) : Prop :=
  match post with
  | [] => True
  | c :: _ => isLineTerminator c = true
  end.

Inductive lang : re -> jsstring -> jsstring -> Prop :=
| lang_Class p c post : p c = true -> lang (Class p) [c] post
| lang_Empty post : lang Empty [] post
| lang_Seq r1 r2 w1 w2 post :
    lang r1 w1 (w2 ++ post) -> lang r2 w2 post ->
    lang (Seq r1 r2) (w1 ++ w2) post
| lang_Alt_l r1 r2 w post : lang r1 w post -> lang (Alt r1 r2) w post
| lang_Alt_r r1 r2 w post : lang r2 w post -> lang (Alt r1 r2) w post
| lang_Star_nil r post : lang (Star r) [] post
| lang_Star_cons r w1 w2 post :
    w1 <> [] -> lang r w1 (w2 ++ post) -> lang (Star r) w2 post ->
    lang (Star r) (w1 ++ w2) post
| lang_Group r w post : lang r w post -> lang (Group r) w post
| lang_Eol post : at_eol post -> lang Eol [] post.

(** The pattern matches somewhere in [s]. *)
Definition occurs (r : re) (s : jsstring) : Prop :=
  exists pre w post, s = pre ++ w ++ post /\ lang r w post.

End RegExp.

(** ** The [semver] package

    [semver] is a third-party dependency of the extension.  The part the
    source calls is embedded here from the package's own definition: the
    strict grammar [FULL] of [internal/re.js], the [SemVer] constructor and
    [format] of [classes/semver.js], [parse] and [clean]. *)
Module Semver.
Import Js.

Definition MAX_LENGTH : nat := 256.
Definition MAX_SAFE_INTEGER : N := 9007199254740991.

Definition isDigit (c : N) : bool := (48 <=? c) && (c <=? 57).
Definition isLetter (c : N) : bool :=
  ((65 <=? c) && (c <=? 90)) || ((97 <=? c) && (c <=? 122)).
(** [[a-zA-Z0-9-]] *)
Definition isIdentChar (c : N) : bool := isDigit c || isLetter c || (c =? 45).

(** A prerelease identifier is a number or a string. *)
Inductive identifier : Type :=
| IdNum (n : N)
| IdStr (s : jsstring).

Record SemVer : Type := mkSemVer {
  raw : jsstring;
  major : N;
  minor : N;
  patch : N;
  prerelease : list identifier;
  build : list jsstring;
  version : jsstring
}.

(** [NUMERICIDENTIFIER], a zero or a digit from 1 to 9 followed by digits:
    the digits matched and the rest. *)
Definition numeric_identifier (s : jsstring) : option (jsstring * jsstring) :=
  match s with
  | c :: tl =>
      if c =? 48 then Some ([c], tl)
      else if isDigit c
           then Some (c :: take_while isDigit tl, drop_while isDigit tl)
           else None
  | [] => None
  end.

(** The strings [NUMERICIDENTIFIER] matches as a whole. *)
Definition canonical (ds : jsstring) : bool :=
  match ds with
  | [] => false
  | c :: tl =>
      ((c =? 48) && match tl with [] => true | _ => false end)
      || (isDigit c && negb (c =? 48) && forallb isDigit tl)
  end.

(** A literal character of the pattern. *)
Definition expect (c : N) (s : jsstring) : option jsstring :=
  match s with
  | c' :: tl => if c' =? c then Some tl else None
  | [] => None
  end.

(** [PRERELEASEIDENTIFIER], the whole of one piece: a numeric identifier,
    or letters, digits and hyphens with at least one letter or hyphen. *)
Definition prerelease_identifier (p : jsstring) : bool :=
  match p with
  | [] => false
  | c :: tl =>
      forallb isIdentChar p
      && (negb (forallb isDigit p) || negb (c =? 48) || match tl with [] => true | _ => false end)
  end.

(** [BUILDIDENTIFIER], the whole of one piece: [[a-zA-Z0-9-]+]. *)
Definition build_identifier (p : jsstring) : bool :=
  match p with
  | [] => false
  | _ => forallb isIdentChar p
  end.

Definition isIdentOrDot (c : N) : bool := isIdentChar c || (c =? 46).

(** An optional group [mark id (. id) ...], as [PRERELEASE] and [BUILD] are:
    the text after the mark, when the group is there, and the rest of the
    input. *)
Definition dotted (mark : N) (ok : jsstring -> bool) (s : jsstring)
    : option (option jsstring * jsstring) :=
  match s with
  | c :: tl =>
      if c =? mark then
        let body := take_while isIdentOrDot tl in
        if forallb ok (split 46 body)
        then Some (Some body, drop_while isIdentOrDot tl)
        else None
      else Some (None, s)
  | [] => Some (None, s)
  end.

(** The groups [m[1]] to [m[5]] of the strict pattern
    [^v?(num)\.(num)\.(num)(?:-(pre))?(?:\+(build))?$]. *)
Definition match_full (s : jsstring)
    : option (jsstring * jsstring * jsstring * option jsstring * option jsstring) :=
  let s0 := match s with c :: tl => if c =? 118 then tl else s | [] => s end in
  '(m1, s1) ← numeric_identifier s0;
  s1 ← expect 46 s1;
  '(m2, s2) ← numeric_identifier s1;
  s2 ← expect 46 s2;
  '(m3, s3) ← numeric_identifier s2;
  '(m4, s4) ← dotted 45 prerelease_identifier s3;
  '(m5, s5) ← dotted 43 build_identifier s4;
  match s5 with
  | [] => Some (m1, m2, m3, m4, m5)
  | _ => None
  end.

(** "numberify any prerelease numeric ids" *)
Definition numberify (id : jsstring) : identifier :=
  if forallb isDigit id && negb (match id with [] => true | _ => false end)
  then let num := toNumber id in
       if num <? MAX_SAFE_INTEGER then IdNum num else IdStr id
  else IdStr id.

Definition identifier_toString (i : identifier) : jsstring :=
  match i with
  | IdNum n => numToString n
  | IdStr s => s
  end.

(** [SemVer.prototype.format] *)
Definition format (major minor patch : N) (prerelease : list identifier)
    : jsstring :=
  let v := numToString major ++ 46 :: numToString minor ++ 46 :: numToString patch in
  match prerelease with
  | [] => v
  | _ => v ++ 45 :: join 46 (map identifier_toString prerelease)
  end.

(** [new SemVer(version)] in strict mode; [None] when the constructor
    throws. *)
Definition new_SemVer (version : jsstring) : option SemVer :=
  if (MAX_LENGTH <? length version)%nat then None
  else
    '(m1, m2, m3, m4, m5) ← match_full (trim version);
    let major := toNumber m1 in
    let minor := toNumber m2 in
    let patch := toNumber m3 in
    if (MAX_SAFE_INTEGER <? major) || (MAX_SAFE_INTEGER <? minor)
       || (MAX_SAFE_INTEGER <? patch)
    then None
    else
      let prerelease :=
        match m4 with
        | Some p => map numberify (split 46 p)
        | None => []
        end in
      let build :=
        match m5 with
        | Some b => split 46 b
        | None => []
        end in
      Some (mkSemVer version major minor patch prerelease build
              (format major minor patch prerelease)).

(** The text of a version without its build: the three numbers and the
    prerelease, as [format] prints them. *)
Definition version_text (m1 m2 m3 : jsstring) (m4 : option jsstring) : jsstring :=
  (m1 ++ 46 :: m2 ++ 46 :: m3)
  ++ match m4 with
     | Some p => 45 :: p
     | None => []
     end.

(** The input goes on with something that is not a digit. *)
Definition starts_no_digit (s : jsstring) : Prop :=
  match s with
  | c :: _ => isDigit c = false
  | [] => True
  end.

(** What holds of the groups [m[1]] to [m[4]] of a match. *)
Definition groups_ok (m1 m2 m3 : jsstring) (m4 : option jsstring) : Prop :=
  canonical m1 = true /\ canonical m2 = true /\ canonical m3 = true
  /\ match m4 with
     | Some p =>
         forallb isIdentOrDot p = true
         /\ forallb prerelease_identifier (split 46 p) = true
     | None => True
     end.

(** [semver.parse]: the constructor's exception becomes [null]. *)
Definition parse (version : jsstring) : option SemVer := new_SemVer version.

(** The [replace] of [clean]: the leading run of [=] and [v] is removed. *)
Definition strip_prefix_eq_v (s : jsstring) : jsstring :=
  drop_while (fun c => (c =? 61) || (c =? 118)) s.

(** [semver.clean] *)
Definition clean (v : jsstring) : option jsstring :=
  match parse (strip_prefix_eq_v (trim v)) with
  | Some s => Some (version s)
  | None => None
  end.

End Semver.

(** ** The reactive value cache

    The version provider imports [StateCache] from [utils/state-cache.ts].
    That file is not available; the cache entry is modelled from sections 3
    and 4.1 of the specification. *)
Module StateCache.
Import Js.

(** Modelled from the spec: the class [StateCache] of [utils/state-cache],
    whose source file is missing.  "CacheEntry<T>: wraps a
    value of type T, a validity flag (fresh/stale), an in-flight-fetch
    marker, and a set of subscriber callbacks"; [owed] records "that one
    more recomputation is owed once the current fetch settles".  Two
    counters observe the executions of the fetcher: [running] counts the
    fetch operations that have begun and not yet settled, [started] those
    begun so far; [notified] lists the callbacks invoked so far. *)
Record CacheEntry (T C : Type) : Type := mkCacheEntry {
  value : option T;
  fresh : bool;
  inflight : bool;
  owed : bool;
  subscribers : list C;
  running : nat;
  started : nat;
  notified : list C
}.
Arguments mkCacheEntry {T C}.
Arguments value {T C}.
Arguments fresh {T C}.
Arguments inflight {T C}.
Arguments owed {T C}.
Arguments subscribers {T C}.
Arguments running {T C}.
Arguments started {T C}.
Arguments notified {T C}.

Section Entry.
Context {T C : Type}.
Implicit Type e : CacheEntry T C.

(** Modelled from the spec: a new entry holds no value, is stale, and
    computes lazily. *)
Definition new : CacheEntry T C :=
  mkCacheEntry None false false false [] 0 0 [].

(** Modelled from the spec: one execution of the fetcher begins. *)
Definition begin_fetch e : CacheEntry T C :=
  mkCacheEntry (value e) (fresh e) true (owed e) (subscribers e)
    (S (running e)) (S (started e)) (notified e).

(** Modelled from the spec: "[getValue()]: returns the current value if
    fresh; if stale and no fetch outstanding, begins one fetch and returns
    its eventual result; if a fetch is already outstanding, returns the same
    eventual result to all concurrent callers". *)
Definition getValue e : CacheEntry T C :=
  if fresh e then e
  else if inflight e then e
  else begin_fetch e.

(** Modelled from the spec: "[invalidate()]: marks the entry stale.  If no
    fetch is outstanding, does nothing further until next [getValue].  If a
    fetch is outstanding, records that one more recomputation is owed once
    the current fetch settles, regardless of how many times [invalidate] was
    called in the interim". *)
Definition invalidate e : CacheEntry T C :=
  mkCacheEntry (value e) false (inflight e) (orb (owed e) (inflight e))
    (subscribers e) (running e) (started e) (notified e).

(** Modelled from the spec: "[subscribe(callback)]: registers a callback
    invoked once per successful recomputation, after the value is
    committed". *)
Definition subscribe (c : C) e : CacheEntry T C :=
  mkCacheEntry (value e) (fresh e) (inflight e) (owed e)
    (subscribers e ++ [c]) (running e) (started e) (notified e).

(** Modelled from the spec: "[dispose()]: releases all subscribers". *)
Definition dispose e : CacheEntry T C :=
  mkCacheEntry (value e) (fresh e) (inflight e) (owed e)
    [] (running e) (started e) (notified e).

(** Modelled from the spec: the outstanding fetch settles with [r].  A
    success commits the value and invokes the subscribers; after a failure
    "the entry remains stale so the next call retries".  The entry is fresh
    afterwards when the fetch succeeded and no invalidation arrived in the
    interim; when one did, the one recomputation owed begins. *)
Definition settle (r : completion T) e : CacheEntry T C :=
  if inflight e then
    let e' :=
      match r with
      | Normal v =>
          mkCacheEntry (Some v) (negb (owed e)) false false (subscribers e)
            (pred (running e)) (started e) (notified e ++ subscribers e)
      | Throw =>
          mkCacheEntry (value e) false false false (subscribers e)
            (pred (running e)) (started e) (notified e)
      end in
    if owed e then begin_fetch e' else e'
  else e.

(** What can happen to an entry. *)
Inductive event : Type :=
| GetValue
| Invalidate
| Subscribe (c : C)
| Dispose
| Settle (r : completion T).

Definition step (ev : event) e : CacheEntry T C :=
  match ev with
  | GetValue => getValue e
  | Invalidate => invalidate e
  | Subscribe c => subscribe c e
  | Dispose => dispose e
  | Settle r => settle r e
  end.

(** The entry after a history of events, oldest first. *)
Definition run_events (evs : list event) e : CacheEntry T C :=
  foldl (fun e ev => step ev e) e evs.

(** [n] calls of [invalidate]. *)
Definition invalidate_n (n : nat) e : CacheEntry T C :=
  Nat.iter n invalidate e.

(** Calls made while a fetch is outstanding: a history without settlement. *)
Definition is_call (ev : event) : bool :=
  match ev with
  | Settle _ => false
  | _ => true
  end.

(** The calls of [invalidate] in a history. *)
Fixpoint invalidations (evs : list event) : nat :=
  match evs with
  | [] => 0
  | Invalidate :: evs' => S (invalidations evs')
  | _ :: evs' => invalidations evs'
  end.

(** The marker tells whether a fetch runs, a recomputation is owed only
    while one runs, and a fresh entry has none. *)
Definition consistent e : Prop :=
  running e = (if inflight e then 1 else 0)%nat
  /\ (owed e = true -> inflight e = true)
  /\ (fresh e = true -> inflight e = false).

End Entry.
End StateCache.

(** ** [cli-versions-provider.ts] *)
Module CliVersions.
Import Js RegExp.

(** [LEGACY_VERSION_REGEXP]: the literal [Version:], any white space, a [v],
    group 1 with any characters of the line, and a white space or the end
    of a line. *)
Definition LEGACY_VERSION_REGEXP : re :=
  Seq (Str (lit "Version:"))
  (Seq (Star (Class isWhiteSpace))
  (Seq (Chr 118)
  (Seq (Group (Star (Class isDot)))
       (Alt (Class isWhiteSpace) Eol)))).

(** [parseFlowCliVersion], on the string [buffer.toString()]: [?.[1] ?? null]
    turns a missing match and an undefined group into [null]. *)
Definition parseFlowCliVersion (buffer : jsstring) : option jsstring :=
  let rawMatch :=
    match exec LEGACY_VERSION_REGEXP buffer with
    | Some (Some m1) => Some m1
    | _ => None
    end in
  match rawMatch with
  | None => None
  | Some rawMatch => Semver.clean rawMatch
  end.

(** [rawMatch] of [parseFlowCliVersion]: group 1 of the first match of the
    pattern, before [semver.clean] sees it. *)
Definition rawMatch (buffer : jsstring) : option jsstring :=
  match exec LEGACY_VERSION_REGEXP buffer with
  | Some (Some m1) => Some m1
  | _ => None
  end.

(** The pattern read as a scanner, to compare the matcher with: after the
    literal and the white space comes a [v], and group 1 is the rest of the
    line. *)
Fixpoint strip_literal (l s : jsstring) : option jsstring :=
  match l, s with
  | [], _ => Some s
  | c :: l', c' :: s' => if c =? c' then strip_literal l' s' else None
  | _ :: _, [] => None
  end.

Definition legacy_scan_here (s : jsstring) : option jsstring :=
  match strip_literal (lit "Version:") s with
  | Some rest =>
      match drop_while isWhiteSpace rest with
      | c :: line => if c =? 118 then Some (take_while isDot line) else None
      | [] => None
      end
  | None => None
  end.

Fixpoint legacy_scan (s : jsstring) : option jsstring :=
  match legacy_scan_here s with
  | Some token => Some token
  | None =>
      match s with
      | [] => None
      | _ :: tl => legacy_scan tl
      end
  end.

Record CliBinary : Type := mkCliBinary {
  command : jsstring;
  version : Semver.SemVer
}.

(** What [execDefault] resolves to. *)
Record ExecOutput : Type := mkExecOutput {
  stdout : jsstring;
  stderr : jsstring
}.

Definition CHECK_FLOW_CLI_CMD (flowCommand : jsstring) : jsstring :=
  flowCommand ++ lit " version --output=json".
Definition CHECK_FLOW_CLI_CMD_NO_JSON (flowCommand : jsstring) : jsstring :=
  flowCommand ++ lit " version".

(** [Object.values(KNOWN_FLOW_COMMANDS)] *)
Definition KNOWN_FLOW_COMMANDS : list jsstring := [lit "flow"].

(** [cliBinaryFromVersion].  The argument is what the caller has at run
    time; [semver.parse] answers [null] for what is not a string. *)
Definition cliBinaryFromVersion (bin : jsstring) (versionStr : value)
    : option CliBinary :=
  let version :=
    match versionStr with
    | VString s => Semver.parse s
    | _ => None
    end in
  match version with
  | None => None
  | Some version => Some (mkCliBinary bin version)
  end.

(** *** Resolution of one binary

    The shell and [JSON.parse] are the environment.  A computation threads
    the list of the command lines executed so far. *)
Section Resolution.
Variable shell : jsstring -> completion ExecOutput.
Variable JSON_parse : jsstring -> completion value.

Definition Sh (A : Type) : Type :=
  list jsstring -> completion A * list jsstring.

Definition Sh_ret {A : Type} (a : A) : Sh A := fun log => (Normal a, log).

Definition Sh_bind {A B : Type} (m : Sh A) (f : A -> Sh B) : Sh B :=
  fun log =>
    match m log with
    | (Normal a, log') => f a log'
    | (Throw, log') => (Throw, log')
    end.

Definition lift {A : Type} (c : completion A) : Sh A := fun log => (c, log).

(** [try { m } catch { handler }] *)
Definition try_catch {A : Type} (m handler : Sh A) : Sh A :=
  fun log =>
    match m log with
    | (Normal a, log') => (Normal a, log')
    | (Throw, log') => handler log'
    end.

(** [await execDefault(cmd)] *)
Definition execDefault (cmd : jsstring) : Sh ExecOutput :=
  fun log => (shell cmd, log ++ [cmd]).

Notation "'let*' x ':=' m 'in' k" := (Sh_bind m (fun x => k))
  (at level 10, x name, m at level 100, k at level 200, only parsing).

(** [#fetchBinaryInformationOld] *)
Definition fetchBinaryInformationOld (bin : jsstring) : Sh (option CliBinary) :=
  try_catch
    (let* output := execDefault (CHECK_FLOW_CLI_CMD_NO_JSON bin) in
     let versionStr := parseFlowCliVersion (stdout output) in
     let versionStr :=
       match versionStr with
       | None => parseFlowCliVersion (stderr output)
       | Some _ => versionStr
       end in
     match versionStr with
     | None => Sh_ret None
     | Some versionStr => Sh_ret (cliBinaryFromVersion bin (VString versionStr))
     end)
    (Sh_ret None).

(** [#fetchBinaryInformation] *)
Definition fetchBinaryInformation (bin : jsstring) : Sh (option CliBinary) :=
  try_catch
    (let* output := execDefault (CHECK_FLOW_CLI_CMD bin) in
     let buffer := stdout output in
     let* versionInfo := lift (JSON_parse buffer) in
     let* version := lift (get_version versionInfo) in
     Sh_ret (cliBinaryFromVersion bin version))
    (fetchBinaryInformationOld bin).

End Resolution.

(** The token of the plain-text output: the one of standard output, or else
    the one of error output. *)
Definition token_of (output : ExecOutput) : option jsstring :=
  match parseFlowCliVersion (stdout output) with
  | Some token => Some token
  | None => parseFlowCliVersion (stderr output)
  end.

(** *** The registry *)

(** The callback every leaf cache is subscribed with:
    [() => this.#rootCache?.invalidate()]. *)
Inductive callback : Type := InvalidateRoot.

Abbreviation LeafCache := (StateCache.CacheEntry (option CliBinary) callback).
Abbreviation RootCache := (StateCache.CacheEntry (list CliBinary) callback).

(** [#caches] is a plain object used as a map; [#rootCache] is undefined
    while the constructor seeds the caches. *)
Record CliVersionsProvider : Type := mkProvider {
  caches : gmap jsstring LeafCache;
  rootCache : option RootCache
}.

(** [this.#caches[command] != null]: an own entry, or a property that the
    plain object inherits. *)
Definition non_null (caches : gmap jsstring LeafCache) (command : jsstring)
    : bool :=
  bool_decide (is_Some (caches !! command))
  || bool_decide (command ∈ Object_prototype_names).

(** [add] *)
Definition add (command : jsstring) (p : CliVersionsProvider)
    : CliVersionsProvider :=
  if non_null (caches p) command then p
  else
    mkProvider
      (<[command := StateCache.subscribe InvalidateRoot StateCache.new]> (caches p))
      (StateCache.invalidate <$> rootCache p).

(** [remove] *)
Definition remove (command : jsstring) (p : CliVersionsProvider)
    : CliVersionsProvider :=
  if negb (non_null (caches p) command)
     || bool_decide (command ∈ KNOWN_FLOW_COMMANDS)
  then p
  else
    mkProvider (delete command (caches p))
      (StateCache.invalidate <$> rootCache p).

(** What a lookup [this.#caches[name]] finds when it is not [undefined]: an
    entry of the object itself, or what the plain object inherits. *)
Inductive property_value : Type :=
| OwnEntry (c : LeafCache)
| Inherited.

(** [get]: [this.#caches[name] ?? null]. *)
Definition get (name : jsstring) (p : CliVersionsProvider)
    : option property_value :=
  match caches p !! name with
  | Some c => Some (OwnEntry c)
  | None =>
      if bool_decide (name ∈ Object_prototype_names) then Some Inherited
      else None
  end.

(** [refresh] *)
Definition refresh (p : CliVersionsProvider) : CliVersionsProvider :=
  mkProvider (StateCache.invalidate <$> caches p)
    (StateCache.invalidate <$> rootCache p).

(** The constructor: the known binaries, the seeds, then the root cache. *)
Definition constructor (seedBinaries : list jsstring) : CliVersionsProvider :=
  let p0 := mkProvider ∅ None in
  let p1 := foldl (fun p bin => add bin p) p0 KNOWN_FLOW_COMMANDS in
  let p2 := foldl (fun p bin => add bin p) p1 seedBinaries in
  mkProvider (caches p2) (Some StateCache.new).

(** [Object.keys(this.#caches)]: the names with an own entry.  The order of
    the names is that of the map, not JavaScript's. *)
Definition Object_keys (caches : gmap jsstring LeafCache) : list jsstring :=
  (map_to_list caches).*1.

Section Aggregate.
(** What [this.#caches[bin].getValue()] settles with. *)
Variable leafValue : jsstring -> completion (option CliBinary).

(** The fetcher of the root cache. *)
Definition rootFetcher (p : CliVersionsProvider) : completion (list CliBinary) :=
  match Promise_all
          (map (fun bin => catch_value (leafValue bin) None)
               (Object_keys (caches p))) with
  | Normal binaries => Normal (omap id binaries)
  | Throw => Throw
  end.

(** [getVersions]: [await this.#rootCache.getValue()].  As section 4.1 of
    the specification has [getValue], a fresh root cache answers with its
    value and a stale one with the result of its fetcher, failing when the
    fetcher fails.  Before the constructor has made the root cache the call
    is a [TypeError]. *)
Definition getVersions (p : CliVersionsProvider) : completion (list CliBinary) :=
  match rootCache p with
  | None => Throw
  | Some root =>
      match StateCache.fresh root, StateCache.value root with
      | true, Some binaries => Normal binaries
      | _, _ => rootFetcher p
      end
  end.

End Aggregate.

(** A resolution that succeeded with a value. *)
Definition resolved (c : completion (option CliBinary)) : option CliBinary :=
  match c with
  | Normal (Some b) => Some b
  | _ => None
  end.

(** The root cache sees an event: a call of [getVersions] is a [GetValue],
    the end of its fetcher a [Settle]. *)
Definition root_step (ev : @StateCache.event (list CliBinary) callback)
    (p : CliVersionsProvider) : CliVersionsProvider :=
  mkProvider (caches p) (StateCache.step ev <$> rootCache p).

(** The calls that change the registry, and a sequence of them. *)
Inductive operation : Type :=
| Add (name : jsstring)
| Remove (name : jsstring)
| Refresh.

Definition apply_operation (o : operation) (p : CliVersionsProvider)
    : CliVersionsProvider :=
  match o with
  | Add name => add name p
  | Remove name => remove name p
  | Refresh => refresh p
  end.

Definition run_operations (os : list operation) (p : CliVersionsProvider)
    : CliVersionsProvider :=
  foldl (fun p o => apply_operation o p) p os.

(** The entry [add] makes: a new cache with the one subscription. *)
Definition new_leaf : LeafCache :=
  StateCache.subscribe InvalidateRoot StateCache.new.

(** Every entry has the one subscription that [add] gave it. *)
Definition subscribed_once (p : CliVersionsProvider) : Prop :=
  forall name c, caches p !! name = Some c ->
    StateCache.subscribers c = [InvalidateRoot].

(** What every operation keeps: the known names are registered, every
    entry has the one subscription, and no inherited name has an entry. *)
Definition invariant (p : CliVersionsProvider) : Prop :=
  (forall name, name ∈ KNOWN_FLOW_COMMANDS -> is_Some (caches p !! name))
  /\ subscribed_once p
  /\ (forall name, name ∈ Object_prototype_names -> caches p !! name = None).

End CliVersions.

(** ** [language-server.ts]: the supervisor of the language client *)
Module LanguageServer.
Import Js.

(** [State] of [vscode-languageclient]. *)
Inductive State : Type := Stopped | Starting | Running.

(** The workspace settings the supervisor reads. *)
Record Settings : Type := mkSettings {
  numAccounts : N;
  settings_accessCheckMode : jsstring;
  settings_flowCommand : jsstring
}.

(** The arguments of [new LanguageClient(...)] that vary. *)
Record LanguageClient : Type := mkLanguageClient {
  command : jsstring;
  args : list jsstring;
  init_configPath : jsstring;
  init_numberOfAccounts : jsstring;
  init_accessCheckMode : jsstring
}.

(** What the supervisor does to the world, in order. *)
Inductive effect : Type :=
| SetInterval (ms : N)               (* [setInterval(tick, ms)] *)
| Restart (enableFlow : bool)        (* a call of [restart] *)
| KillDlv                            (* [exec('killall dlv')] *)
| ClientStart (c : LanguageClient)   (* [client.start()] *)
| ClientStop                         (* [client.stop()] *)
| EmulatorStateChanged               (* [ext.emulatorStateChanged()] *)
| WatchFlowConfiguration
| Sleep (ms : N)                     (* [sleepSynchronously(ms)] *)
| ShowErrorMessage
| ShowWarningMessage
| ShowInformationMessage.

Record LanguageServerAPI : Type := mkApi {
  client : option LanguageClient;
  clientLock : bool;                 (* the mutex is held *)
  running : bool;
  initializedClient : bool;
  emulatorConnected : bool;
  accessCheckMode : jsstring;
  flowCommand : jsstring;
  effects : list effect
}.

(** The field initialisers and the first two lines of the constructor. *)
Definition init (settings : Settings) : LanguageServerAPI :=
  mkApi None false false false false
    (settings_accessCheckMode settings) (settings_flowCommand settings) [].

(** What the collaborators answer during one operation. *)
Record Env : Type := mkEnv {
  checkPortStatus : completion jsstring;
  getConfigPath : completion jsstring;
  getWorkspaceSettings : completion Settings;
  start : completion unit;           (* [client.start()] *)
  start_states : list State;         (* the state changes reported meanwhile *)
  stop : completion unit;            (* [client.stop()] *)
  stop_states : list State           (* the state changes reported meanwhile *)
}.

(** How an operation ends: it returns, it throws (its promise is rejected),
    or it waits for the mutex for ever. *)
Inductive outcome (A : Type) : Type :=
| Done (a : A)
| Threw
| Blocked.
Arguments Done {A} a.
Arguments Threw {A}.
Arguments Blocked {A}.

Definition Op (A : Type) : Type :=
  LanguageServerAPI -> outcome A * LanguageServerAPI.

Definition ret {A : Type} (a : A) : Op A := fun s => (Done a, s).

Definition bind {A B : Type} (m : Op A) (f : A -> Op B) : Op B :=
  fun s =>
    match m s with
    | (Done a, s') => f a s'
    | (Threw, s') => (Threw, s')
    | (Blocked, s') => (Blocked, s')
    end.

Notation "'let*' x ':=' m 'in' k" := (bind m (fun x => k))
  (at level 10, x name, m at level 100, k at level 200, only parsing).
Notation "m ;; k" := (bind m (fun _ => k))
  (at level 100, k at level 200, right associativity, only parsing).

(** A call of a collaborator that may throw. *)
Definition call {A : Type} (c : completion A) : Op A :=
  fun s =>
    match c with
    | Normal a => (Done a, s)
    | Throw => (Threw, s)
    end.

(** [void m]: the promise of [m] is dropped, and its rejection with it. *)
Definition void (m : Op unit) : Op unit :=
  fun s =>
    match m s with
    | (Blocked, s') => (Blocked, s')
    | (_, s') => (Done tt, s')
    end.

Definition read {A : Type} (f : LanguageServerAPI -> A) : Op A :=
  fun s => (Done (f s), s).

Definition do (e : effect) : Op unit :=
  fun s =>
    (Done tt,
     mkApi (client s) (clientLock s) (running s) (initializedClient s)
       (emulatorConnected s) (accessCheckMode s) (flowCommand s)
       (effects s ++ [e])).

Definition set_client (c : option LanguageClient) : Op unit :=
  fun s =>
    (Done tt,
     mkApi c (clientLock s) (running s) (initializedClient s)
       (emulatorConnected s) (accessCheckMode s) (flowCommand s) (effects s)).

Definition set_clientLock (b : bool) : Op unit :=
  fun s =>
    (Done tt,
     mkApi (client s) b (running s) (initializedClient s)
       (emulatorConnected s) (accessCheckMode s) (flowCommand s) (effects s)).

Definition set_running (b : bool) : Op unit :=
  fun s =>
    (Done tt,
     mkApi (client s) (clientLock s) b (initializedClient s)
       (emulatorConnected s) (accessCheckMode s) (flowCommand s) (effects s)).

Definition set_initializedClient (b : bool) : Op unit :=
  fun s =>
    (Done tt,
     mkApi (client s) (clientLock s) (running s) b
       (emulatorConnected s) (accessCheckMode s) (flowCommand s) (effects s)).

Definition set_emulatorConnected (b : bool) : Op unit :=
  fun s =>
    (Done tt,
     mkApi (client s) (clientLock s) (running s) (initializedClient s)
       b (accessCheckMode s) (flowCommand s) (effects s)).

(** [await this.#clientLock.acquire()]: the caller goes on once the mutex is
    free and holds it from then on. *)
Definition acquire : Op unit :=
  fun s => if clientLock s then (Blocked, s) else set_clientLock true s.

(** [this.#clientLock.release()] *)
Definition release : Op unit := set_clientLock false.

(** [emulatorExists]: an error of the port scan is logged and answered with
    [false]. *)
Definition emulatorExists (env : Env) : Op bool :=
  match checkPortStatus env with
  | Throw => ret false
  | Normal status => ret (bool_decide (status = lit "open"))
  end.

(** [`${b}`] for a boolean. *)
Definition bool_toString (b : bool) : jsstring :=
  if b then lit "true" else lit "false".

(** The listener that [startClient] registers with [onDidChangeState]. *)
Definition onDidChangeState (newState : State) : Op unit :=
  set_running (match newState with Running => true | _ => false end);;
  let* initialized := read initializedClient in
  let* running := read running in
  (if initialized && negb running then do (Sleep (1000 * 5)) else ret tt);;
  do EmulatorStateChanged.

Fixpoint deliver (states : list State) : Op unit :=
  match states with
  | [] => ret tt
  | st :: states' => onDidChangeState st;; deliver states'
  end.

(** [startClient] *)
Definition startClient (enableFlow : option bool) (env : Env) : Op unit :=
  acquire;;
  let* enableFlow :=
    match enableFlow with
    | None =>
        let* found := emulatorExists env in
        set_emulatorConnected found;;
        ret found
    | Some b => ret b
    end in
  set_initializedClient false;;
  let* configPath := call (getConfigPath env) in
  let* settings1 := call (getWorkspaceSettings env) in
  let numberOfAccounts := numAccounts settings1 in
  let* settings2 := call (getWorkspaceSettings env) in
  let accessCheckMode := settings_accessCheckMode settings2 in
  let* flowCommand := read flowCommand in
  (if bool_decide (flowCommand = lit "flow") then ret tt else do KillDlv);;
  let c :=
    mkLanguageClient flowCommand
      [lit "cadence"; lit "language-server";
       lit "--enable-flow-client=" ++ bool_toString enableFlow]
      configPath (numToString numberOfAccounts) accessCheckMode in
  set_client (Some c);;
  do (ClientStart c);;
  deliver (start_states env);;
  match start env with
  | Normal _ => do EmulatorStateChanged;; do WatchFlowConfiguration
  | Throw => do ShowErrorMessage
  end;;
  set_initializedClient true;;
  (if negb enableFlow then do ShowWarningMessage else do ShowInformationMessage);;
  release.

(** [stopClient]: an error of [client.stop()] is swallowed. *)
Definition stopClient (env : Env) : Op unit :=
  acquire;;
  let* c := read client in
  match c with
  | Some _ =>
      do ClientStop;;
      deliver (stop_states env);;
      call (catch_value (stop env) tt)
  | None => ret tt
  end;;
  set_client None;;
  do EmulatorStateChanged;;
  release.

(** [restart]: the two calls are made one after the other and neither is
    awaited; both queue on the mutex, which serves them in this order. *)
Definition restart (enableFlow : bool) (env : Env) : Op unit :=
  do (Restart enableFlow);;
  void (stopClient env);;
  void (startClient (Some enableFlow) env).

(** [const seconds = 3] of [watchEmulator]. *)
Definition seconds : N := 3.

(** The callback that [watchEmulator] hands to [setInterval]. *)
Definition tick (env : Env) : Op unit :=
  acquire;;
  let* emulatorFound := emulatorExists env in
  let* connected := read emulatorConnected in
  if bool_decide (connected = emulatorFound) then release
  else
    set_emulatorConnected emulatorFound;;
    release;;
    restart emulatorFound env.

(** [watchEmulator]: the tick is handed to [setInterval]. *)
Definition watchEmulator : Op unit := do (SetInterval (1000 * seconds)).

(** The calls of [restart] among some effects, with their flags. *)
Definition restarts (es : list effect) : list bool :=
  omap (fun e => match e with Restart b => Some b | _ => None end) es.

(** The clients started among some effects. *)
Definition started_clients (es : list effect) : list LanguageClient :=
  omap (fun e => match e with ClientStart c => Some c | _ => None end) es.

(** What the port scan is read as. *)
Definition probe (env : Env) : bool :=
  match checkPortStatus env with
  | Throw => false
  | Normal status => bool_decide (status = lit "open")
  end.

(** The launch argument that carries the flag. *)
Definition flag_argument (enableFlow : bool) : jsstring :=
  lit "--enable-flow-client=" ++ bool_toString enableFlow.

(** The flag [startClient] launches with: the one given, or the reading of
    the port scan. *)
Definition launch_flag (enableFlow : option bool) (env : Env) : bool :=
  match enableFlow with
  | Some b => b
  | None => probe env
  end.

(** [e.newState === State.Running] *)
Definition is_running (st : State) : bool :=
  match st with
  | Running => true
  | _ => false
  end.

(** What the state listener does for a run of state changes, when
    [#initializedClient] is [initialized] all along. *)
Definition state_effects (initialized : bool) (states : list State)
    : list effect :=
  flat_map
    (fun st =>
       (if initialized && negb (is_running st) then [Sleep (1000 * 5)] else [])
       ++ [EmulatorStateChanged])
    states.

(** [running] after a run of state changes. *)
Definition running_after (r : bool) (states : list State) : bool :=
  match last states with
  | Some st => is_running st
  | None => r
  end.

(** The client [startClient] makes.  The number of accounts is printed as
    its decimal digits, as the template string does for a natural number
    below 2^53. *)
Definition new_client (flowCommand : jsstring) (enableFlow : bool)
    (configPath : jsstring) (settings : Settings) : LanguageClient :=
  mkLanguageClient flowCommand
    [lit "cadence"; lit "language-server"; flag_argument enableFlow]
    configPath (numToString (numAccounts settings))
    (settings_accessCheckMode settings).

(** The sleeps among some effects. *)
Definition sleeps (es : list effect) : list N :=
  omap (fun e => match e with Sleep ms => Some ms | _ => None end) es.

(** How often [ext.emulatorStateChanged()] is called among some effects. *)
Definition notifications (es : list effect) : nat :=
  length (omap (fun e => match e with EmulatorStateChanged => Some tt | _ => None end) es).

(** How often [client.stop()] is called among some effects. *)
Definition stops (es : list effect) : nat :=
  length (omap (fun e => match e with ClientStop => Some tt | _ => None end) es).

(** The ticks of the monitor for a run of answers of the collaborators,
    each run to its end before the next. *)
Fixpoint ticks (envs : list Env) : Op unit :=
  match envs with
  | [] => ret tt
  | env :: envs' => tick env;; ticks envs'
  end.

(** The readings that differ from the one before them, [b] being the one
    before the first. *)
Fixpoint transitions (b : bool) (readings : list bool) : list bool :=
  match readings with
  | [] => []
  | r :: readings' =>
      (if bool_decide (b = r) then [] else [r]) ++ transitions r readings'
  end.

(** [deactivate]: [client.stop()] is called without the mutex, its promise
    is dropped with its rejection handled, and the handle is left as it
    is. *)
Definition deactivate (env : Env) : Op unit :=
  let* c := read client in
  match c with
  | Some _ =>
      do ClientStop;;
      deliver (stop_states env);;
      call (catch_value (stop env) tt)
  | None => ret tt
  end.

End LanguageServer.

(** ** [language-server.ts]: the requests to the language server *)
Module Requests.
Import Js.

(** What is thrown, or what a promise is rejected with: an instance of
    [Error] with its message, or any other value. *)
Inductive thrown : Type :=
| ErrorInstance (message : jsstring)
| OtherValue (v : value).

(** How a promise settles. *)
Inductive settled (A : Type) : Type :=
| Fulfilled (a : A)
| Rejected (reason : thrown).
Arguments Fulfilled {A} a.
Arguments Rejected {A} reason.

(** The [method] and the parameters of [client.sendRequest]. *)
Record request : Type := mkRequest {
  method : jsstring;
  request_command : jsstring;
  request_arguments : list value
}.

Inductive event : Type :=
| Sent (r : request)                 (* [client.sendRequest(...)] *)
| ErrorMessage (text : jsstring).    (* [window.showErrorMessage(text)] *)

Definition CREATE_ACCOUNT_SERVER : jsstring := lit "cadence.server.flow.createAccount".
Definition SWITCH_ACCOUNT_SERVER : jsstring := lit "cadence.server.flow.switchActiveAccount".
Definition GET_ACCOUNTS_SERVER : jsstring := lit "cadence.server.flow.getAccounts".
Definition RESTART_SERVER : jsstring := lit "cadence.server.flow.restart".
Definition RELOAD_CONFIGURATION : jsstring := lit "cadence.server.flow.reloadConfiguration".

(** The handle of a supervisor as the requests see it, for a client that
    answers with [answer]. *)
Definition handle_of (answer : request -> settled value)
    (s : LanguageServer.LanguageServerAPI) : option (request -> settled value) :=
  (fun _ => answer) <$> LanguageServer.client s.

Section Client.

(** The handle [this.client], with what the client answers to a request
    when there is one. *)
Variable client : option (request -> settled value).

(** The classes of [./responses] and [Account], which are not in [src/]:
    [new response.ClientAccount(res).asAccount()],
    [new response.GetAccountsReponse(res)] and [account.name]. *)
Variables Account GetAccountsReponse : Type.
Variable ClientAccount_asAccount : value -> settled Account.
Variable new_GetAccountsReponse : value -> settled GetAccountsReponse.
Variable name : Account -> jsstring.

(** [#sendRequest]: with no client, [this.client?.sendRequest(...)] is
    [undefined] and nothing is sent. *)
Definition sendRequest (cmd : jsstring) (args : list value)
    : settled value * list event :=
  match client with
  | Some answer =>
      let r := mkRequest (lit "workspace/executeCommand") cmd args in
      (answer r, [Sent r])
  | None => (Fulfilled VUndefined, [])
  end.

(** [reset] *)
Definition reset : settled unit * list event :=
  let '(r, es) := sendRequest RESTART_SERVER [] in
  (match r with
   | Fulfilled _ => Fulfilled tt
   | Rejected err => Rejected err
   end, es).

(** [switchActiveAccount] *)
Definition switchActiveAccount (account : Account) : settled value * list event :=
  sendRequest SWITCH_ACCOUNT_SERVER [VString (name account)].

(** The callback that [watchFlowConfiguration] registers. *)
Definition reloadConfiguration : settled value * list event :=
  sendRequest RELOAD_CONFIGURATION [].

(** [createAccount] *)
Definition createAccount : settled Account * list event :=
  let '(r, es) := sendRequest CREATE_ACCOUNT_SERVER [] in
  let body :=
    match r with
    | Fulfilled res => ClientAccount_asAccount res
    | Rejected err => Rejected err
    end in
  match body with
  | Fulfilled account => (Fulfilled account, es)
  | Rejected err =>
      (Rejected err,
       es ++ match err with
             | ErrorInstance message =>
                 [ErrorMessage (lit "Failed to create account: " ++ message)]
             | OtherValue _ => []
             end)
  end.

(** [getAccounts] *)
Definition getAccounts : settled GetAccountsReponse * list event :=
  let '(r, es) := sendRequest GET_ACCOUNTS_SERVER [] in
  (match r with
   | Fulfilled res => new_GetAccountsReponse res
   | Rejected err => Rejected err
   end, es).

End Client.

(** The requests sent among some events. *)
Definition sent (es : list event) : list request :=
  omap (fun e => match e with Sent r => Some r | _ => None end) es.

(** The error messages shown among some events. *)
Definition messages (es : list event) : list jsstring :=
  omap (fun e => match e with ErrorMessage m => Some m | _ => None end) es.

End Requests.

(** ** [CliSelectionProvider]: the items of the version selector *)
Module CliSelection.
Import Js CliVersions.

(** [GET_BINARY_LABEL] *)
Definition GET_BINARY_LABEL (v : Semver.SemVer) : jsstring :=
  lit "Flow CLI v"
  ++ Semver.format (Semver.major v) (Semver.minor v) (Semver.patch v)
       (Semver.prerelease v).

Inductive item : Type :=
| AvailableBinaryItem (binary : CliBinary)
| CustomBinaryItem.

Definition label (i : item) : jsstring :=
  match i with
  | AvailableBinaryItem binary => GET_BINARY_LABEL (version binary)
  | CustomBinaryItem => lit "Choose a custom version..."
  end.

(** [Array.prototype.findIndex], with [None] for [-1]. *)
Fixpoint findIndex {A : Type} (p : A -> bool) (l : list A) : option nat :=
  match l with
  | [] => None
  | x :: l' => if p x then Some 0%nat else S <$> findIndex p l'
  end.

(** The predicate of the [findIndex] of [#createVersionSelector]. *)
Definition is_current (currentBinary : option CliBinary) (i : item) : bool :=
  match i, currentBinary with
  | AvailableBinaryItem binary, Some current =>
      bool_decide (command binary = command current)
  | _, _ => false
  end.

(** The items that [#createVersionSelector] gives the quick pick. *)
Definition createVersionSelector_items (currentBinary : option CliBinary)
    (availableBinaries : list CliBinary) : list item :=
  let items := (AvailableBinaryItem <$> availableBinaries) ++ [CustomBinaryItem] in
  match findIndex (is_current currentBinary) items with
  | Some currentBinaryIndex =>
      match items !! currentBinaryIndex with
      | Some currentBinaryItem =>
          currentBinaryItem :: delete currentBinaryIndex items
      | None => items
      end
  | None => items
  end.

(** The text of the status bar item of [#createStatusBarItem]. *)
Definition statusBarItem_text (v : option Semver.SemVer) : jsstring :=
  match v with
  | Some v => GET_BINARY_LABEL v
  | None => lit "$(error) Flow CLI not found"
  end.

End CliSelection.

(** ** The installer of the Flow CLI *)
Module Installer.
Import Js.

Inductive action : Type :=
| Deactivate                                      (* [languageServerApi.deactivate()] *)
| Activate                                        (* [languageServerApi.activate()] *)
| TryExecPowerShell (cmd : jsstring)
| TryExecUnixDefault (cmd : jsstring)
| ExecVscodeTerminal (name cmd : jsstring)
| ShowError (text : jsstring).                    (* [window.showErrorMessage(text)] *)

(** The process and what the collaborators answer. *)
Record Env : Type := mkEnv {
  platform : jsstring;                            (* [process.platform] *)
  GITHUB_TOKEN : option jsstring;                 (* [process.env.GITHUB_TOKEN] *)
  isActive : option bool;                         (* [languageServerApi.isActive] *)
  deactivate : completion unit;
  activate : completion unit;
  tryExecPowerShell : jsstring -> completion bool;
  tryExecUnixDefault : jsstring -> completion bool;
  execVscodeTerminal : jsstring -> jsstring -> completion unit
}.

Definition BREW_INSTALL_FLOW_CLI : jsstring :=
  lit "brew update && brew install flow-cli".

(** [POWERSHELL_INSTALL_CMD]; 34 is the double quote. *)
Definition POWERSHELL_INSTALL_CMD (githubToken : option jsstring) : jsstring :=
  lit "iex " ++ [34]
  ++ lit "& { $(irm 'https://raw.githubusercontent.com/onflow/flow-cli/master/install.ps1') } "
  ++ match githubToken with
     | Some t => lit "-GitHubToken " ++ t ++ lit " "
     | None => []
     end
  ++ [34].

(** [BASH_INSTALL_FLOW_CLI] *)
Definition BASH_INSTALL_FLOW_CLI (githubToken : option jsstring) : jsstring :=
  match githubToken with
  | Some t => lit "GITHUB_TOKEN=" ++ t ++ lit " "
  | None => []
  end
  ++ lit "sh -ci " ++ [34]
  ++ lit "$(curl -fsSL https://raw.githubusercontent.com/onflow/flow-cli/master/install.sh)"
  ++ [34].

(** A computation that may throw, with the actions it took. *)
Definition M (A : Type) : Type := completion A * list action.

Definition M_ret {A : Type} (a : A) : M A := (Normal a, []).

Definition M_bind {A B : Type} (m : M A) (f : A -> M B) : M B :=
  match m with
  | (Normal a, l) => let '(r, l') := f a in (r, l ++ l')
  | (Throw, l) => (Throw, l)
  end.

(** A call of a collaborator: the action, then its answer. *)
Definition perform {A : Type} (a : action) (answer : completion A) : M A :=
  (answer, [a]).

(** [try { m } catch { h }] *)
Definition M_catch {A : Type} (m : M A) (h : M A) : M A :=
  match m with
  | (Throw, l) => let '(r, l') := h in (r, l ++ l')
  | _ => m
  end.

Section Install.
Variable env : Env.

(** [#install_macos] *)
Definition install_macos : M unit :=
  perform (ExecVscodeTerminal (lit "Install Flow CLI") BREW_INSTALL_FLOW_CLI)
    (execVscodeTerminal env (lit "Install Flow CLI") BREW_INSTALL_FLOW_CLI).

(** [#install_windows] *)
Definition install_windows : M unit :=
  M_bind
    match GITHUB_TOKEN env with
    | Some t =>
        perform (TryExecPowerShell (POWERSHELL_INSTALL_CMD (Some t)))
          (tryExecPowerShell env (POWERSHELL_INSTALL_CMD (Some t)))
    | None => M_ret false
    end
    (fun installed =>
       if installed then M_ret tt
       else
         perform
           (ExecVscodeTerminal (lit "Install Flow CLI")
              (POWERSHELL_INSTALL_CMD (GITHUB_TOKEN env)))
           (execVscodeTerminal env (lit "Install Flow CLI")
              (POWERSHELL_INSTALL_CMD (GITHUB_TOKEN env)))).

(** [#install_bash_cmd] *)
Definition install_bash_cmd : M unit :=
  M_bind
    match GITHUB_TOKEN env with
    | Some t =>
        perform (TryExecUnixDefault (BASH_INSTALL_FLOW_CLI (Some t)))
          (tryExecUnixDefault env (BASH_INSTALL_FLOW_CLI (Some t)))
    | None => M_ret false
    end
    (fun installed =>
       if installed then M_ret tt
       else
         perform
           (ExecVscodeTerminal (lit "Install Flow CLI") (BASH_INSTALL_FLOW_CLI None))
           (execVscodeTerminal env (lit "Install Flow CLI")
              (BASH_INSTALL_FLOW_CLI None))).

(** [install] *)
Definition install : M unit :=
  let isActive := default false (isActive env) in
  M_bind (if isActive then perform Deactivate (deactivate env) else M_ret tt)
    (fun _ =>
  M_bind
    (M_catch
       (if bool_decide (platform env = lit "darwin") then install_macos
        else if bool_decide (platform env = lit "win32") then install_windows
        else install_bash_cmd)
       (perform (ShowError (lit "Failed to install Flow CLI")) (Normal tt)))
    (fun _ =>
  if isActive then perform Activate (activate env) else M_ret tt)).

End Install.

(** The commands handed to the terminal among some actions. *)
Definition terminal_commands (l : list action) : list jsstring :=
  omap (fun a => match a with ExecVscodeTerminal _ cmd => Some cmd | _ => None end) l.

(** The commands run silently among some actions. *)
Definition silent_commands (l : list action) : list jsstring :=
  omap (fun a =>
          match a with
          | TryExecPowerShell cmd | TryExecUnixDefault cmd => Some cmd
          | _ => None
          end) l.

End Installer.

(** * Properties *)

(** ** Strings *)
Module JsFacts.
Import Js.

Lemma take_drop_while p s : take_while p s ++ drop_while p s = s.
Proof. induction s as [|c tl IH]; [done|]. cbn. destruct (p c); [by rewrite <- IH at 3|done]. Qed.

Lemma forallb_take_while p s : forallb p (take_while p s) = true.
Proof. induction s as [|c tl IH]; [done|]. cbn. destruct (p c) eqn:E; [|done]. cbn. by rewrite E. Qed.

Lemma take_while_app p s t :
  forallb p s = true -> take_while p (s ++ t) = s ++ take_while p t.
Proof.
  induction s as [|c tl IH]; [done|]. cbn. intros [-> H]%andb_true_iff.
  by rewrite IH.
Qed.

Lemma drop_while_app p s t :
  forallb p s = true -> drop_while p (s ++ t) = drop_while p t.
Proof.
  induction s as [|c tl IH]; [done|]. cbn. intros [-> H]%andb_true_iff.
  by rewrite IH.
Qed.

Lemma take_while_all p s : forallb p s = true -> take_while p s = s.
Proof.
  intros H. rewrite <- (app_nil_r s) at 1. rewrite take_while_app by done.
  by rewrite app_nil_r.
Qed.

Lemma drop_while_all p s : forallb p s = true -> drop_while p s = [].
Proof.
  intros H. rewrite <- (app_nil_r s) at 1. by rewrite drop_while_app.
Qed.

Lemma length_drop_while p s : (length (drop_while p s) <= length s)%nat.
Proof. induction s as [|c tl IH]; [done|]. cbn. destruct (p c); cbn; lia. Qed.

Lemma length_trim s : (length (trim s) <= length s)%nat.
Proof.
  unfold trim, trimEnd, trimStart. rewrite length_rev.
  etrans; [apply length_drop_while|]. rewrite length_rev.
  apply length_drop_while.
Qed.

(** A string without white space is its own trim. *)
Lemma trim_id s : forallb (fun c => negb (isWhiteSpace c)) s = true -> trim s = s.
Proof.
  intros H. unfold trim, trimEnd, trimStart.
  assert (forall t, forallb (fun c => negb (isWhiteSpace c)) t = true ->
            drop_while isWhiteSpace t = t) as Hd.
  { intros [|c tl]; [done|]. cbn. intros [Hc _]%andb_true_iff.
    by destruct (isWhiteSpace c). }
  rewrite (Hd s H). rewrite Hd; [by rewrite rev_involutive|].
  rewrite forallb_forall in *. intros c Hc. apply H. by apply in_rev.
Qed.

Lemma join_split sep s : join sep (split sep s) = s.
Proof.
  induction s as [|c tl IH]; [done|]. cbn.
  destruct (N.eqb_spec c sep) as [->|Hne].
  - cbn. destruct (split sep tl) as [|q qs] eqn:E.
    + by destruct tl; cbn in *; [|destruct (_ =? _), (split sep tl)].
    + by rewrite IH.
  - destruct (split sep tl) as [|q qs] eqn:E.
    + by destruct tl; cbn in *; [|destruct (_ =? _), (split sep tl)].
    + cbn in *. destruct qs; by rewrite <- IH.
Qed.

Lemma split_nonempty sep s : split sep s <> [].
Proof.
  destruct s as [|c tl]; [done|]. cbn. destruct (c =? sep); [done|].
  by destruct (split sep tl).
Qed.

Lemma take_length_drop_while p s :
  take (length s - length (drop_while p s)) s = take_while p s.
Proof.
  induction s as [|c tl IH]; [done|]. cbn [drop_while take_while].
  destruct (p c).
  - pose proof (length_drop_while p tl).
    replace (length (c :: tl) - length (drop_while p tl))%nat
      with (S (length tl - length (drop_while p tl))) by (cbn; lia).
    cbn. by rewrite IH.
  - by rewrite Nat.sub_diag.
Qed.

Lemma drop_while_head p s c tl : drop_while p s = c :: tl -> p c = false.
Proof.
  induction s as [|d s IH]; [done|]. cbn.
  destruct (p d) eqn:Hd; [done|]. by intros [= <- _].
Qed.

End JsFacts.

(** ** The matcher decides the language of a pattern *)
Module RegExpFacts.
Import Js RegExp JsFacts.

Section MatcherCorrect.
Context {R : Type}.
Implicit Types (k : @cont R) (s w post : jsstring) (cap : option jsstring).

Lemma repeat_sound r fuel :
  (forall s cap k x, run r s cap k = Some x ->
     exists w post cap', s = w ++ post /\ lang r w post /\ k post cap' = Some x) ->
  forall s cap k x, repeat (run r) fuel s cap k = Some x ->
    exists w post cap', s = w ++ post /\ lang (Star r) w post /\ k post cap' = Some x.
Proof.
  intros IHr. induction fuel as [|fuel IH]; intros s cap k x H; simpl in H.
  - exists [], s, cap. repeat split; [constructor | done].
  - destruct (run r s cap _) as [y|] eqn:E.
    + injection H as ->. apply IHr in E as (w1 & post1 & cap1 & -> & L1 & K).
      destruct (length post1 <? length (w1 ++ post1))%nat eqn:Lt; [|done].
      apply IH in K as (w2 & post & cap' & -> & L2 & K).
      exists (w1 ++ w2), post, cap'. rewrite <- app_assoc. repeat split; [|done].
      apply lang_Star_cons; [|done..]. intros ->.
      apply Nat.ltb_lt in Lt. simpl in Lt. lia.
    + exists [], s, cap. repeat split; [constructor | done].
Qed.

Lemma run_sound r :
  forall s cap k x, run r s cap k = Some x ->
    exists w post cap', s = w ++ post /\ lang r w post /\ k post cap' = Some x.
Proof.
  induction r as [p| |r1 IH1 r2 IH2|r1 IH1 r2 IH2|r IH|r IH|];
    intros s cap k x H; simpl in H.
  - destruct s as [|c tl]; [done|]. destruct (p c) eqn:P; [|done].
    exists [c], tl, cap. repeat split; [by constructor | done].
  - exists [], s, cap. repeat split; [constructor | done].
  - apply IH1 in H as (w1 & post1 & cap1 & -> & L1 & H).
    apply IH2 in H as (w2 & post & cap' & -> & L2 & H).
    exists (w1 ++ w2), post, cap'. rewrite <- app_assoc.
    repeat split; [by constructor | done].
  - destruct (run r1 s cap k) as [y|] eqn:E.
    + injection H as ->. apply IH1 in E as (w & post & cap' & -> & L & K).
      exists w, post, cap'. repeat split; [by apply lang_Alt_l | done].
    + apply IH2 in H as (w & post & cap' & -> & L & K).
      exists w, post, cap'. repeat split; [by apply lang_Alt_r | done].
  - by apply (repeat_sound r (length s) IH) in H.
  - apply IH in H as (w & post & cap' & -> & L & K).
    eexists w, post, _. repeat split; [by constructor | exact K].
  - exists [], s, cap. repeat split; [constructor|].
    + destruct s as [|c tl]; [done|]. simpl. by destruct (isLineTerminator c).
    + destruct s as [|c tl]; [done|]. by destruct (isLineTerminator c).
Qed.

Lemma repeat_complete r :
  (forall w post, lang r w post -> forall cap k,
     (forall cap', is_Some (k post cap')) -> is_Some (run r (w ++ post) cap k)) ->
  forall w post, lang (Star r) w post -> forall fuel cap k,
    (length w <= fuel)%nat ->
    (forall cap', is_Some (k post cap')) ->
    is_Some (repeat (run r) fuel (w ++ post) cap k).
Proof.
  intros IHr w post L. remember (Star r) as sr eqn:Esr.
  induction L as [| | | | |r0 post|r0 w1 w2 post Hne L1 _ L2 IH2| |];
    try discriminate; injection Esr as ->; intros fuel cap k Hf Hk.
  - destruct fuel as [|fuel]; simpl; [done|].
    destruct (run r post cap _); [by eexists | done].
  - destruct fuel as [|fuel].
    { destruct w1; [done | simpl in Hf; lia]. }
    simpl. rewrite <- app_assoc.
    destruct (IHr w1 (w2 ++ post) L1 cap
      (fun s' cap' =>
         if (length s' <? length (w1 ++ w2 ++ post))%nat
         then repeat (run r) fuel s' cap' k else None)) as [y Hy].
    + intros cap'.
      assert ((length (w2 ++ post) <? length (w1 ++ w2 ++ post))%nat = true) as ->.
      { apply Nat.ltb_lt. rewrite (length_app w1). destruct w1; [done | simpl; lia]. }
      apply IH2; [done | | done].
      rewrite length_app in Hf. destruct w1; [done | simpl in Hf; lia].
    + rewrite Hy. by eexists.
Qed.

Lemma run_complete r :
  forall w post, lang r w post -> forall cap k,
    (forall cap', is_Some (k post cap')) -> is_Some (run r (w ++ post) cap k).
Proof.
  induction r as [p| |r1 IH1 r2 IH2|r1 IH1 r2 IH2|r IH|r IH|];
    intros w post L cap k Hk; inversion L; subst; simpl.
  - by rewrite H0.
  - done.
  - rewrite <- app_assoc. apply IH1; [done|]. intros cap'. by apply IH2.
  - destruct (IH1 _ _ H3 cap k Hk) as [y ->]. by eexists.
  - destruct (run r1 (w ++ post) cap k); [by eexists|]. by apply IH2.
  - destruct (length post); simpl; [done|].
    destruct (run r post cap _); [by eexists | done].
  - apply (repeat_complete r IH (w1 ++ w2) post L); [|done].
    rewrite !length_app. lia.
  - apply IH; [done|]. intros cap'. apply Hk.
  - destruct post as [|c tl]; [done|]. simpl in H. by rewrite H.
Qed.

End MatcherCorrect.

(** The matcher decides the language: a start index matches exactly when
    some prefix of the input there is in the language of the pattern. *)
Lemma match_here_None r s :
  match_here r s = None <-> ~ exists w post, s = w ++ post /\ lang r w post.
Proof.
  unfold match_here. split.
  - intros H (w & post & -> & L).
    destruct (run_complete r w post L None (fun _ cap => Some cap)) as [y Hy];
      [by eexists | congruence].
  - intros H. destruct (run r s None _) as [y|] eqn:E; [|done].
    apply run_sound in E as (w & post & _ & -> & L & _). destruct H; eauto.
Qed.

Lemma match_here_Some r s cap :
  match_here r s = Some cap -> exists w post, s = w ++ post /\ lang r w post.
Proof.
  unfold match_here. intros E.
  apply run_sound in E as (w & post & _ & -> & L & _). eauto.
Qed.

Lemma occurs_cons r c s : occurs r s -> occurs r (c :: s).
Proof. intros (pre & w & post & -> & L). by exists (c :: pre), w, post. Qed.

Lemma exec_None r s : exec r s = None <-> ~ occurs r s.
Proof.
  induction s as [|c tl IH]; simpl.
  - destruct (match_here r []) as [cap|] eqn:E.
    + split; [done|]. intros H. destruct H.
      apply match_here_Some in E as (w & post & Hs & L).
      exists [], w, post. by split.
    + split; [|done]. intros _ (pre & w & post & Hs & L).
      apply match_here_None in E. apply E. destruct pre; [simpl in Hs; eauto | done].
  - destruct (match_here r (c :: tl)) as [cap|] eqn:E.
    + split; [done|]. intros H. destruct H.
      apply match_here_Some in E as (w & post & Hs & L).
      exists [], w, post. by split.
    + rewrite IH. split.
      * intros H (pre & w & post & Hs & L). destruct pre as [|c' pre].
        -- apply match_here_None in E. apply E. simpl in Hs. eauto.
        -- injection Hs as -> ->. apply H. by exists pre, w, post.
      * intros H Ho. apply H. by apply occurs_cons.
Qed.

(** *** The star of a character class *)

Lemma repeat_class {R : Type} p (k : @cont R) cap s : forall fuel,
  (length s <= fuel)%nat ->
  repeat (run (Class p)) fuel s cap k = star_class p s cap k.
Proof.
  induction s as [|c tl IH]; intros fuel Hf.
  - by destruct fuel.
  - destruct fuel as [|fuel]; [cbn in Hf; lia|]. cbn.
    destruct (p c); [|done].
    rewrite Nat.leb_refl.
    change (repeat _ fuel tl cap k) with (repeat (run (Class p)) fuel tl cap k).
    rewrite IH by (cbn in Hf; lia). done.
Qed.

Lemma run_star_class {R : Type} p (k : @cont R) cap s :
  run (Star (Class p)) s cap k = star_class p s cap k.
Proof. cbn. by apply repeat_class. Qed.

(** When the rest of the pattern matches after the longest run, that is the
    match found. *)
Lemma star_class_longest {R : Type} p (k : @cont R) cap s x :
  k (drop_while p s) cap = Some x -> star_class p s cap k = Some x.
Proof.
  induction s as [|c tl IH]; [done|]. cbn. destruct (p c); [|done].
  intros H. by rewrite IH.
Qed.

(** When the rest of the pattern cannot match before a character of the
    class, the star takes the longest run or the match fails. *)
Lemma star_class_forced {R : Type} p (k : @cont R) cap s :
  (forall c tl, p c = true -> k (c :: tl) cap = None) ->
  star_class p s cap k = k (drop_while p s) cap.
Proof.
  intros Hk. induction s as [|c tl IH]; [done|]. cbn.
  destruct (p c) eqn:Hp; [|done]. rewrite IH.
  destruct (k (drop_while p tl) cap); [done|]. by apply Hk.
Qed.

Lemma run_Str {R : Type} l (k : @cont R) cap s :
  run (Str l) s cap k =
    match CliVersions.strip_literal l s with
    | Some rest => k rest cap
    | None => None
    end.
Proof.
  revert s. induction l as [|c l IH]; intros s; [done|].
  destruct s as [|c' s]; [done|]. cbn. destruct (c =? c'); [|done]. apply IH.
Qed.

Lemma run_Seq {R : Type} r1 r2 (k : @cont R) cap s :
  run (Seq r1 r2) s cap k = run r1 s cap (fun s' cap' => run r2 s' cap' k).
Proof. done. Qed.

Lemma run_Chr {R : Type} c (k : @cont R) cap s :
  run (Chr c) s cap k =
    match s with
    | c' :: tl => if c' =? c then k tl cap else None
    | [] => None
    end.
Proof. destruct s as [|c' tl]; [done|]. cbn. by rewrite (N.eqb_sym c c'). Qed.

Lemma run_Group {R : Type} r (k : @cont R) cap s :
  run (Group r) s cap k
  = run r s cap (fun s' _ => k s' (Some (take (length s - length s') s))).
Proof. done. Qed.

(** The matcher on the legacy pattern is the scanner. *)
Lemma match_here_legacy s :
  match_here CliVersions.LEGACY_VERSION_REGEXP s
  = match CliVersions.legacy_scan_here s with
    | Some token => Some (Some token)
    | None => None
    end.
Proof.
  unfold match_here, CliVersions.LEGACY_VERSION_REGEXP, CliVersions.legacy_scan_here.
  rewrite run_Seq, run_Str.
  destruct (CliVersions.strip_literal _ s) as [rest|]; [|done].
  rewrite run_Seq, run_star_class, star_class_forced.
  2:{ intros c tl Hc. rewrite run_Seq, run_Chr.
      destruct (N.eqb_spec c 118) as [->|]; done. }
  rewrite run_Seq, run_Chr.
  destruct (drop_while isWhiteSpace rest) as [|c line]; [done|].
  destruct (c =? 118); [|done].
  rewrite run_Seq, run_Group, run_star_class. apply star_class_longest.
  rewrite take_length_drop_while. cbn.
  destruct (drop_while isDot line) as [|c' tl] eqn:E; [done|].
  apply drop_while_head in E. unfold isDot in E. apply negb_false_iff in E.
  unfold isWhiteSpace. rewrite E. by rewrite orb_true_r.
Qed.

Lemma exec_legacy s :
  exec CliVersions.LEGACY_VERSION_REGEXP s
  = match CliVersions.legacy_scan s with
    | Some token => Some (Some token)
    | None => None
    end.
Proof.
  induction s as [|c tl IH]; cbn [exec CliVersions.legacy_scan];
    rewrite match_here_legacy;
    destruct (CliVersions.legacy_scan_here _); done.
Qed.

(** The pattern matches nowhere exactly when the scanner finds no token. *)
Lemma legacy_scan_None s :
  CliVersions.legacy_scan s = None
  <-> ~ occurs CliVersions.LEGACY_VERSION_REGEXP s.
Proof.
  rewrite <- exec_None, exec_legacy. by destruct (CliVersions.legacy_scan s).
Qed.

End RegExpFacts.

(** ** Semantic versions *)
Module SemverFacts.
Import Js Semver JsFacts.

(** *** Decimal digits *)

Lemma isDigit_cases c :
  isDigit c = true ->
  c = 48 \/ c = 49 \/ c = 50 \/ c = 51 \/ c = 52 \/ c = 53 \/ c = 54
  \/ c = 55 \/ c = 56 \/ c = 57.
Proof.
  unfold isDigit. intros [H1 H2]%andb_true_iff.
  apply N.leb_le in H1, H2. lia.
Qed.

Lemma digits_of_uint_of_digits ds :
  forallb isDigit ds = true -> digits_of_uint (uint_of_digits ds) = ds.
Proof.
  induction ds as [|c tl IH]; [done|]. cbn [forallb].
  intros [Hc Htl]%andb_true_iff. specialize (IH Htl).
  destruct (isDigit_cases c Hc) as [->|[->|[->|[->|[->|[->|[->|[->|[->| ->]]]]]]]]];
    cbn; by rewrite IH.
Qed.

Lemma uint_of_digits_of_uint u : uint_of_digits (digits_of_uint u) = u.
Proof. induction u; cbn; by rewrite ?IHu. Qed.

Lemma forallb_digits_of_uint u : forallb isDigit (digits_of_uint u) = true.
Proof. induction u; cbn; by rewrite ?IHu. Qed.

Lemma unorm_canonical ds :
  canonical ds = true -> unorm (uint_of_digits ds) = uint_of_digits ds.
Proof.
  destruct ds as [|c tl]; [done|]. cbn [canonical].
  intros [[Hc Htl]%andb_true_iff | [[Hc Hnz]%andb_true_iff Htl]%andb_true_iff]%orb_true_iff.
  - apply N.eqb_eq in Hc as ->. by destruct tl.
  - apply negb_true_iff, N.eqb_neq in Hnz.
    destruct (isDigit_cases c Hc) as [->|[->|[->|[->|[->|[->|[->|[->|[->| ->]]]]]]]]];
      done.
Qed.

Lemma canonical_digits ds : canonical ds = true -> forallb isDigit ds = true.
Proof.
  destruct ds as [|c tl]; [done|]. cbn [canonical].
  intros [[Hc Htl]%andb_true_iff | [[Hc Hnz]%andb_true_iff Htl]%andb_true_iff]%orb_true_iff.
  - apply N.eqb_eq in Hc as ->. by destruct tl.
  - cbn. by rewrite Hc, Htl.
Qed.

(** Printing the number of a canonical digit string gives the string. *)
Lemma numToString_toNumber ds :
  canonical ds = true -> numToString (toNumber ds) = ds.
Proof.
  intros H. unfold numToString, toNumber.
  rewrite DecimalN.Unsigned.to_of, unorm_canonical by done.
  by apply digits_of_uint_of_digits, canonical_digits.
Qed.

(** *** The strict grammar *)

Lemma numeric_identifier_sound s m rest :
  numeric_identifier s = Some (m, rest) -> canonical m = true /\ s = m ++ rest.
Proof.
  destruct s as [|c tl]; [done|]. cbn.
  destruct (N.eqb_spec c 48) as [->|Hne].
  - by intros [= <- <-].
  - destruct (isDigit c) eqn:Hd; [|done]. intros [= <- <-]. split.
    + cbn. rewrite Hd, forallb_take_while.
      apply N.eqb_neq in Hne. by rewrite Hne.
    + cbn. by rewrite take_drop_while.
Qed.

Lemma numeric_identifier_complete m rest :
  canonical m = true -> starts_no_digit rest ->
  numeric_identifier (m ++ rest) = Some (m, rest).
Proof.
  destruct m as [|c tl]; [done|]. cbn [canonical].
  intros [[Hc Htl]%andb_true_iff | [[Hc Hnz]%andb_true_iff Htl]%andb_true_iff]%orb_true_iff
    Hrest; cbn.
  - rewrite Hc. apply N.eqb_eq in Hc as ->. by destruct tl.
  - apply negb_true_iff in Hnz. rewrite Hnz, Hc.
    rewrite take_while_app, drop_while_app by done.
    destruct rest as [|c' rest]; cbn in *; [by rewrite app_nil_r|].
    rewrite Hrest. by rewrite app_nil_r.
Qed.

Lemma expect_sound c s rest : expect c s = Some rest -> s = c :: rest.
Proof.
  destruct s as [|c' tl]; [done|]. cbn.
  destruct (N.eqb_spec c' c) as [->|]; [|done]. by intros [= ->].
Qed.

Lemma dotted_sound mark ok s g rest :
  dotted mark ok s = Some (g, rest) ->
  match g with
  | Some body =>
      s = mark :: body ++ rest
      /\ forallb isIdentOrDot body = true
      /\ forallb ok (split 46 body) = true
  | None => rest = s
  end.
Proof.
  destruct s as [|c tl]; cbn; [by intros [= <- <-]|].
  destruct (N.eqb_spec c mark) as [->|]; [|by intros [= <- <-]].
  destruct (forallb ok _) eqn:Hok; [|done]. intros [= <- <-].
  by rewrite take_drop_while, forallb_take_while.
Qed.

Lemma dotted_complete mark ok body :
  forallb isIdentOrDot body = true -> forallb ok (split 46 body) = true ->
  dotted mark ok (mark :: body) = Some (Some body, []).
Proof.
  intros Hb Hok. cbn. rewrite N.eqb_refl.
  by rewrite take_while_all, drop_while_all, Hok.
Qed.

Lemma match_full_sound s m1 m2 m3 m4 m5 :
  match_full s = Some (m1, m2, m3, m4, m5) ->
  groups_ok m1 m2 m3 m4
  /\ (length (version_text m1 m2 m3 m4) <= length s)%nat.
Proof.
  unfold match_full.
  set (s0 := match s with c :: tl => if c =? 118 then tl else s | [] => s end).
  assert (length s0 <= length s)%nat as Hs0.
  { subst s0. destruct s as [|c tl]; [done|]. destruct (c =? 118); cbn; lia. }
  clearbody s0. intros H.
  destruct (numeric_identifier s0) as [[n1 s1]|] eqn:E1; [|done]. cbn in H.
  destruct (expect 46 s1) as [s1'|] eqn:X1; [|done]. cbn in H.
  destruct (numeric_identifier s1') as [[n2 s2]|] eqn:E2; [|done]. cbn in H.
  destruct (expect 46 s2) as [s2'|] eqn:X2; [|done]. cbn in H.
  destruct (numeric_identifier s2') as [[n3 s3]|] eqn:E3; [|done]. cbn in H.
  destruct (dotted 45 prerelease_identifier s3) as [[g4 s4]|] eqn:D4; [|done].
  cbn in H.
  destruct (dotted 43 build_identifier s4) as [[g5 s5]|] eqn:D5; [|done].
  cbn in H. destruct s5; [|done]. injection H as <- <- <- <- <-.
  apply numeric_identifier_sound in E1 as [C1 ->], E2 as [C2 ->], E3 as [C3 ->].
  apply expect_sound in X1 as ->, X2 as ->.
  apply dotted_sound in D4, D5.
  split.
  - repeat split; try done. by destruct g4 as [p|]; [destruct D4 as (_ & ? & ?)|].
  - etrans; [|exact Hs0]. unfold version_text.
    destruct g4 as [p|]; [destruct D4 as (-> & _ & _)|subst s4];
      repeat (rewrite ?length_app; cbn [length]); lia.
Qed.

Lemma match_full_complete m1 m2 m3 m4 :
  groups_ok m1 m2 m3 m4 ->
  match_full (version_text m1 m2 m3 m4) = Some (m1, m2, m3, m4, None).
Proof.
  intros (C1 & C2 & C3 & C4). unfold match_full, version_text.
  assert (forall rest, match m1 ++ rest with
            | c :: tl => if c =? 118 then tl else m1 ++ rest
            | [] => m1 ++ rest
            end = m1 ++ rest) as Hv.
  { intros rest. destruct m1 as [|c tl]; [done|]. cbn.
    apply canonical_digits in C1. cbn in C1. apply andb_true_iff in C1 as [Hc _].
    destruct (N.eqb_spec c 118) as [->|]; done. }
  rewrite <- app_assoc. rewrite Hv.
  rewrite numeric_identifier_complete by done. cbn.
  rewrite <- app_assoc.
  rewrite numeric_identifier_complete by done. cbn.
  rewrite numeric_identifier_complete by (by destruct m4).
  cbn -[dotted]. destruct m4 as [p|].
  - destruct C4 as [Hp Hok]. rewrite dotted_complete by done. done.
  - done.
Qed.

(** *** Printing a version and reading it back *)

Lemma numberify_toString id :
  prerelease_identifier id = true -> identifier_toString (numberify id) = id.
Proof.
  intros H. unfold numberify.
  destruct (forallb isDigit id && negb _) eqn:Hd; [|done].
  destruct (toNumber id <? MAX_SAFE_INTEGER); [|done]. cbn.
  apply numToString_toNumber. apply andb_true_iff in Hd as [Hd _].
  destruct id as [|c tl]; [done|]. cbn in *. rewrite Hd in H. cbn in H.
  apply andb_true_iff in Hd as [Hc Htl]. rewrite Hc, Htl. cbn.
  apply andb_true_iff in H as [_ H].
  destruct (c =? 48); cbn in *; [|done]. destruct tl; done.
Qed.

Lemma map_numberify_toString ps :
  forallb prerelease_identifier ps = true ->
  map identifier_toString (map numberify ps) = ps.
Proof.
  induction ps as [|id ps IH]; [done|]. cbn. intros [H1 H2]%andb_true_iff.
  by rewrite numberify_toString, IH.
Qed.

Lemma format_groups m1 m2 m3 m4 :
  groups_ok m1 m2 m3 m4 ->
  format (toNumber m1) (toNumber m2) (toNumber m3)
    match m4 with
    | Some p => map numberify (split 46 p)
    | None => []
    end
  = version_text m1 m2 m3 m4.
Proof.
  intros (C1 & C2 & C3 & C4). unfold format, version_text.
  rewrite !numToString_toNumber by done.
  destruct m4 as [p|]; [|by rewrite app_nil_r].
  destruct C4 as [_ Hok].
  destruct (map numberify (split 46 p)) eqn:E.
  - apply map_eq_nil in E. by apply split_nonempty in E.
  - rewrite <- E. by rewrite map_numberify_toString, join_split.
Qed.

Lemma isIdentOrDot_not_space c :
  isIdentOrDot c = true -> isWhiteSpace c = false.
Proof.
  intros H. assert (45 <= c <= 122) as Hr.
  { revert H. unfold isIdentOrDot, isIdentChar, isDigit, isLetter.
    rewrite !orb_true_iff, !andb_true_iff, !N.eqb_eq, !N.leb_le. lia. }
  apply not_true_is_false. unfold isWhiteSpace, isLineTerminator.
  rewrite !orb_true_iff, !andb_true_iff, !N.eqb_eq, !N.leb_le. lia.
Qed.

Lemma isDigit_isIdentOrDot c : isDigit c = true -> isIdentOrDot c = true.
Proof. intros H. unfold isIdentOrDot, isIdentChar. by rewrite H. Qed.

Lemma version_text_chars m1 m2 m3 m4 :
  groups_ok m1 m2 m3 m4 ->
  forallb isIdentOrDot (version_text m1 m2 m3 m4) = true.
Proof.
  intros (C1 & C2 & C3 & C4). unfold version_text.
  assert (forall m, canonical m = true -> forallb isIdentOrDot m = true) as Hc.
  { intros m Hm. apply canonical_digits in Hm. rewrite forallb_forall in *.
    intros c Hin. by apply isDigit_isIdentOrDot, Hm. }
  rewrite !forallb_app. cbn. rewrite !forallb_app. cbn.
  rewrite !Hc by done. cbn. destruct m4 as [p|]; [|done]. cbn. by destruct C4.
Qed.

Lemma version_text_trim m1 m2 m3 m4 :
  groups_ok m1 m2 m3 m4 ->
  trim (version_text m1 m2 m3 m4) = version_text m1 m2 m3 m4.
Proof.
  intros H. apply trim_id. apply version_text_chars in H.
  rewrite forallb_forall in *. intros c Hc.
  by rewrite isIdentOrDot_not_space; [|apply H].
Qed.

Lemma version_text_strip m1 m2 m3 m4 :
  groups_ok m1 m2 m3 m4 ->
  strip_prefix_eq_v (version_text m1 m2 m3 m4) = version_text m1 m2 m3 m4.
Proof.
  intros (C1 & _). unfold version_text, strip_prefix_eq_v.
  destruct m1 as [|c tl]; [done|]. cbn.
  apply canonical_digits in C1. cbn in C1. apply andb_true_iff in C1 as [Hc _].
  destruct (N.eqb_spec c 61) as [->|]; [done|].
  destruct (N.eqb_spec c 118) as [->|]; done.
Qed.

(** What [new SemVer] constructs, from the groups of the match. *)
Lemma new_SemVer_Some s sv :
  new_SemVer s = Some sv ->
  exists m1 m2 m3 m4,
    groups_ok m1 m2 m3 m4
    /\ version sv = version_text m1 m2 m3 m4
    /\ major sv = toNumber m1 /\ minor sv = toNumber m2 /\ patch sv = toNumber m3
    /\ prerelease sv = match m4 with
                       | Some p => map numberify (split 46 p)
                       | None => []
                       end
    /\ (major sv <= MAX_SAFE_INTEGER /\ minor sv <= MAX_SAFE_INTEGER
        /\ patch sv <= MAX_SAFE_INTEGER)
    /\ (length (version sv) <= MAX_LENGTH)%nat.
Proof.
  unfold new_SemVer. destruct (MAX_LENGTH <? length s)%nat eqn:Hlen; [done|].
  apply Nat.ltb_ge in Hlen.
  destruct (match_full (trim s)) as [[[[[m1 m2] m3] m4] m5]|] eqn:Hm; [|done].
  cbn. destruct (_ || _ || _) eqn:Hmax; [done|]. intros [= <-]. cbn.
  apply match_full_sound in Hm as [Hg Hl].
  apply orb_false_iff in Hmax as [[H1 H2]%orb_false_iff H3].
  apply N.ltb_ge in H1, H2, H3.
  exists m1, m2, m3, m4. rewrite format_groups by done.
  split; [exact Hg|]. repeat split; try done.
  pose proof (length_trim s). lia.
Qed.

(** The version string of a [SemVer] is itself a version, and the one it
    prints as: reading it gives the same numbers and prerelease, no build,
    and the same string. *)
Lemma parse_version s sv :
  parse s = Some sv ->
  exists sv',
    parse (version sv) = Some sv'
    /\ version sv' = version sv
    /\ major sv' = major sv /\ minor sv' = minor sv /\ patch sv' = patch sv
    /\ prerelease sv' = prerelease sv /\ build sv' = [].
Proof.
  unfold parse. intros H.
  apply new_SemVer_Some in H
    as (m1 & m2 & m3 & m4 & Hg & Hv & H1 & H2 & H3 & H4 & (B1 & B2 & B3) & Hl).
  unfold new_SemVer. apply Nat.ltb_ge in Hl. rewrite Hl.
  rewrite Hv, version_text_trim, match_full_complete by done. cbn.
  rewrite <- H1, <- H2, <- H3.
  apply N.ltb_ge in B1, B2, B3. rewrite B1, B2, B3. cbn.
  eexists. split; [reflexivity|]. cbn.
  rewrite H1, H2, H3, format_groups by done. by rewrite H4.
Qed.

(** [clean] is idempotent on its results: a cleaned version is a version
    that cleans to itself. *)
Lemma clean_clean v c : clean v = Some c -> clean c = Some c.
Proof.
  unfold clean. destruct (parse _) as [sv|] eqn:E; [|done]. intros [= <-].
  pose proof E as E'. unfold parse in E'.
  apply new_SemVer_Some in E' as (m1 & m2 & m3 & m4 & Hg & Hv & _).
  apply parse_version in E as (sv' & E & Hv' & _).
  rewrite Hv at 1. rewrite version_text_trim, version_text_strip by done.
  rewrite <- Hv. by rewrite E, Hv'.
Qed.

Lemma clean_valid v c : clean v = Some c -> is_Some (parse c).
Proof.
  unfold clean. destruct (parse _) as [sv|] eqn:E; [|done]. intros [= <-].
  apply parse_version in E as (sv' & E & _). by eexists.
Qed.

(** *** The grammar on some inputs *)

Example parse_plain :
  version <$> parse (lit "1.2.3") = Some (lit "1.2.3").
Proof. reflexivity. Qed.

Example parse_prerelease_build :
  (fun sv => (major sv, minor sv, patch sv, prerelease sv, build sv, version sv))
    <$> parse (lit " v10.0.21-rc.1+exp.sha ")
  = Some (10, 0, 21, [IdStr (lit "rc"); IdNum 1], [lit "exp"; lit "sha"],
          lit "10.0.21-rc.1").
Proof. reflexivity. Qed.

Example parse_leading_zero : parse (lit "01.2.3") = None.
Proof. reflexivity. Qed.

Example parse_two_numbers : parse (lit "1.2") = None.
Proof. reflexivity. Qed.

Example parse_numeric_prerelease_leading_zero : parse (lit "1.2.3-01") = None.
Proof. reflexivity. Qed.

Example parse_empty_identifier : parse (lit "1.2.3-a..b") = None.
Proof. reflexivity. Qed.

Example clean_prefix_and_build :
  clean (lit "  =v1.2.3-rc.1+build.5  ") = Some (lit "1.2.3-rc.1").
Proof. reflexivity. Qed.

Example clean_trailing_text : clean (lit "1.2.3 extra") = None.
Proof. reflexivity. Qed.

End SemverFacts.

(** ** The supervisor and the connectivity monitor *)
Module LanguageServerFacts.
Import Js LanguageServer.

#[local] Arguments lit : simpl never.
#[local] Arguments numToString : simpl never.
#[local] Arguments N.mul : simpl never.

(** Runs the straight-line part of an operation. *)
Ltac run_op :=
  unfold startClient, stopClient, onDidChangeState, acquire, release, bind,
    call, void, read, do, ret, set_client, set_clientLock, set_running,
    set_initializedClient, set_emulatorConnected in *;
  cbn in *.

Lemma emulatorExists_probe env s : emulatorExists env s = (Done (probe env), s).
Proof. unfold emulatorExists, probe. by destruct (checkPortStatus env). Qed.

(** The state listener changes [running] and appends effects that are
    neither restarts nor client starts. *)
Lemma onDidChangeState_frame st s :
  exists r es,
    onDidChangeState st s =
      (Done tt,
       mkApi (client s) (clientLock s) r (initializedClient s)
         (emulatorConnected s) (accessCheckMode s) (flowCommand s)
         (effects s ++ es))
    /\ restarts es = [] /\ started_clients es = [].
Proof.
  destruct s as [c l r i e a f es0]. run_op.
  destruct i, st; cbn; rewrite <- ?app_assoc; cbn;
    eexists _, _; (split; [reflexivity | done]).
Qed.

Lemma deliver_frame states : forall s,
  exists r es,
    deliver states s =
      (Done tt,
       mkApi (client s) (clientLock s) r (initializedClient s)
         (emulatorConnected s) (accessCheckMode s) (flowCommand s)
         (effects s ++ es))
    /\ restarts es = [] /\ started_clients es = [].
Proof.
  induction states as [|st states IH]; intros s; simpl.
  - exists (running s), []. rewrite app_nil_r. by destruct s.
  - unfold bind. destruct (onDidChangeState_frame st s) as (r1 & es1 & -> & R1 & C1).
    destruct (IH (mkApi (client s) (clientLock s) r1 (initializedClient s)
      (emulatorConnected s) (accessCheckMode s) (flowCommand s)
      (effects s ++ es1))) as (r2 & es2 & -> & R2 & C2). simpl.
    exists r2, (es1 ++ es2). rewrite <- app_assoc. split; [done|].
    unfold restarts, started_clients in *. rewrite !omap_app.
    by rewrite R1, R2, C1, C2.
Qed.

(** [stopClient] with the mutex free: it returns, the mutex is free again,
    the handle is cleared, and it neither restarts nor starts a client. *)
Lemma stopClient_free env s :
  clientLock s = false ->
  exists r es,
    stopClient env s =
      (Done tt,
       mkApi None false r (initializedClient s)
         (emulatorConnected s) (accessCheckMode s) (flowCommand s)
         (effects s ++ es))
    /\ restarts es = [] /\ started_clients es = [].
Proof.
  destruct s as [c l r i e a f es0]. cbn. intros ->. run_op.
  destruct c as [cl|]; cbn.
  - match goal with |- context [deliver _ ?s0] =>
      destruct (deliver_frame (stop_states env) s0) as (r' & es & -> & R & C)
    end. cbn. destruct (stop env); cbn; rewrite <- !app_assoc;
      (eexists _, _; split; [reflexivity|]);
      unfold restarts, started_clients in *; cbn; by rewrite !omap_app, R, C.
  - eexists _, _. by split.
Qed.

(** [startClient] with the mutex free.  Whatever the collaborators answer,
    no restart is called and a client that is started carries the flag.
    When the configuration path and the settings are obtained, the call
    returns and the mutex is free again, also when the launch fails;
    when one of them throws, the call throws and the mutex stays held. *)
Lemma startClient_free enableFlow env s :
  clientLock s = false ->
  exists o s' es,
    startClient enableFlow env s = (o, s')
    /\ effects s' = effects s ++ es
    /\ emulatorConnected s' =
         match enableFlow with
         | Some _ => emulatorConnected s
         | None => probe env
         end
    /\ restarts es = []
    /\ Forall (fun c => last (args c) = Some (flag_argument (launch_flag enableFlow env)))
         (started_clients es)
    /\ (getConfigPath env <> Throw -> getWorkspaceSettings env <> Throw ->
        o = Done tt /\ clientLock s' = false)
    /\ (getConfigPath env = Throw \/ getWorkspaceSettings env = Throw ->
        o = Threw /\ clientLock s' = true).
Proof.
  destruct s as [c l r i e a f es0]. cbn. intros ->.
  assert (exists b, b = launch_flag enableFlow env) as [b Hb] by eauto.
  rewrite <- Hb.
  assert (forall k : bool -> Op unit,
    bind (match enableFlow with
          | Some b => ret b
          | None => let* found := emulatorExists env in
                    set_emulatorConnected found;; ret found
          end) k (mkApi c true r i e a f es0)
    = k b (mkApi c true r i
             (match enableFlow with Some _ => e | None => probe env end)
             a f es0)) as Hflag.
  { intros k. subst b. destruct enableFlow as [b|]; [done|].
    unfold bind. rewrite emulatorExists_probe. done. }
  unfold startClient, bind at 1, acquire. cbn -[bind]. rewrite Hflag.
  clear Hflag Hb. generalize (match enableFlow with Some _ => e | None => probe env end).
  clear e. intros e.
  run_op.
  destruct (getConfigPath env) as [configPath|]; cbn.
  2:{ eexists _, _, []. rewrite app_nil_r.
      repeat split; try done; try (intros [=]); by intros [|]. }
  destruct (getWorkspaceSettings env) as [settings|]; cbn.
  2:{ eexists _, _, []. rewrite app_nil_r.
      repeat split; try done; try (intros [=]); by intros [|]. }
  set (cl := mkLanguageClient _ _ _ _ _).
  assert (last (args cl) = Some (flag_argument b)) as Hcl by done.
  clearbody cl.
  destruct (bool_decide (f = lit "flow")); cbn;
    match goal with |- context [deliver _ ?s0] =>
      destruct (deliver_frame (start_states env) s0) as (r' & es & -> & R & C)
    end; cbn;
    destruct (start env); cbn; destruct b; cbn;
      rewrite <- ?app_assoc; cbn;
      eexists _, _, _; (split; [reflexivity|]); cbn;
      (split; [reflexivity|]);
      unfold restarts, started_clients in *; cbn;
      rewrite ?omap_app, ?R, ?C; cbn;
      repeat split; try done; try (by repeat constructor);
      match goal with H : _ \/ _ |- _ => by destruct H end.
Qed.

(** [restart] with the mutex free: one restart is recorded, the flag of
    the monitor is untouched, and the call returns whatever the two
    operations do. *)
Lemma restart_free b env s :
  clientLock s = false ->
  exists s' es,
    restart b env s = (Done tt, s')
    /\ effects s' = effects s ++ es
    /\ emulatorConnected s' = emulatorConnected s
    /\ restarts es = [b]
    /\ Forall (fun c => last (args c) = Some (flag_argument b)) (started_clients es).
Proof.
  intros Hl. unfold restart, bind at 1, do. cbn -[bind void].
  set (s1 := mkApi _ _ _ _ _ _ _ _).
  assert (clientLock s1 = false) as Hl1 by done.
  destruct (stopClient_free env s1 Hl1) as (r1 & es1 & E1 & R1 & C1).
  unfold bind, void at 1. rewrite E1.
  set (s2 := mkApi _ _ _ _ _ _ _ _).
  destruct (startClient_free (Some b) env s2 eq_refl)
    as (o & s3 & es3 & E3 & F3 & Hc & R3 & C3 & Hok & Hko).
  assert (void (startClient (Some b) env) s2 = (Done tt, s3)) as ->.
  { unfold void. rewrite E3. destruct o; try done.
    destruct (getConfigPath env) eqn:G, (getWorkspaceSettings env) eqn:W;
      (destruct Hko as [[=] _]; by eauto) || (destruct Hok as [[=] _]; done). }
  exists s3, ([Restart b] ++ es1 ++ es3). rewrite F3. subst s2 s1. cbn.
  repeat split.
  - by rewrite <- !app_assoc.
  - by rewrite Hc.
  - unfold restarts in *. cbn. by rewrite omap_app, R1, R3.
  - unfold started_clients in *. cbn. by rewrite omap_app, C1.
Qed.

(** One tick that gets the mutex. *)
Lemma tick_free env s :
  clientLock s = false ->
  exists s' es,
    tick env s = (Done tt, s')
    /\ effects s' = effects s ++ es
    /\ emulatorConnected s' = probe env
    /\ restarts es =
         (if bool_decide (emulatorConnected s = probe env) then []
          else [probe env])
    /\ Forall (fun c => last (args c) = Some (flag_argument (probe env)))
         (started_clients es).
Proof.
  intros Hl. destruct s as [c l r i e a f es0]. cbn in Hl. subst l.
  unfold tick, bind at 1, acquire. cbn -[bind].
  unfold bind at 1. rewrite emulatorExists_probe.
  unfold bind at 1, read. cbn -[bind].
  case_bool_decide as Hp.
  - subst e. eexists _, []. rewrite app_nil_r. by repeat split.
  - unfold bind at 1, set_emulatorConnected. cbn -[bind].
    unfold bind at 1, release, set_clientLock. cbn -[bind].
    set (s1 := mkApi _ _ _ _ _ _ _ _).
    destruct (restart_free (probe env) env s1 eq_refl)
      as (s' & es & -> & F & Hc & R & C).
    exists s', es. by repeat split.
Qed.

(** A tick that finds the mutex held waits and changes nothing. *)
Lemma tick_held env s : clientLock s = true -> tick env s = (Blocked, s).
Proof. intros Hl. unfold tick, bind, acquire. by rewrite Hl. Qed.

(** C1, at an input where the code departs from it.  [startClient] is called
    with the mutex free and [Config.getConfigPath()] rejects: the call
    throws and the mutex it acquired at entry is still held. *)
Theorem startClient_exception_keeps_lock :
  let settings := mkSettings 3 (lit "strict") (lit "flow") in
  let env :=
    mkEnv (Normal (lit "open")) Throw (Normal settings) (Normal tt)
      [Starting; Running] (Normal tt) [Stopped] in
  clientLock (init settings) = false
  /\ (startClient None env (init settings)).1 = Threw
  /\ clientLock (startClient None env (init settings)).2 = true.
Proof. by vm_compute. Qed.

(** C3.  A tick that gets the mutex records the reading of the port scan
    as the new state.  When the reading differs from the state known
    before, the tick calls [restart] once, with the reading as flag, and
    every client started on the way is launched with that flag; when it is
    the same, the tick calls no restart.  In particular, a reading of
    [true] after a state of [false] gives one restart with flag [true], and
    a further tick that reads [true] adds none. *)
Theorem tick_restarts_on_transition_only (env : Env) (s : LanguageServerAPI) :
  clientLock s = false ->
  exists s' es,
    tick env s = (Done tt, s')
    /\ effects s' = effects s ++ es
    /\ emulatorConnected s' = probe env
    /\ restarts es =
         (if bool_decide (emulatorConnected s = probe env) then []
          else [probe env])
    /\ Forall (fun c => last (args c) = Some (flag_argument (probe env)))
         (started_clients es)
    /\ (emulatorConnected s = false -> probe env = true ->
        restarts es = [true]
        /\ forall env2, probe env2 = true ->
             restarts (effects (tick env2 s').2) = restarts (effects s') ).
Proof.
  intros Hl. destruct (tick_free env s Hl) as (s' & es & E & F & Hc & R & C).
  exists s', es. repeat split; try done.
  - rewrite R, H, H0. done.
  - intros env2 Hp2. destruct (clientLock s') eqn:Hl'.
    + by rewrite tick_held.
    + destruct (tick_free env2 s' Hl') as (s2 & es2 & -> & F2 & _ & R2 & _).
      cbn. rewrite F2. unfold restarts in *. rewrite omap_app, R2.
      rewrite Hc, Hp2, H0. rewrite bool_decide_eq_true_2 by done.
      by rewrite app_nil_r.
Qed.

(** A witness of C3: the supervisor as constructed, no emulator known, and
    a port scan that answers [open]. *)
Lemma tick_restarts_on_transition_only_witness :
  let settings := mkSettings 3 (lit "strict") (lit "flow") in
  let env :=
    mkEnv (Normal (lit "open")) (Normal (lit "flow.json")) (Normal settings)
      (Normal tt) [Starting; Running] (Normal tt) [Stopped] in
  exists s' es,
    tick env (init settings) = (Done tt, s')
    /\ restarts es = [true]
    /\ restarts (effects (tick env s').2) = restarts (effects s').
Proof.
  intros settings env.
  destruct (tick_restarts_on_transition_only env (init settings) eq_refl)
    as (s' & es & E & _ & _ & _ & _ & H).
  destruct (H eq_refl eq_refl) as [R N].
  exists s', es. split; [exact E|]. split; [exact R|].
  apply N. reflexivity.
Defined.

(** C4, as the code has it: [watchEmulator] arms the timer with a delay of
    3000 milliseconds, that is, three seconds. *)
Theorem watchEmulator_interval (s : LanguageServerAPI) :
  (watchEmulator s).1 = Done tt
  /\ effects (watchEmulator s).2 = effects s ++ [SetInterval 3000].
Proof. by destruct s. Qed.

(** C4 as stated fails: the delay is not 1000 milliseconds. *)
Lemma watchEmulator_interval_not_one_second :
  effects (watchEmulator (init (mkSettings 3 (lit "strict") (lit "flow")))).2
  <> [SetInterval 1000].
Proof. by vm_compute. Qed.

End LanguageServerFacts.

(** ** The reactive value cache *)
Module StateCacheFacts.
Import Js StateCache.

Section Entry.
Context {T C : Type}.
Implicit Type e : CacheEntry T C.

Lemma consistent_new : consistent (new : CacheEntry T C).
Proof. by repeat split. Qed.

Lemma consistent_step ev e : consistent e -> consistent (step ev e).
Proof.
  destruct e as [v f i o subs r st nt]. unfold consistent. cbn.
  intros (-> & Ho & Hf).
  destruct ev as [| |c| |[x|]]; cbn; unfold getValue, settle; cbn;
    destruct f, i, o; cbn; repeat split; try done;
    try (by (discriminate (Ho eq_refl))); try (by (discriminate (Hf eq_refl))).
Qed.

Lemma consistent_run_events evs : forall e,
  consistent e -> consistent (run_events evs e).
Proof.
  induction evs as [|ev evs IH]; intros e He; [done|].
  cbn. apply IH. by apply consistent_step.
Qed.

(** Invalidations while a fetch runs leave the fetch alone and leave one
    recomputation owed. *)
Lemma invalidate_n_inflight n e :
  inflight e = true -> (1 <= n)%nat ->
  invalidate_n n e =
    mkCacheEntry (value e) false true true (subscribers e) (running e)
      (started e) (notified e).
Proof.
  intros Hi Hn. destruct n as [|n]; [lia|]. clear Hn.
  induction n as [|n IH].
  - cbn. unfold invalidate. by rewrite Hi, orb_true_r.
  - change (invalidate_n (S (S n)) e) with (invalidate (invalidate_n (S n) e)).
    by rewrite IH.
Qed.

(** Calls while a fetch runs begin no fetch; one recomputation is owed
    afterwards when [invalidate] was among them. *)
Lemma calls_inflight calls : forall e,
  inflight e = true -> forallb is_call calls = true ->
  inflight (run_events calls e) = true
  /\ running (run_events calls e) = running e
  /\ started (run_events calls e) = started e
  /\ (owed e = true \/ (1 <= invalidations calls)%nat ->
      owed (run_events calls e) = true).
Proof.
  induction calls as [|ev calls IH]; intros e Hi Hc.
  - cbn. repeat split; try done. intros [H|H]; [done | lia].
  - cbn in Hc. apply andb_true_iff in Hc as [Hev Hc].
    change (run_events (ev :: calls) e) with (run_events calls (step ev e)).
    assert (inflight (step ev e) = true /\ running (step ev e) = running e
            /\ started (step ev e) = started e
            /\ (ev = Invalidate -> owed (step ev e) = true)
            /\ (owed e = true -> owed (step ev e) = true)) as (Hi' & Hr & Hs & Ho & Hk).
    { destruct ev; try done; cbn; unfold getValue; cbn.
      - rewrite Hi. by destruct (fresh e).
      - rewrite Hi. repeat split; try done. by rewrite orb_true_r.
        intros ->. done. }
    destruct (IH (step ev e) Hi' Hc) as (H1 & H2 & H3 & H4).
    repeat split; [done | congruence | congruence |].
    intros [Hn|Hn]; apply H4; [by left; apply Hk|].
    destruct ev; cbn in Hn; try (by right); left; by apply Ho.
Qed.

(** What the settlement of a fetch does when a recomputation is owed: one
    fetch begins, and its own settlement begins none. *)
Lemma settle_owed e r r' :
  inflight e = true -> owed e = true -> running e = 1%nat ->
  started (settle r e) = S (started e)
  /\ running (settle r e) = 1%nat
  /\ started (settle r' (settle r e)) = S (started e)
  /\ running (settle r' (settle r e)) = 0%nat.
Proof.
  intros Hi Ho Hr.
  assert (settle r e =
    begin_fetch
      match r with
      | Normal v =>
          mkCacheEntry (Some v) false false false (subscribers e)
            (pred (running e)) (started e) (notified e ++ subscribers e)
      | Throw =>
          mkCacheEntry (value e) false false false (subscribers e)
            (pred (running e)) (started e) (notified e)
      end) as ->.
  { unfold settle. by rewrite Hi, Ho. }
  by destruct r, r'; cbn; rewrite Hr.
Qed.

(** C2.  Through any history of calls and settlements of a cache entry, at
    most one fetch is outstanding.  When a fetch is outstanding and
    [invalidate] is called [n >= 1] times before it settles, the settlement
    begins one fetch, so that one more fetch has begun than before and one
    is outstanding; and when that fetch settles in turn, no further fetch
    begins.  The same holds when other calls ([getValue], [subscribe],
    [dispose]) come between the calls of [invalidate]. *)
Theorem one_fetch_and_one_follow_up
    (history calls : list (@event T C)) (n : nat) (r r' : completion T) :
  let e := run_events history new in
  (running e <= 1)%nat
  /\ (running e = 1%nat -> (1 <= n)%nat ->
      let e1 := settle r (invalidate_n n e) in
      started e1 = S (started e)
      /\ running e1 = 1%nat
      /\ started (settle r' e1) = S (started e)
      /\ running (settle r' e1) = 0%nat)
  /\ (running e = 1%nat -> forallb is_call calls = true ->
      (1 <= invalidations calls)%nat ->
      let e1 := settle r (run_events calls e) in
      started e1 = S (started e)
      /\ running e1 = 1%nat
      /\ started (settle r' e1) = S (started e)
      /\ running (settle r' e1) = 0%nat).
Proof.
  intros e.
  assert (consistent e) as (Hr & Ho & Hf)
    by (apply consistent_run_events, consistent_new).
  assert (running e = 1%nat -> inflight e = true) as Hin.
  { rewrite Hr. by destruct (inflight e). }
  split; [|split].
  - rewrite Hr. destruct (inflight e); lia.
  - intros H1 Hn. cbn zeta. rewrite invalidate_n_inflight by auto.
    set (e' := mkCacheEntry _ _ _ _ _ _ _ _).
    change (started e) with (started e'). by apply settle_owed.
  - intros H1 Hc Hn. cbn zeta.
    destruct (calls_inflight calls e (Hin H1) Hc) as (Hi' & Hr' & Hs' & Ho').
    rewrite <- Hs'. apply settle_owed; [done | by apply Ho'; right | congruence].
Qed.

End Entry.

(** A witness of C2: a [getValue] on a new entry has begun a fetch, and
    [invalidate] is called three times before the fetch settles, once with a
    [getValue] in between. *)
Lemma one_fetch_and_one_follow_up_witness :
  let e : CacheEntry nat unit := run_events [GetValue] new in
  let e1 := settle (Normal 7%nat) (invalidate_n 3 e) in
  let e2 :=
    settle (Normal 7%nat)
      (run_events [Invalidate; GetValue; Invalidate; Invalidate] e) in
  (running e <= 1)%nat
  /\ (started e1 = S (started e)
      /\ running e1 = 1%nat
      /\ started (settle (Normal 8%nat) e1) = S (started e)
      /\ running (settle (Normal 8%nat) e1) = 0%nat)
  /\ (started e2 = S (started e)
      /\ running e2 = 1%nat
      /\ started (settle (Normal 8%nat) e2) = S (started e)
      /\ running (settle (Normal 8%nat) e2) = 0%nat).
Proof.
  intros e e1 e2.
  destruct (one_fetch_and_one_follow_up (T := nat) (C := unit)
              [GetValue] [Invalidate; GetValue; Invalidate; Invalidate] 3
              (Normal 7%nat) (Normal 8%nat)) as (H1 & H2 & H3).
  split; [exact H1|]. split.
  - apply H2; [reflexivity | lia].
  - apply H3; [reflexivity | reflexivity | simpl; lia].
Defined.

End StateCacheFacts.

(** ** The version registry and the resolution of a binary *)
Module CliVersionsFacts.
Import Js RegExp CliVersions.

#[local] Arguments lit : simpl never.

Lemma elem_of_Object_keys (m : gmap jsstring LeafCache) (bin : jsstring) :
  bin ∈ Object_keys m <-> is_Some (m !! bin).
Proof.
  unfold Object_keys. rewrite list_elem_of_fmap. split.
  - intros ([k v] & -> & H). apply elem_of_map_to_list in H. by eexists.
  - intros [v H]. exists (bin, v). split; [done|]. by apply elem_of_map_to_list.
Qed.

(** Promises that cannot be rejected are all fulfilled. *)
Lemma Promise_all_caught {A B : Type} (f : A -> completion B) (d : B) (l : list A) :
  Promise_all (map (fun a => catch_value (f a) d) l)
  = Normal (map (fun a => match f a with Normal b => b | Throw => d end) l).
Proof.
  induction l as [|a l IH]; [done|]. cbn. rewrite IH. by destruct (f a).
Qed.

(** The fetcher of the root cache is never rejected, and keeps the values
    of the resolutions that succeeded with one. *)
Lemma rootFetcher_eq leafValue p :
  rootFetcher leafValue p
  = Normal (omap (fun bin => resolved (leafValue bin)) (Object_keys (caches p))).
Proof.
  unfold rootFetcher. rewrite Promise_all_caught. f_equal.
  induction (Object_keys (caches p)) as [|bin l IH]; [done|].
  cbn. rewrite IH. by destruct (leafValue bin) as [[b|]|].
Qed.

(** C7.  With the registry constructed, [getVersions] is never rejected,
    whatever the resolutions of the leaf caches do.  The list the root
    fetcher computes, which is what [getVersions] answers when the root
    cache is stale, holds the value of each registered binary whose
    resolution succeeded with a value, and nothing else: a resolution that
    failed or gave no value contributes nothing.  Once a stale and idle root
    cache has run its fetcher, [getVersions] answers with the list that was
    computed. *)
Theorem getVersions_excludes_failures
    (leafValue : jsstring -> completion (option CliBinary))
    (p : CliVersionsProvider) (root : RootCache) :
  rootCache p = Some root ->
  (exists binaries, getVersions leafValue p = Normal binaries)
  /\ rootFetcher leafValue p
     = Normal (omap (fun bin => resolved (leafValue bin)) (Object_keys (caches p)))
  /\ (StateCache.fresh root = false ->
      getVersions leafValue p = rootFetcher leafValue p)
  /\ (forall b,
       b ∈ omap (fun bin => resolved (leafValue bin)) (Object_keys (caches p))
       <-> exists bin, is_Some (caches p !! bin) /\ leafValue bin = Normal (Some b))
  /\ (StateCache.fresh root = false -> StateCache.inflight root = false ->
      StateCache.owed root = false ->
      forall leafValue',
        getVersions leafValue'
          (root_step (StateCache.Settle (rootFetcher leafValue p))
             (root_step StateCache.GetValue p))
        = rootFetcher leafValue p).
Proof.
  intros Hroot. repeat split.
  - unfold getVersions. rewrite Hroot, rootFetcher_eq.
    destruct (StateCache.fresh root), (StateCache.value root); by eexists.
  - apply rootFetcher_eq.
  - intros Hf. unfold getVersions. by rewrite Hroot, Hf.
  - rewrite list_elem_of_omap. intros (bin & Hin & Hres).
    exists bin. split; [by apply elem_of_Object_keys|].
    by destruct (leafValue bin) as [[b'|]|]; simplify_eq/=.
  - intros (bin & Hin & Hres). rewrite list_elem_of_omap.
    exists bin. split; [by apply elem_of_Object_keys|]. by rewrite Hres.
  - intros Hf Hi Ho leafValue'. rewrite rootFetcher_eq.
    unfold getVersions, root_step. cbn. rewrite Hroot. cbn.
    unfold StateCache.getValue. rewrite Hf, Hi.
    unfold StateCache.settle. cbn. by rewrite Ho.
Qed.

(** A witness of C7: two registered binaries, of which [flow] fails to
    resolve and the other resolves to version 2.0.1. *)
Lemma getVersions_excludes_failures_witness :
  let p := constructor [lit "flow-c1"] in
  let leafValue := fun bin : jsstring =>
    if bool_decide (bin = lit "flow") then Throw
    else Normal (cliBinaryFromVersion bin (VString (lit "2.0.1"))) in
  (exists binaries, getVersions leafValue p = Normal binaries)
  /\ getVersions leafValue p = rootFetcher leafValue p
  /\ (forall b,
       b ∈ omap (fun bin => resolved (leafValue bin)) (Object_keys (caches p))
       <-> exists bin, is_Some (caches p !! bin) /\ leafValue bin = Normal (Some b))
  /\ getVersions (fun _ => Throw)
       (root_step (StateCache.Settle (rootFetcher leafValue p))
          (root_step StateCache.GetValue p))
     = rootFetcher leafValue p.
Proof.
  intros p leafValue.
  destruct (getVersions_excludes_failures leafValue p StateCache.new eq_refl)
    as (H1 & _ & H3 & H4 & H5).
  split; [exact H1|]. split; [exact (H3 eq_refl)|]. split; [exact H4|].
  exact (H5 eq_refl eq_refl eq_refl (fun _ => Throw)).
Defined.

(** An own entry makes the lookup [this.#caches[command]] non-null. *)
Lemma non_null_own (m : gmap jsstring LeafCache) (command : jsstring) :
  is_Some (m !! command) -> non_null m command = true.
Proof. intros H. unfold non_null. by rewrite bool_decide_eq_true_2. Qed.

Lemma non_null_false (m : gmap jsstring LeafCache) (command : jsstring) :
  non_null m command = false -> m !! command = None.
Proof.
  unfold non_null. intros [H _]%orb_false_iff.
  apply bool_decide_eq_false in H. by apply eq_None_not_Some.
Qed.

(** C9.  [add] is idempotent.  When [name] has an entry, [add name] returns
    the registry as it is: the same entries with the same subscribers, and
    the same root cache, not invalidated.  For every registry, adding
    [name] twice gives what adding it once gives. *)
Theorem add_idempotent (name : jsstring) (p : CliVersionsProvider) :
  (is_Some (caches p !! name) -> add name p = p)
  /\ add name (add name p) = add name p.
Proof.
  split.
  - intros H. unfold add. by rewrite non_null_own.
  - destruct (non_null (caches p) name) eqn:E.
    + assert (add name p = p) as Hp by (unfold add; by rewrite E).
      by rewrite !Hp.
    + assert (add name p =
        mkProvider
          (<[name := StateCache.subscribe InvalidateRoot StateCache.new]> (caches p))
          (StateCache.invalidate <$> rootCache p)) as ->
        by (unfold add; by rewrite E).
      unfold add. cbn. rewrite non_null_own; [done|].
      rewrite lookup_insert_eq. by eexists.
Qed.

(** A witness of C9: [flow] is registered by the constructor. *)
Lemma add_idempotent_witness :
  add (lit "flow") (constructor []) = constructor []
  /\ add (lit "flow") (add (lit "flow") (constructor []))
     = add (lit "flow") (constructor []).
Proof.
  destruct (add_idempotent (lit "flow") (constructor [])) as [H1 H2].
  split; [|exact H2]. apply H1. vm_compute. eexists. reflexivity.
Defined.

(** C8, as the code has it.  [remove name] returns the registry as it is
    when [name] is a known name and when the lookup of [name] finds nothing.
    When [name] is not a known name and has an entry, whatever the state of
    that entry, [remove name] deletes the entry and invalidates the root
    cache; [name] is no longer among the names the root fetcher goes
    through, the other names are as before, and what [name] would resolve
    to has no influence on the list computed. *)
Theorem remove_discards_registered (name : jsstring) (p : CliVersionsProvider) :
  (name ∈ KNOWN_FLOW_COMMANDS \/ non_null (caches p) name = false ->
   remove name p = p)
  /\ (name ∉ KNOWN_FLOW_COMMANDS -> is_Some (caches p !! name) ->
      caches (remove name p) = delete name (caches p)
      /\ rootCache (remove name p) = StateCache.invalidate <$> rootCache p
      /\ (name ∉ Object_keys (caches (remove name p)))
      /\ (forall bin, bin <> name ->
            (bin ∈ Object_keys (caches (remove name p))
             <-> bin ∈ Object_keys (caches p)))
      /\ (forall leafValue leafValue',
            (forall bin, bin <> name -> leafValue bin = leafValue' bin) ->
            rootFetcher leafValue (remove name p)
            = rootFetcher leafValue' (remove name p))).
Proof.
  split.
  - intros [H|H]; unfold remove.
    + by rewrite (bool_decide_eq_true_2 _ H), orb_true_r.
    + by rewrite H.
  - intros Hk Hown. unfold remove.
    rewrite (non_null_own _ _ Hown), (bool_decide_eq_false_2 _ Hk). cbn.
    assert (name ∉ Object_keys (delete name (caches p))) as Hnot.
    { rewrite elem_of_Object_keys, lookup_delete_eq. by intros [? [=]]. }
    repeat split; try done.
    + rewrite !elem_of_Object_keys, lookup_delete_ne; done.
    + rewrite !elem_of_Object_keys, lookup_delete_ne; done.
    + intros leafValue leafValue' Hagree. rewrite !rootFetcher_eq. cbn.
      f_equal. revert Hnot. generalize (Object_keys (delete name (caches p))).
      intros l. induction l as [|bin l IH]; [done|].
      intros [Hne Hl]%not_elem_of_cons. cbn.
      rewrite (Hagree bin) by done. by rewrite IH.
Qed.

(** A witness of C8: a binary added to the registry and never resolved. *)
Lemma remove_discards_registered_witness :
  let name := lit "flow-nightly" in
  let p := add name (constructor []) in
  remove (lit "flow") p = p
  /\ caches (remove name p) = delete name (caches p)
  /\ rootCache (remove name p) = StateCache.invalidate <$> rootCache p
  /\ (name ∉ Object_keys (caches (remove name p))).
Proof.
  intros name p.
  destruct (remove_discards_registered (lit "flow") p) as [H1 _].
  destruct (remove_discards_registered name p) as [_ H2].
  split.
  - apply H1. left. apply (bool_decide_unpack _). by vm_compute.
  - destruct H2 as (Ha & Hb & Hc & _).
    + apply (bool_decide_unpack _). by vm_compute.
    + vm_compute. eexists. reflexivity.
    + split; [exact Ha|]. split; [exact Hb | exact Hc].
Defined.

(** C8 as stated fails for a name that is neither known nor registered:
    [remove] returns at its guard and the root cache, fresh before, is
    fresh after, where the claim has it invalidated. *)
Lemma remove_unregistered_keeps_root_fresh :
  let name := lit "flow-nightly" in
  let p :=
    root_step (StateCache.Settle (Normal []))
      (root_step StateCache.GetValue (constructor [])) in
  (name ∉ KNOWN_FLOW_COMMANDS)
  /\ StateCache.fresh <$> rootCache p = Some true
  /\ StateCache.fresh <$> rootCache (remove name p) = Some true
  /\ rootCache (remove name p) <> StateCache.invalidate <$> rootCache p.
Proof.
  intros name p. split.
  - apply (bool_decide_unpack _). by vm_compute.
  - by vm_compute.
Qed.

(** What [parseFlowCliVersion] returns is a semantic version. *)
Lemma parseFlowCliVersion_parsed buffer v :
  parseFlowCliVersion buffer = Some v -> is_Some (Semver.parse v).
Proof.
  unfold parseFlowCliVersion.
  destruct (exec LEGACY_VERSION_REGEXP buffer) as [[token|]|]; try done.
  apply SemverFacts.clean_valid.
Qed.

(** C5.  [parseFlowCliVersion] maps the text [Version: v1.2.3] followed by
    a line feed to [1.2.3], and yields no value for every input in which the
    pattern matches nowhere. *)
Theorem parseFlowCliVersion_extracts :
  parseFlowCliVersion (lit "Version: v1.2.3" ++ [10]) = Some (lit "1.2.3")
  /\ forall buffer : jsstring,
       ~ occurs LEGACY_VERSION_REGEXP buffer ->
       parseFlowCliVersion buffer = None.
Proof.
  split; [by vm_compute|]. intros buffer H.
  apply RegExpFacts.exec_None in H. unfold parseFlowCliVersion. by rewrite H.
Qed.

(** A witness of C5: the shell's answer for a missing command has no match. *)
Lemma parseFlowCliVersion_extracts_witness :
  parseFlowCliVersion (lit "flow: command not found") = None.
Proof.
  apply parseFlowCliVersion_extracts.
  apply RegExpFacts.exec_None. vm_compute. reflexivity.
Defined.

(** C10.  The result of [parseFlowCliVersion] is [semver.clean] of the
    matched token: no value when the token does not clean to a semantic
    version, and otherwise a string that is a semantic version and cleans to
    itself.  The token as matched is the result only when it is such a
    string already. *)
Theorem parseFlowCliVersion_clean_or_null (buffer : jsstring) :
  (forall token,
     exec LEGACY_VERSION_REGEXP buffer = Some (Some token) ->
     parseFlowCliVersion buffer = Semver.clean token
     /\ (Semver.clean token = None -> parseFlowCliVersion buffer = None)
     /\ (parseFlowCliVersion buffer = Some token ->
         Semver.clean token = Some token))
  /\ (forall v,
       parseFlowCliVersion buffer = Some v ->
       (exists token,
          exec LEGACY_VERSION_REGEXP buffer = Some (Some token)
          /\ legacy_scan buffer = Some token
          /\ Semver.clean token = Some v)
       /\ is_Some (Semver.parse v)
       /\ Semver.clean v = Some v).
Proof.
  unfold parseFlowCliVersion. split.
  - intros token ->. repeat split; [by intros ->|]. by intros ->.
  - intros v. pose proof (RegExpFacts.exec_legacy buffer) as Hs.
    destruct (exec LEGACY_VERSION_REGEXP buffer) as [[token|]|]; try done.
    intros Hc. repeat split.
    + exists token. repeat split; [|done].
      destruct (legacy_scan buffer); by simplify_eq.
    + by eapply SemverFacts.clean_valid.
    + by eapply SemverFacts.clean_clean.
Qed.

(** A witness of C10: the tokens [v1.2.3+build], cleaned to [1.2.3], and
    [garbage], which gives no value. *)
Lemma parseFlowCliVersion_clean_or_null_witness :
  (parseFlowCliVersion (lit "Version: vv1.2.3+build" ++ [10]) = Some (lit "1.2.3")
   /\ Semver.clean (lit "1.2.3") = Some (lit "1.2.3")
   /\ is_Some (Semver.parse (lit "1.2.3")))
  /\ parseFlowCliVersion (lit "Version: vgarbage" ++ [10]) = None.
Proof.
  split.
  - destruct (parseFlowCliVersion_clean_or_null (lit "Version: vv1.2.3+build" ++ [10]))
      as [_ H].
    destruct (H (lit "1.2.3")) as (_ & Hv & Hc); [reflexivity|].
    split; [reflexivity|]. split; [exact Hc | exact Hv].
  - destruct (parseFlowCliVersion_clean_or_null (lit "Version: vgarbage" ++ [10]))
      as [H _].
    destruct (H (lit "garbage")) as (_ & Hn & _); [reflexivity|].
    apply Hn. reflexivity.
Defined.

(** In the plain-text resolution a token that was found always gives a
    binary: [parseFlowCliVersion] has checked it. *)
Lemma token_of_binary bin output token :
  token_of output = Some token ->
  is_Some (cliBinaryFromVersion bin (VString token)).
Proof.
  unfold token_of, cliBinaryFromVersion. intros H.
  assert (exists buffer, parseFlowCliVersion buffer = Some token) as [buffer Hb].
  { destruct (parseFlowCliVersion (stdout output)) eqn:E; [|by eauto].
    injection H as ->. eauto. }
  destruct (parseFlowCliVersion_parsed buffer token Hb) as [sv ->]. by eexists.
Qed.

(** The plain-text resolution never throws: it runs the plain query and
    answers with the binary of the token, or with no value. *)
Lemma fetchBinaryInformationOld_eq shell bin log :
  fetchBinaryInformationOld shell bin log
  = (Normal
       match shell (CHECK_FLOW_CLI_CMD_NO_JSON bin) with
       | Throw => None
       | Normal output =>
           match token_of output with
           | None => None
           | Some token => cliBinaryFromVersion bin (VString token)
           end
       end,
     log ++ [CHECK_FLOW_CLI_CMD_NO_JSON bin]).
Proof.
  unfold fetchBinaryInformationOld, try_catch, Sh_bind, execDefault, token_of, Sh_ret.
  destruct (shell _) as [output|]; [|done].
  by destruct (parseFlowCliVersion (stdout output)),
       (parseFlowCliVersion (stderr output)).
Qed.

Lemma cliBinaryFromVersion_command bin v b :
  cliBinaryFromVersion bin v = Some b -> command b = bin.
Proof.
  unfold cliBinaryFromVersion. destruct v; try done.
  destruct (Semver.parse s); [|done]. by intros [= <-].
Qed.

(** [parseFlowCliVersion] is [semver.clean] of the raw match. *)
Lemma parseFlowCliVersion_rawMatch buffer :
  parseFlowCliVersion buffer = rawMatch buffer ≫= Semver.clean.
Proof.
  unfold parseFlowCliVersion, rawMatch.
  by destruct (RegExp.exec LEGACY_VERSION_REGEXP buffer) as [[m1|]|].
Qed.

(** C6, as the code has it.  The resolution of [bin] starts from an empty
    list of executed commands.  It never throws, and the first command it
    runs is the structured query.  It falls back to the plain query
    exactly when the structured query fails, when its output is not JSON,
    and when reading [version] of the parsed value throws (the value is
    [null]).  In the fallback the version is [semver.clean] of the raw
    match of standard output, or, when standard output has no match or its
    match does not clean to a version, [semver.clean] of the raw match of
    error output; the result is the binary of that version, and it is no
    value exactly when the plain query fails or neither output gives a
    version.  When the structured output parses to a value whose [version]
    can be read, the plain query is not run and the result is the binary
    of that [version]: no value exactly when it is not a string that is a
    semantic version.  A binary that is returned carries the name [bin]. *)
Theorem fetchBinaryInformation_resolution
    (shell : jsstring -> completion ExecOutput)
    (JSON_parse : jsstring -> completion value) (bin : jsstring) :
  let structured := CHECK_FLOW_CLI_CMD bin in
  let plain := CHECK_FLOW_CLI_CMD_NO_JSON bin in
  let run := fetchBinaryInformation shell JSON_parse bin [] in
  let version_of := fun buffer : jsstring => rawMatch buffer ≫= Semver.clean in
  let falls_back :=
    shell structured = Throw
    \/ exists output,
         shell structured = Normal output
         /\ (JSON_parse (stdout output) = Throw
             \/ exists versionInfo,
                  JSON_parse (stdout output) = Normal versionInfo
                  /\ get_version versionInfo = Throw) in
  (exists result, run.1 = Normal result)
  /\ head run.2 = Some structured
  /\ (run.2 = [structured; plain] <-> falls_back)
  /\ (run.2 = [structured] <-> ~ falls_back)
  /\ (falls_back ->
      run.1 =
        Normal
          match shell plain with
          | Throw => None
          | Normal output =>
              match version_of (stdout output) with
              | Some v => cliBinaryFromVersion bin (VString v)
              | None =>
                  match version_of (stderr output) with
                  | Some v => cliBinaryFromVersion bin (VString v)
                  | None => None
                  end
              end
          end
      /\ (run.1 = Normal None
          <-> shell plain = Throw
              \/ exists output,
                   shell plain = Normal output
                   /\ version_of (stdout output) = None
                   /\ version_of (stderr output) = None))
  /\ (forall output versionInfo version,
        shell structured = Normal output ->
        JSON_parse (stdout output) = Normal versionInfo ->
        get_version versionInfo = Normal version ->
        run = (Normal (cliBinaryFromVersion bin version), [structured])
        /\ (run.1 = Normal None
            <-> forall s, version = VString s -> Semver.parse s = None))
  /\ (forall b, run.1 = Normal (Some b) -> command b = bin).
Proof.
  intros structured plain run version_of falls_back.
  assert (run =
    match shell structured with
    | Throw => fetchBinaryInformationOld shell bin [structured]
    | Normal output =>
        match JSON_parse (stdout output) with
        | Throw => fetchBinaryInformationOld shell bin [structured]
        | Normal versionInfo =>
            match get_version versionInfo with
            | Throw => fetchBinaryInformationOld shell bin [structured]
            | Normal version =>
                (Normal (cliBinaryFromVersion bin version), [structured])
            end
        end
    end) as Hrun.
  { subst run. unfold fetchBinaryInformation, try_catch, Sh_bind, execDefault, lift, Sh_ret.
    cbn. fold structured. destruct (shell structured) as [output|]; [|done].
    destruct (JSON_parse (stdout output)) as [versionInfo|]; [|done].
    by destruct (get_version versionInfo). }
  rewrite !fetchBinaryInformationOld_eq in Hrun. fold plain in Hrun.
  set (old :=
    match shell plain with
    | Throw => None
    | Normal output =>
        match token_of output with
        | None => None
        | Some token => cliBinaryFromVersion bin (VString token)
        end
    end) in Hrun.
  assert (falls_back -> run = (Normal old, [structured; plain])) as Hfb.
  { rewrite Hrun.
    intros [->|(output & -> & [->|(versionInfo & -> & ->)])]; done. }
  assert (~ falls_back -> exists version, run = (Normal (cliBinaryFromVersion bin version), [structured]))
    as Hnfb.
  { rewrite Hrun. intros Hn.
    destruct (shell structured) as [output|] eqn:E1; [|by destruct Hn; left].
    destruct (JSON_parse (stdout output)) as [versionInfo|] eqn:E2;
      [|destruct Hn; right; by eauto].
    destruct (get_version versionInfo) as [version|] eqn:E3;
      [by eexists|]. destruct Hn. right. exists output. split; [done|].
    right. by eauto. }
  assert (forall o, old = Some o -> command o = bin) as Hold.
  { intros o. unfold old. destruct (shell plain) as [output|]; [|done].
    destruct (token_of output); [|done]. apply cliBinaryFromVersion_command. }
  assert (falls_back \/ ~ falls_back) as Hdec.
  { destruct (shell structured) as [output|] eqn:E1; [|by left; left].
    destruct (JSON_parse (stdout output)) as [versionInfo|] eqn:E2;
      [|left; right; by eauto].
    destruct (get_version versionInfo) as [version|] eqn:E3.
    - right. intros [[=]|(output' & [= <-] & [H|(v & H & H')])]; congruence.
    - left. right. exists output. split; [done|]. right. by eauto. }
  split; [|split; [|split; [|split; [|split; [|split]]]]].
  - destruct Hdec as [H|H]; [rewrite (Hfb H); by eexists|].
    destruct (Hnfb H) as [version ->]. by eexists.
  - destruct Hdec as [H|H]; [by rewrite (Hfb H)|].
    by destruct (Hnfb H) as [version ->].
  - split; [|by intros ->%Hfb].
    destruct Hdec as [H|H]; [done|]. by destruct (Hnfb H) as [version ->].
  - split.
    + intros E H. by rewrite (Hfb H) in E.
    + intros H. by destruct (Hnfb H) as [version ->].
  - intros H. rewrite (Hfb H). cbn [fst]. unfold old.
    assert (forall output,
              token_of output
              = match version_of (stdout output) with
                | Some v => Some v
                | None => version_of (stderr output)
                end) as Htok.
    { intros output. unfold token_of, version_of.
      by rewrite !parseFlowCliVersion_rawMatch. }
    split.
    + destruct (shell plain) as [output|]; [|done]. rewrite Htok.
      by destruct (version_of (stdout output)), (version_of (stderr output)).
    + destruct (shell plain) as [output|]; [|split; [by left|done]].
      pose proof (token_of_binary bin output) as Hb. rewrite Htok in Hb |- *.
      destruct (version_of (stdout output)) as [v|] eqn:E1.
      { destruct (Hb v eq_refl) as [b ->].
        split; [done|]. intros [[=]|(output' & [= <-] & E & _)]. congruence. }
      destruct (version_of (stderr output)) as [v|] eqn:E2.
      { destruct (Hb v eq_refl) as [b ->].
        split; [done|]. intros [[=]|(output' & [= <-] & _ & E)]. congruence. }
      split; [right; by eauto|done].
  - intros output versionInfo version H1 H2 H3.
    rewrite Hrun, H1, H2, H3. split; [done|]. cbn [fst].
    unfold cliBinaryFromVersion. destruct version as [| | | |s| |]; try done.
    destruct (Semver.parse s) eqn:E.
    + split; [done|]. intros H. by rewrite (H s eq_refl) in E.
    + split; [|done]. by intros _ s' [= <-].
  - intros b. destruct Hdec as [H|H].
    + rewrite (Hfb H). cbn. intros [=]. by apply Hold.
    + destruct (Hnfb H) as [version ->]. cbn. intros [=].
      by eapply cliBinaryFromVersion_command.
Qed.

(** A witness of C6: a tool that rejects the structured query and prints
    its version on error output, and a tool that answers the structured
    query. *)
Lemma fetchBinaryInformation_resolution_witness :
  (let shell := fun cmd : jsstring =>
     if bool_decide (cmd = lit "flow version")
     then Normal (mkExecOutput [] (lit "Version: v1.2.3" ++ [10]))
     else Throw in
   let JSON_parse := fun _ : jsstring => @Throw value in
   let run := fetchBinaryInformation shell JSON_parse (lit "flow") [] in
   run.2 = [lit "flow version --output=json"; lit "flow version"]
   /\ run.1 =
        Normal (cliBinaryFromVersion (lit "flow") (VString (lit "1.2.3"))))
  /\ (let output :=
        mkExecOutput
          ([123; 34] ++ lit "version" ++ [34; 58; 34] ++ lit "2.0.1" ++ [34; 125])
          [] in
      let shell := fun _ : jsstring => Normal output in
      let JSON_parse := fun _ : jsstring =>
        Normal (VObject [(lit "version", VString (lit "2.0.1"))]) in
      fetchBinaryInformation shell JSON_parse (lit "flow") []
      = (Normal (cliBinaryFromVersion (lit "flow") (VString (lit "2.0.1"))),
         [lit "flow version --output=json"])).
Proof.
  split.
  - intros shell JSON_parse run.
    destruct (fetchBinaryInformation_resolution shell JSON_parse (lit "flow"))
      as (_ & _ & H2 & _ & H & _).
    split; [apply H2; by left|]. by destruct (H (or_introl eq_refl)) as [-> _].
  - intros output shell JSON_parse.
    destruct (fetchBinaryInformation_resolution shell JSON_parse (lit "flow"))
      as (_ & _ & _ & _ & _ & H & _).
    apply (H output (VObject [(lit "version", VString (lit "2.0.1"))])
             (VString (lit "2.0.1"))); reflexivity.
Defined.

(** C6 as stated fails, twice.  A tool rejects the structured query and
    prints [Version: vnext] on standard output and [Version: v2.0.1] on
    error output: standard output has a token, [next], which is not a
    semantic version, and yet the resolution yields the binary of version
    2.0.1 read from error output.  And a tool answers the structured query
    with JSON whose [version] is [garbage]: this is no semantic version,
    and the resolution yields no value without running the plain query,
    which would have given version 2.0.1. *)
Theorem fetchBinaryInformation_resolution_not_as_stated :
  (let output :=
     mkExecOutput (lit "Version: vnext") (lit "Version: v2.0.1" ++ [10]) in
   let shell := fun cmd : jsstring =>
     if bool_decide (cmd = lit "flow version") then Normal output else Throw in
   let JSON_parse := fun _ : jsstring => @Throw value in
   rawMatch (stdout output) = Some (lit "next")
   /\ Semver.parse (lit "next") = None
   /\ (fetchBinaryInformation shell JSON_parse (lit "flow") []).1
      = Normal (cliBinaryFromVersion (lit "flow") (VString (lit "2.0.1")))
   /\ (Semver.version ∘ version
         <$> cliBinaryFromVersion (lit "flow") (VString (lit "2.0.1")))
      = Some (lit "2.0.1"))
  /\ (let shell := fun cmd : jsstring =>
        if bool_decide (cmd = lit "flow version")
        then Normal (mkExecOutput (lit "Version: v2.0.1" ++ [10]) [])
        else
          Normal
            (mkExecOutput
               ([123; 34] ++ lit "version" ++ [34; 58; 34] ++ lit "garbage"
                ++ [34; 125])
               []) in
      let JSON_parse := fun _ : jsstring =>
        Normal (VObject [(lit "version", VString (lit "garbage"))]) in
      Semver.parse (lit "garbage") = None
      /\ fetchBinaryInformation shell JSON_parse (lit "flow") []
         = (Normal None, [lit "flow version --output=json"])
      /\ (fetchBinaryInformationOld shell (lit "flow") []).1
         = Normal (cliBinaryFromVersion (lit "flow") (VString (lit "2.0.1")))).
Proof. by vm_compute. Qed.

End CliVersionsFacts.

(** ** The registry through its operations *)
Module RegistryFacts.
Import Js CliVersions CliVersionsFacts.

#[local] Arguments lit : simpl never.

Lemma non_null_true (m : gmap jsstring LeafCache) (command : jsstring) :
  non_null m command = true ->
  is_Some (m !! command) \/ command ∈ Object_prototype_names.
Proof.
  unfold non_null. intros [H|H]%orb_true_iff; apply bool_decide_eq_true in H; auto.
Qed.

Lemma non_null_false_names (m : gmap jsstring LeafCache) (command : jsstring) :
  non_null m command = false ->
  m !! command = None /\ command ∉ Object_prototype_names.
Proof.
  intros H. split; [by apply non_null_false|].
  unfold non_null in H. apply orb_false_iff in H as [_ H].
  by apply bool_decide_eq_false in H.
Qed.

Lemma non_null_fresh (m : gmap jsstring LeafCache) (command : jsstring) :
  m !! command = None -> command ∉ Object_prototype_names ->
  non_null m command = false.
Proof.
  intros H1 H2. unfold non_null. rewrite H1.
  rewrite (bool_decide_eq_false_2 _ H2).
  rewrite bool_decide_eq_false_2; [done|]. by intros [? [=]].
Qed.

Lemma known_not_inherited name :
  name ∈ KNOWN_FLOW_COMMANDS -> name ∉ Object_prototype_names.
Proof.
  intros ->%list_elem_of_singleton. apply (bool_decide_unpack _). by vm_compute.
Qed.

(** The entries after a run of [add]. *)
Lemma caches_foldl_add (l : list jsstring) : forall p name,
  caches (foldl (fun p bin => add bin p) p l) !! name
  = match caches p !! name with
    | Some c => Some c
    | None =>
        if decide (name ∈ l /\ name ∉ Object_prototype_names)
        then Some new_leaf else None
    end.
Proof.
  induction l as [|a l IH]; intros p name; cbn.
  - destruct (caches p !! name); [done|]. rewrite decide_False; [done|].
    intros [H _]. by apply not_elem_of_nil in H.
  - rewrite IH. unfold add. destruct (non_null (caches p) a) eqn:E; cbn.
    + destruct (caches p !! name) eqn:En; [done|].
      apply decide_ext. rewrite (elem_of_cons l name a).
      apply non_null_true in E as [[c Hc]|Hp].
      * split; [by intros [? ?]; auto|]. intros [[->|?] ?]; [congruence | auto].
      * split; [by intros [? ?]; auto|]. intros [[->|?] ?]; [done | auto].
    + apply non_null_false_names in E as [Ha Hp].
      destruct (decide (name = a)) as [->|Hne].
      * rewrite lookup_insert_eq, Ha. rewrite decide_True; [done|].
        split; [by left | done].
      * rewrite lookup_insert_ne by done.
        destruct (caches p !! name); [done|].
        apply decide_ext. rewrite (elem_of_cons l name a).
        split; [by intros [? ?]; auto|]. intros [[->|?] ?]; [done | auto].
Qed.

(** The constructor registers the known names and the seeds, except for the
    names that a plain object inherits; every entry is a new cache with one
    subscription, whatever the number of times a name is among the seeds;
    and the root cache is a new cache, not yet invalidated. *)
Theorem constructor_registers (seedBinaries : list jsstring) (name : jsstring) :
  (is_Some (caches (constructor seedBinaries) !! name)
   <-> (name ∈ KNOWN_FLOW_COMMANDS \/ name ∈ seedBinaries)
       /\ name ∉ Object_prototype_names)
  /\ (forall c, caches (constructor seedBinaries) !! name = Some c -> c = new_leaf)
  /\ rootCache (constructor seedBinaries) = Some StateCache.new.
Proof.
  unfold constructor. cbn [caches rootCache]. rewrite !caches_foldl_add.
  cbn [caches]. rewrite lookup_empty.
  split; [|split; [|done]].
  - destruct (decide (name ∈ KNOWN_FLOW_COMMANDS /\ _)) as [[Hk Hp]|Hn].
    + split; [intros _; by auto | by eexists].
    + destruct (decide (name ∈ seedBinaries /\ _)) as [[Hs Hp]|Hn'].
      * split; [intros _; by auto | by eexists].
      * split; [by intros [? [=]]|]. intros [[Hk|Hs] Hp]; naive_solver.
  - intros c. destruct (decide (name ∈ KNOWN_FLOW_COMMANDS /\ _)); [congruence|].
    destruct (decide (name ∈ seedBinaries /\ _)); congruence.
Qed.

Lemma invariant_constructor seedBinaries : invariant (constructor seedBinaries).
Proof.
  assert (forall name,
            caches (constructor seedBinaries) !! name
            = if decide (name ∈ KNOWN_FLOW_COMMANDS /\ name ∉ Object_prototype_names)
              then Some new_leaf
              else if decide (name ∈ seedBinaries /\ name ∉ Object_prototype_names)
                   then Some new_leaf else None) as E.
  { intros name. unfold constructor. cbn [caches]. rewrite !caches_foldl_add.
    cbn [caches]. rewrite lookup_empty. by case_decide. }
  split; [|split].
  - intros name Hk. rewrite E, decide_True; [by eexists|].
    split; [done | by apply known_not_inherited].
  - intros name c. rewrite E.
    destruct (decide _); [by intros [= <-]|].
    destruct (decide _); by intros [= <-].
  - intros name Hp. rewrite E.
    destruct (decide _) as [[_ ?]|_]; [done|].
    by destruct (decide _) as [[_ ?]|_].
Qed.

Lemma invariant_operation o p : invariant p -> invariant (apply_operation o p).
Proof.
  intros (Hk & Hs & Hp). destruct o as [name|name|]; cbn.
  - unfold add. destruct (non_null (caches p) name) eqn:E; [done|].
    apply non_null_false_names in E as [Hn Hnp].
    split; [|split]; intros k; cbn [caches].
    + intros Hin. destruct (decide (k = name)) as [->|];
        [rewrite lookup_insert_eq; by eexists|].
      rewrite lookup_insert_ne by done. by apply Hk.
    + intros c. destruct (decide (k = name)) as [->|].
      * rewrite lookup_insert_eq. by intros [= <-].
      * rewrite lookup_insert_ne by done. apply Hs.
    + intros Hin. rewrite lookup_insert_ne by congruence. by apply Hp.
  - unfold remove. destruct (negb _ || _) eqn:E; [done|].
    apply orb_false_iff in E as [_ E]. apply bool_decide_eq_false in E.
    split; [|split]; intros k; cbn [caches].
    + intros Hin. rewrite lookup_delete_ne by congruence. by apply Hk.
    + intros c [_ Hc]%lookup_delete_Some. by eapply Hs.
    + intros Hin. apply lookup_delete_None. right. by apply Hp.
  - unfold refresh. split; [|split]; intros k; cbn [caches].
    + intros Hin. rewrite lookup_fmap. destruct (Hk k Hin) as [c ->]. by eexists.
    + intros c. rewrite lookup_fmap.
      destruct (caches p !! k) as [c'|] eqn:E; [|done]. intros [= <-].
      by apply (Hs k c').
    + intros Hin. by rewrite lookup_fmap, Hp.
Qed.

Lemma invariant_run os : forall p, invariant p -> invariant (run_operations os p).
Proof.
  induction os as [|o os IH]; intros p Hp; [done|].
  cbn. apply IH. by apply invariant_operation.
Qed.

(** The known binaries cannot be removed: through every sequence of calls of
    [add], [remove] and [refresh] on a registry as constructed, each known
    name keeps an entry. *)
Theorem known_names_stay_registered
    (seedBinaries : list jsstring) (os : list operation) (name : jsstring) :
  name ∈ KNOWN_FLOW_COMMANDS ->
  is_Some (caches (run_operations os (constructor seedBinaries)) !! name)
  /\ exists c,
       get name (run_operations os (constructor seedBinaries)) = Some (OwnEntry c).
Proof.
  intros Hk.
  destruct (invariant_run os _ (invariant_constructor seedBinaries)) as (H & _).
  split; [by apply H|]. destruct (H name Hk) as [c Hc].
  exists c. unfold get. by rewrite Hc.
Qed.

Lemma known_names_stay_registered_witness :
  exists c,
    get (lit "flow")
      (run_operations [Add (lit "flow-c1"); Remove (lit "flow"); Refresh]
         (constructor []))
    = Some (OwnEntry c).
Proof.
  apply (known_names_stay_registered [] _ (lit "flow")).
  apply (bool_decide_unpack _). by vm_compute.
Defined.

(** [add] never subscribes an entry twice: through every sequence of calls
    on a registry as constructed, every entry has exactly the one
    subscription that invalidates the root cache. *)
Theorem entries_subscribed_once
    (seedBinaries : list jsstring) (os : list operation)
    (name : jsstring) (c : LeafCache) :
  caches (run_operations os (constructor seedBinaries)) !! name = Some c ->
  StateCache.subscribers c = [InvalidateRoot].
Proof.
  destruct (invariant_run os _ (invariant_constructor seedBinaries)) as (_ & H & _).
  apply H.
Qed.

Lemma entries_subscribed_once_witness :
  exists c,
    caches (run_operations [Add (lit "flow"); Refresh; Add (lit "flow")]
              (constructor [lit "flow"])) !! lit "flow" = Some c
    /\ StateCache.subscribers c = [InvalidateRoot].
Proof.
  eexists. split; [vm_compute; reflexivity|].
  apply (entries_subscribed_once [lit "flow"]
           [Add (lit "flow"); Refresh; Add (lit "flow")] (lit "flow")).
  vm_compute. reflexivity.
Defined.

(** A binary whose name a plain object inherits ([constructor], [toString],
    [valueOf], ...) cannot be tracked: [add] returns the registry as it is,
    and no sequence of calls gives such a name an entry, while [get] answers
    with the inherited property. *)
Theorem inherited_names_never_registered
    (seedBinaries : list jsstring) (os : list operation)
    (name : jsstring) (p : CliVersionsProvider) :
  name ∈ Object_prototype_names ->
  add name p = p
  /\ caches (run_operations os (constructor seedBinaries)) !! name = None
  /\ get name (run_operations os (constructor seedBinaries)) = Some Inherited.
Proof.
  intros Hp. split; [|split].
  - unfold add, non_null. by rewrite (bool_decide_eq_true_2 _ Hp), orb_true_r.
  - destruct (invariant_run os _ (invariant_constructor seedBinaries)) as (_ & _ & H).
    by apply H.
  - destruct (invariant_run os _ (invariant_constructor seedBinaries)) as (_ & _ & H).
    unfold get. by rewrite (H name Hp), (bool_decide_eq_true_2 _ Hp).
Qed.

Lemma inherited_names_never_registered_witness :
  add (lit "toString") (constructor []) = constructor []
  /\ caches (run_operations [Add (lit "toString")] (constructor [lit "toString"]))
       !! lit "toString" = None.
Proof.
  destruct (inherited_names_never_registered [lit "toString"]
              [Add (lit "toString")] (lit "toString") (constructor [])) as (H1 & H2 & _).
  - apply (bool_decide_unpack _). by vm_compute.
  - split; [exact H1 | exact H2].
Defined.

(** [add] of a name that has no entry and is not inherited: [get] finds
    the new entry, which is stale, holds no value and has the one
    subscription; every other name is looked up as before; and the root
    cache is invalidated. *)
Theorem add_then_get (name : jsstring) (p : CliVersionsProvider) :
  caches p !! name = None -> name ∉ Object_prototype_names ->
  get name (add name p) = Some (OwnEntry new_leaf)
  /\ StateCache.fresh new_leaf = false
  /\ StateCache.value new_leaf = None
  /\ StateCache.subscribers new_leaf = [InvalidateRoot]
  /\ (forall other, other <> name -> get other (add name p) = get other p)
  /\ rootCache (add name p) = StateCache.invalidate <$> rootCache p.
Proof.
  intros Hn Hp. unfold add. rewrite (non_null_fresh _ _ Hn Hp).
  unfold get. cbn [caches rootCache]. rewrite lookup_insert_eq.
  repeat split; try done.
  intros other Hne. by rewrite lookup_insert_ne.
Qed.

Lemma add_then_get_witness :
  get (lit "flow-c1") (add (lit "flow-c1") (constructor []))
  = Some (OwnEntry new_leaf)
  /\ get (lit "flow") (add (lit "flow-c1") (constructor []))
     = get (lit "flow") (constructor []).
Proof.
  destruct (add_then_get (lit "flow-c1") (constructor [])) as (H1 & _ & _ & _ & H2 & _).
  - by vm_compute.
  - apply (bool_decide_unpack _). by vm_compute.
  - split; [exact H1|]. apply H2. by vm_compute.
Defined.

(** [add] and then [remove] of a name that is not known, has no entry and
    is not inherited gives back the entries there were: the name is looked
    up as absent again and every other entry is untouched.  The root cache
    has been invalidated on the way. *)
Theorem add_then_remove (name : jsstring) (p : CliVersionsProvider) :
  caches p !! name = None -> name ∉ Object_prototype_names ->
  name ∉ KNOWN_FLOW_COMMANDS ->
  caches (remove name (add name p)) = caches p
  /\ get name (remove name (add name p)) = None
  /\ rootCache (remove name (add name p))
     = StateCache.invalidate <$> (StateCache.invalidate <$> rootCache p).
Proof.
  intros Hn Hp Hk. unfold add. rewrite (non_null_fresh _ _ Hn Hp).
  unfold remove. cbn [caches rootCache].
  rewrite non_null_own by (rewrite lookup_insert_eq; by eexists).
  rewrite (bool_decide_eq_false_2 _ Hk). cbn [negb orb caches rootCache].
  rewrite delete_insert_eq, delete_id by done. repeat split.
  unfold get. cbn [caches]. rewrite Hn. by rewrite (bool_decide_eq_false_2 _ Hp).
Qed.

Lemma add_then_remove_witness :
  caches (remove (lit "flow-c1") (add (lit "flow-c1") (constructor [])))
  = caches (constructor [])
  /\ get (lit "flow-c1")
       (remove (lit "flow-c1") (add (lit "flow-c1") (constructor []))) = None.
Proof.
  destruct (add_then_remove (lit "flow-c1") (constructor [])) as (H1 & H2 & _).
  - by vm_compute.
  - apply (bool_decide_unpack _). by vm_compute.
  - apply (bool_decide_unpack _). by vm_compute.
  - split; [exact H1 | exact H2].
Defined.

Lemma Object_keys_fmap (f : LeafCache -> LeafCache) (m : gmap jsstring LeafCache) :
  Object_keys (f <$> m) = Object_keys m.
Proof.
  unfold Object_keys. rewrite map_to_list_fmap, <- list_fmap_compose.
  apply list_fmap_ext. by intros _ [k v] _.
Qed.

(** [refresh] keeps the registered names and leaves no cache fresh: every
    entry is its old self invalidated.  On a constructed registry the next
    [getVersions] therefore runs the root fetcher, over the same names,
    whatever list was cached; and a second [refresh] right after the first
    changes nothing. *)
Theorem refresh_invalidates_all
    (p : CliVersionsProvider) (root : RootCache)
    (leafValue : jsstring -> completion (option CliBinary)) :
  rootCache p = Some root ->
  Object_keys (caches (refresh p)) = Object_keys (caches p)
  /\ (forall name,
       caches (refresh p) !! name = StateCache.invalidate <$> caches p !! name)
  /\ (forall name c, caches (refresh p) !! name = Some c ->
       StateCache.fresh c = false)
  /\ getVersions leafValue (refresh p) = rootFetcher leafValue p
  /\ refresh (refresh p) = refresh p.
Proof.
  intros Hroot. unfold refresh. cbn [caches rootCache].
  split; [apply Object_keys_fmap|]. split; [intros name; apply lookup_fmap|].
  split; [|split].
  - intros name c. rewrite lookup_fmap.
    destruct (caches p !! name); [|done]. by intros [= <-].
  - unfold getVersions, rootFetcher. cbn [caches rootCache].
    by rewrite Hroot, Object_keys_fmap.
  - f_equal.
    + rewrite <- map_fmap_compose. apply map_fmap_ext. intros k c _.
      destruct c as [v f i o subs r st nt]. unfold StateCache.invalidate. cbn.
      by rewrite <- orb_assoc, orb_diag.
    + rewrite Hroot. cbn. destruct root as [v f i o subs r st nt].
      unfold StateCache.invalidate. cbn. by rewrite <- orb_assoc, orb_diag.
Qed.

Lemma refresh_invalidates_all_witness :
  let p :=
    root_step (StateCache.Settle (Normal []))
      (root_step StateCache.GetValue (constructor [lit "flow-c1"])) in
  StateCache.fresh <$> rootCache p = Some true
  /\ getVersions (fun _ => Normal None) (refresh p)
     = rootFetcher (fun _ => Normal None) p
  /\ refresh (refresh p) = refresh p.
Proof.
  intros p. split; [by vm_compute|].
  destruct (rootCache p) as [root|] eqn:E; [|by vm_compute in E].
  destruct (refresh_invalidates_all p root (fun _ => Normal None) E)
    as (_ & _ & _ & H1 & H2).
  split; [exact H1 | exact H2].
Defined.

End RegistryFacts.

(** ** The version line and the plain-text resolution *)
Module ParseFacts.
Import Js RegExp CliVersions CliVersionsFacts.
Import Semver JsFacts SemverFacts.

#[local] Arguments lit : simpl never.

Lemma strip_literal_app l s : strip_literal l (l ++ s) = Some s.
Proof.
  induction l as [|c l IH]; [by destruct s|]. cbn. by rewrite N.eqb_refl.
Qed.



Lemma isWhiteSpace_v : isWhiteSpace 118 = false.
Proof. reflexivity. Qed.

Lemma take_while_line line rest :
  forallb isDot line = true -> at_eol rest ->
  take_while isDot (line ++ rest) = line.
Proof.
  intros Hl Hr. rewrite take_while_app by done.
  destruct rest as [|c rest]; cbn in *; [by rewrite app_nil_r|].
  unfold isDot. rewrite Hr. cbn. by rewrite app_nil_r.
Qed.

Lemma legacy_scan_line ws line rest :
  forallb isWhiteSpace ws = true -> forallb isDot line = true -> at_eol rest ->
  legacy_scan (lit "Version:" ++ ws ++ 118 :: line ++ rest) = Some line.
Proof.
  intros Hws Hl Hr.
  assert (legacy_scan_here (lit "Version:" ++ ws ++ 118 :: line ++ rest) = Some line)
    as H.
  { unfold legacy_scan_here. rewrite strip_literal_app.
    rewrite drop_while_app by done. cbn. by rewrite take_while_line. }
  destruct (lit "Version:" ++ ws ++ 118 :: line ++ rest); cbn; by rewrite H.
Qed.



Lemma isIdentOrDot_isDot c : isIdentOrDot c = true -> isDot c = true.
Proof.
  intros H. assert (45 <= c <= 122) as Hr.
  { revert H. unfold isIdentOrDot, isIdentChar, isDigit, isLetter.
    rewrite !orb_true_iff, !andb_true_iff, !N.eqb_eq, !N.leb_le. lia. }
  unfold isDot. apply negb_true_iff, not_true_is_false.
  unfold isLineTerminator. rewrite !orb_true_iff, !N.eqb_eq. lia.
Qed.

(** The version string of a parsed version cleans to itself. *)
Lemma clean_version s sv : parse s = Some sv -> clean (version sv) = Some (version sv).
Proof.
  intros E. pose proof E as E'. unfold parse in E'.
  apply new_SemVer_Some in E' as (m1 & m2 & m3 & m4 & Hg & Hv & _).
  apply parse_version in E as (sv' & E & Hv' & _).
  unfold clean. rewrite Hv at 1.
  rewrite version_text_trim, version_text_strip by done.
  rewrite <- Hv. by rewrite E, Hv'.
Qed.

Lemma version_chars s sv :
  parse s = Some sv -> forallb isIdentOrDot (version sv) = true.
Proof.
  unfold parse. intros E.
  apply new_SemVer_Some in E as (m1 & m2 & m3 & m4 & Hg & Hv & _).
  rewrite Hv. by apply version_text_chars.
Qed.

(** Round trip: the line [Version: v<version>] that a tool prints for a
    version reads back as that version, with any white space after the
    colon and whatever follows the end of the line. *)
Theorem parseFlowCliVersion_round_trip
    (s ws rest : jsstring) (sv : SemVer) :
  parse s = Some sv ->
  forallb isWhiteSpace ws = true -> at_eol rest ->
  parseFlowCliVersion (lit "Version:" ++ ws ++ 118 :: version sv ++ rest)
  = Some (version sv).
Proof.
  intros Hs Hws Hr.
  assert (forallb isDot (version sv) = true) as Hl.
  { pose proof (version_chars s sv Hs) as Hc.
    rewrite forallb_forall in *. intros c Hin. by apply isIdentOrDot_isDot, Hc. }
  unfold parseFlowCliVersion.
  rewrite RegExpFacts.exec_legacy, legacy_scan_line by done.
  by apply (clean_version s).
Qed.

Lemma parseFlowCliVersion_round_trip_witness :
  exists sv,
    parse (lit "v2.0.1-rc.1+build.7") = Some sv
    /\ version sv = lit "2.0.1-rc.1"
    /\ parseFlowCliVersion (lit "Version:" ++ [32] ++ 118 :: version sv ++ [10])
       = Some (version sv).
Proof.
  destruct (parse (lit "v2.0.1-rc.1+build.7")) as [sv|] eqn:E;
    [|by vm_compute in E].
  exists sv. split; [reflexivity|]. split.
  - vm_compute in E. by injection E as <-.
  - apply (parseFlowCliVersion_round_trip (lit "v2.0.1-rc.1+build.7") [32] [10] sv E);
      reflexivity.
Defined.

(** What a result looks like: it is made of letters, digits, hyphens and
    dots only (no white space, no [v] prefix, no build after a [+]), it
    begins with a digit, and it has at most 256 characters. *)
Theorem parseFlowCliVersion_result_shape (buffer v : jsstring) :
  parseFlowCliVersion buffer = Some v ->
  forallb isIdentOrDot v = true
  /\ (exists c tl, v = c :: tl /\ isDigit c = true)
  /\ (length v <= MAX_LENGTH)%nat.
Proof.
  unfold parseFlowCliVersion.
  destruct (exec LEGACY_VERSION_REGEXP buffer) as [[token|]|]; try done.
  unfold clean. destruct (parse _) as [sv|] eqn:E; [|done]. intros [= <-].
  unfold parse in E.
  apply new_SemVer_Some in E
    as (m1 & m2 & m3 & m4 & Hg & Hv & _ & _ & _ & _ & _ & Hl).
  split; [|split]; [rewrite Hv; by apply version_text_chars | | done].
  rewrite Hv. destruct Hg as (C1 & _). unfold version_text.
  destruct m1 as [|c tl]; [done|]. apply canonical_digits in C1. cbn in C1.
  apply andb_true_iff in C1 as [Hc _]. by eexists _, _.
Qed.

Lemma parseFlowCliVersion_result_shape_witness :
  forallb isIdentOrDot (lit "1.2.3") = true
  /\ (exists c tl, lit "1.2.3" = c :: tl /\ isDigit c = true)
  /\ (length (lit "1.2.3") <= MAX_LENGTH)%nat.
Proof.
  apply (parseFlowCliVersion_result_shape
           (lit "Version: vv1.2.3+build" ++ [10]) (lit "1.2.3")).
  reflexivity.
Defined.

(** The plain-text resolution gives a binary exactly when a token is found:
    it is no value when the command fails and when neither output has a
    token, and a token that is found always gives a binary, which carries
    the name asked for and a version that prints as the token. *)
Theorem plain_resolution_value
    (shell : jsstring -> completion ExecOutput) (bin : jsstring)
    (log : list jsstring) :
  let result := (fetchBinaryInformationOld shell bin log).1 in
  (result = Normal None
   <-> shell (CHECK_FLOW_CLI_CMD_NO_JSON bin) = Throw
       \/ exists output, shell (CHECK_FLOW_CLI_CMD_NO_JSON bin) = Normal output
                         /\ token_of output = None)
  /\ (forall output token,
        shell (CHECK_FLOW_CLI_CMD_NO_JSON bin) = Normal output ->
        token_of output = Some token ->
        exists b, result = Normal (Some b)
                  /\ CliVersions.command b = bin
                  /\ version (CliVersions.version b) = token
                  /\ raw (CliVersions.version b) = token)
  /\ (fetchBinaryInformationOld shell bin log).2
     = log ++ [CHECK_FLOW_CLI_CMD_NO_JSON bin].
Proof.
  cbn zeta. rewrite fetchBinaryInformationOld_eq. cbn [fst snd].
  assert (forall output token, token_of output = Some token ->
            exists sv, parse token = Some sv /\ version sv = token /\ raw sv = token)
    as Htok.
  { intros output token H.
    assert (exists buffer, parseFlowCliVersion buffer = Some token) as [buffer Hb].
    { unfold token_of in H.
      destruct (parseFlowCliVersion (stdout output)) eqn:E; [|by eauto].
      injection H as ->. eauto. }
    unfold parseFlowCliVersion in Hb.
    destruct (exec LEGACY_VERSION_REGEXP buffer) as [[t|]|]; try done.
    pose proof (clean_clean _ _ Hb) as Hc. unfold clean in Hb, Hc.
    destruct (parse (strip_prefix_eq_v (trim t))) as [sv0|] eqn:E0; [|done].
    injection Hb as <-.
    destruct (parse_version _ _ E0) as (sv' & E' & Hv' & _).
    exists sv'. split; [done|]. split; [done|].
    unfold parse, new_SemVer in E'.
    destruct (MAX_LENGTH <? _)%nat; [done|].
    destruct (match_full _) as [[[[[m1 m2] m3] m4] m5]|]; [|done]. cbn in E'.
    destruct (_ || _ || _); [done|]. by injection E' as <-. }
  split; [|split; [|done]].
  - split.
    + intros H. destruct (shell _) as [output|]; [|by left]. right.
      exists output. split; [done|].
      destruct (token_of output) as [token|] eqn:Et; [|done].
      destruct (Htok output token Et) as (sv & Hp & _).
      unfold cliBinaryFromVersion in H. by rewrite Hp in H.
    + intros [->|(output & -> & ->)]; done.
  - intros output token -> Ht. rewrite Ht.
    destruct (Htok output token Ht) as (sv & Hp & Hv & Hr).
    unfold cliBinaryFromVersion. rewrite Hp. by eexists.
Qed.

Lemma plain_resolution_value_witness :
  let shell := fun _ : jsstring =>
    Normal (mkExecOutput (lit "Version: vnext") (lit "Version: v2.0.1" ++ [10])) in
  exists b,
    (fetchBinaryInformationOld shell (lit "flow") []).1 = Normal (Some b)
    /\ CliVersions.command b = lit "flow"
    /\ version (CliVersions.version b) = lit "2.0.1".
Proof.
  intros shell.
  destruct (plain_resolution_value shell (lit "flow") []) as (_ & H & _).
  destruct (H (mkExecOutput (lit "Version: vnext") (lit "Version: v2.0.1" ++ [10]))
              (lit "2.0.1")) as (b & H1 & H2 & H3 & _); [reflexivity..|].
  exists b. split; [exact H1|]. split; [exact H2 | exact H3].
Defined.

End ParseFacts.

(** ** The supervisor: launch, stop, restart and a mutex that stays held *)
Module SupervisorFacts.
Import Js LanguageServer LanguageServerFacts.

#[local] Arguments lit : simpl never.
#[local] Arguments numToString : simpl never.
#[local] Arguments N.mul : simpl never.

Lemma running_after_cons r st states :
  running_after r (st :: states) = running_after (is_running st) states.
Proof.
  unfold running_after. destruct states as [|st' states]; [done|].
  cbn [last]. destruct (last (st' :: states)) as [st0|] eqn:E; [done|].
  by apply last_None in E.
Qed.

(** The state after a run of state changes. *)
Lemma deliver_exact states : forall s,
  deliver states s
  = (Done tt,
     mkApi (client s) (clientLock s) (running_after (running s) states)
       (initializedClient s) (emulatorConnected s) (accessCheckMode s)
       (flowCommand s) (effects s ++ state_effects (initializedClient s) states)).
Proof.
  induction states as [|st states IH]; intros s.
  - cbn. rewrite app_nil_r. by destruct s.
  - rewrite running_after_cons. cbn [deliver]. unfold bind at 1.
    destruct s as [c l r i e a f es0].
    assert (onDidChangeState st (mkApi c l r i e a f es0)
            = (Done tt,
               mkApi c l (is_running st) i e a f
                 (es0 ++ (if i && negb (is_running st) then [Sleep (1000 * 5)] else [])
                      ++ [EmulatorStateChanged]))) as ->.
    { run_op. destruct i, st; cbn; by rewrite <- ?app_assoc. }
    rewrite IH. cbn. by rewrite <- !app_assoc.
Qed.

Lemma sleeps_app es1 es2 : sleeps (es1 ++ es2) = sleeps es1 ++ sleeps es2.
Proof. apply omap_app. Qed.

Lemma restarts_app es1 es2 : restarts (es1 ++ es2) = restarts es1 ++ restarts es2.
Proof. apply omap_app. Qed.

Lemma started_clients_app es1 es2 :
  started_clients (es1 ++ es2) = started_clients es1 ++ started_clients es2.
Proof. apply omap_app. Qed.

Lemma state_effects_sleeps i states :
  sleeps (state_effects i states)
  = if i then (fun _ => 1000 * 5) <$> filter (fun st => is_running st = false) states
    else [].
Proof.
  induction states as [|st states IH]; [by destruct i|].
  cbn [state_effects flat_map]. fold (state_effects i states).
  rewrite !sleeps_app, IH. by destruct i, st.
Qed.

Lemma state_effects_only i states e :
  e ∈ state_effects i states -> e = EmulatorStateChanged \/ e = Sleep (1000 * 5).
Proof.
  induction states as [|st states IH]; [by intros ?%elem_of_nil|].
  cbn [state_effects flat_map]. fold (state_effects i states).
  rewrite !elem_of_app. intros [[H|H]|H]; [|left|by auto].
  - destruct (i && negb (is_running st)); [|by apply elem_of_nil in H].
    right. by apply list_elem_of_singleton in H.
  - by apply list_elem_of_singleton in H.
Qed.

(** A launch that gets the mutex and its configuration. *)
Lemma startClient_exact enableFlow env s configPath settings :
  clientLock s = false ->
  getConfigPath env = Normal configPath ->
  getWorkspaceSettings env = Normal settings ->
  let b := launch_flag enableFlow env in
  let c := new_client (flowCommand s) b configPath settings in
  startClient enableFlow env s
  = (Done tt,
     mkApi (Some c) false (running_after (running s) (start_states env)) true
       (match enableFlow with Some _ => emulatorConnected s | None => probe env end)
       (accessCheckMode s) (flowCommand s)
       (effects s
        ++ (if bool_decide (flowCommand s = lit "flow") then [] else [KillDlv])
        ++ [ClientStart c]
        ++ state_effects false (start_states env)
        ++ match start env with
           | Normal _ => [EmulatorStateChanged; WatchFlowConfiguration]
           | Throw => [ShowErrorMessage]
           end
        ++ [if b then ShowInformationMessage else ShowWarningMessage])).
Proof.
  destruct s as [c0 l r i e a f es0]. cbn. intros -> Hc Hs.
  unfold startClient, new_client, launch_flag, flag_argument.
  rewrite Hc, Hs.
  destruct enableFlow as [b|]; run_op; rewrite ?emulatorExists_probe; cbn;
    [|generalize (probe env); intros b];
    destruct b, (bool_decide (f = lit "flow")); cbn;
    rewrite deliver_exact; cbn;
    destruct (start env); cbn; by rewrite <- ?app_assoc.
Qed.

(** A stop that gets the mutex. *)
Lemma stopClient_exact env s :
  clientLock s = false ->
  stopClient env s
  = (Done tt,
     mkApi None false
       (match client s with
        | Some _ => running_after (running s) (stop_states env)
        | None => running s
        end)
       (initializedClient s) (emulatorConnected s) (accessCheckMode s)
       (flowCommand s)
       (effects s
        ++ match client s with
           | Some _ =>
               ClientStop :: state_effects (initializedClient s) (stop_states env)
           | None => []
           end
        ++ [EmulatorStateChanged])).
Proof.
  destruct s as [c0 l r i e a f es0]. cbn. intros ->.
  destruct c0 as [c0|]; run_op; [|done].
  rewrite deliver_exact; cbn. destruct (stop env); cbn; by rewrite <- ?app_assoc.
Qed.

Lemma notifications_app es1 es2 :
  notifications (es1 ++ es2) = (notifications es1 + notifications es2)%nat.
Proof. unfold notifications. by rewrite omap_app, length_app. Qed.

Lemma stops_app es1 es2 : stops (es1 ++ es2) = (stops es1 + stops es2)%nat.
Proof. unfold stops. by rewrite omap_app, length_app. Qed.

Lemma state_effects_notifications i states :
  notifications (state_effects i states) = length states.
Proof.
  induction states as [|st states IH]; [done|].
  cbn [state_effects flat_map]. fold (state_effects i states).
  rewrite !notifications_app, IH. by destruct (i && negb (is_running st)).
Qed.

Lemma state_effects_quiet i states :
  restarts (state_effects i states) = []
  /\ started_clients (state_effects i states) = []
  /\ stops (state_effects i states) = 0%nat.
Proof.
  induction states as [|st states (R & C & S)]; [done|].
  cbn [state_effects flat_map]. fold (state_effects i states).
  rewrite !restarts_app, !started_clients_app, !stops_app, R, C, S.
  by destruct (i && negb (is_running st)).
Qed.

(** The state listener that [startClient] registers, over a run of state
    changes: [running] ends as whether the last state reported is
    [Running] (and stays as it was when none is reported); every change
    calls [ext.emulatorStateChanged()] once; the extension host is put to
    sleep, for 5000 ms each time, once for every change to a state other
    than [Running] when the client is initialised, and never when it is
    not; the listener starts, stops and restarts nothing. *)
Theorem state_changes_debounced (states : list State) (s : LanguageServerAPI) :
  exists es,
    deliver states s
    = (Done tt,
       mkApi (client s) (clientLock s) (running_after (running s) states)
         (initializedClient s) (emulatorConnected s) (accessCheckMode s)
         (flowCommand s) (effects s ++ es))
    /\ notifications es = length states
    /\ sleeps es
       = (if initializedClient s
          then (fun _ => 5000) <$> filter (fun st => is_running st = false) states
          else [])
    /\ restarts es = [] /\ started_clients es = [] /\ stops es = 0%nat.
Proof.
  exists (state_effects (initializedClient s) states).
  split; [apply deliver_exact|].
  split; [apply state_effects_notifications|].
  split; [apply state_effects_sleeps|].
  apply state_effects_quiet.
Qed.

Ltac effects_mem Hse :=
  rewrite ?elem_of_app, ?elem_of_cons, ?elem_of_nil;
  split; [intros H; decompose [or] H; clear H;
          repeat match goal with
                 | H : _ ∈ state_effects _ _ |- _ => apply Hse in H as [?|?]
                 end; try done
         | try tauto; try (intros; congruence); try (intros; exfalso; congruence)].

(** A launch that gets the mutex, the configuration path and the settings
    cannot fail: it starts one client, made from the configured command,
    the three launch arguments with the flag last, and the initialization
    options read meanwhile; it leaves that client as the handle, the mutex
    free and the client marked initialised; it stops and restarts nothing;
    the state changes reported during the launch never put the host to
    sleep, whatever the supervisor was before; and [killall dlv] is run
    exactly when the configured command is not [flow].  The number of
    accounts is a natural number of at most 2^53 - 1, which the template
    string prints as its decimal digits; a larger number is printed
    rounded or in exponent form, and the statement does not cover it. *)
Theorem startClient_launches_one_client
    (enableFlow : option bool) (env : Env) (s : LanguageServerAPI)
    (configPath : jsstring) (settings : Settings) :
  clientLock s = false ->
  getConfigPath env = Normal configPath ->
  getWorkspaceSettings env = Normal settings ->
  numAccounts settings <= Semver.MAX_SAFE_INTEGER ->
  let c :=
    mkLanguageClient (flowCommand s)
      [lit "cadence"; lit "language-server";
       lit "--enable-flow-client=" ++ bool_toString (launch_flag enableFlow env)]
      configPath (numToString (numAccounts settings))
      (settings_accessCheckMode settings) in
  exists s' es,
    startClient enableFlow env s = (Done tt, s')
    /\ effects s' = effects s ++ es
    /\ client s' = Some c
    /\ clientLock s' = false
    /\ initializedClient s' = true
    /\ running s' = running_after (running s) (start_states env)
    /\ started_clients es = [c]
    /\ stops es = 0%nat
    /\ restarts es = []
    /\ sleeps es = []
    /\ (KillDlv ∈ es <-> flowCommand s <> lit "flow").
Proof.
  intros Hl Hc Hs _ c.
  pose proof (startClient_exact enableFlow env s configPath settings Hl Hc Hs) as E.
  cbn zeta in E. eexists _, _. split; [exact E|]. cbn [effects client clientLock
    initializedClient running].
  split; [reflexivity|]. do 4 (split; [reflexivity|]).
  destruct (state_effects_quiet false (start_states env)) as (R & C & S).
  pose proof (state_effects_sleeps false (start_states env)) as Z.
  pose proof (state_effects_only false (start_states env)) as Hse.
  rewrite !started_clients_app, !stops_app, !restarts_app, !sleeps_app, R, C, S, Z.
  case_bool_decide as Hf; destruct (start env), (launch_flag enableFlow env);
    (do 4 (split; [reflexivity|])); effects_mem Hse.
Qed.

Lemma startClient_launches_one_client_witness :
  let settings := mkSettings 3 (lit "strict") (lit "flow-dev") in
  let env :=
    mkEnv (Normal (lit "open")) (Normal (lit "flow.json")) (Normal settings)
      Throw [Starting; Stopped] (Normal tt) [Stopped] in
  exists s' es,
    startClient None env (init settings) = (Done tt, s')
    /\ effects s' = es
    /\ clientLock s' = false
    /\ (command <$> started_clients es) = [lit "flow-dev"]
    /\ sleeps es = []
    /\ KillDlv ∈ es.
Proof.
  intros settings env.
  assert (numAccounts settings <= Semver.MAX_SAFE_INTEGER) as Hn
    by (by vm_compute).
  destruct (startClient_launches_one_client None env (init settings)
              (lit "flow.json") settings eq_refl eq_refl eq_refl Hn)
    as (s' & es & E & F & _ & L & _ & _ & C & _ & _ & Z & K).
  exists s', es. split; [exact E|]. split; [exact F|]. split; [exact L|].
  split; [by rewrite C|]. split; [exact Z|].
  apply K. by vm_compute.
Defined.

(** What a launch reports.  With the mutex, the configuration path and the
    settings at hand, a rejected [client.start()] is answered with one
    error message and nothing else: the call still returns normally, the
    client that failed to start stays as the handle and is marked
    initialised, and the configuration watcher is not set up; a fulfilled
    one sets up the watcher and shows no error.  In both cases exactly one
    of the two emulator messages follows: the information message when the
    flag is [true], the warning when it is [false]. *)
Theorem startClient_reports_outcome
    (enableFlow : option bool) (env : Env) (s : LanguageServerAPI)
    (configPath : jsstring) (settings : Settings) :
  clientLock s = false ->
  getConfigPath env = Normal configPath ->
  getWorkspaceSettings env = Normal settings ->
  exists s' es,
    startClient enableFlow env s = (Done tt, s')
    /\ effects s' = effects s ++ es
    /\ is_Some (client s')
    /\ initializedClient s' = true
    /\ (ShowErrorMessage ∈ es <-> start env = Throw)
    /\ (WatchFlowConfiguration ∈ es <-> start env <> Throw)
    /\ (ShowInformationMessage ∈ es <-> launch_flag enableFlow env = true)
    /\ (ShowWarningMessage ∈ es <-> launch_flag enableFlow env = false)
    /\ notifications es
       = (length (start_states env)
          + match start env with Normal _ => 1 | Throw => 0 end)%nat.
Proof.
  intros Hl Hc Hs.
  pose proof (startClient_exact enableFlow env s configPath settings Hl Hc Hs) as E.
  cbn zeta in E. eexists _, _. split; [exact E|]. cbn [effects client clientLock
    initializedClient running].
  split; [reflexivity|]. split; [by eexists|]. split; [reflexivity|].
  pose proof (state_effects_only false (start_states env)) as Hse.
  rewrite !notifications_app, state_effects_notifications.
  case_bool_decide as Hf; destruct (start env), (launch_flag enableFlow env);
    (split; [effects_mem Hse|]); (split; [effects_mem Hse|]);
    (split; [effects_mem Hse|]); (split; [effects_mem Hse|]); cbn; lia.
Qed.

Lemma startClient_reports_outcome_witness :
  let settings := mkSettings 3 (lit "strict") (lit "flow") in
  let env :=
    mkEnv (Normal (lit "closed")) (Normal (lit "flow.json")) (Normal settings)
      Throw [Starting; Stopped] (Normal tt) [Stopped] in
  exists s' es,
    startClient None env (init settings) = (Done tt, s')
    /\ effects s' = es
    /\ is_Some (client s')
    /\ ShowErrorMessage ∈ es
    /\ ShowWarningMessage ∈ es
    /\ notifications es = 2%nat.
Proof.
  intros settings env.
  destruct (startClient_reports_outcome None env (init settings)
              (lit "flow.json") settings eq_refl eq_refl eq_refl)
    as (s' & es & E & F & C & _ & Err & _ & _ & W & N).
  exists s', es. split; [exact E|]. split; [exact F|]. split; [exact C|].
  split; [by apply Err|]. split; [by apply W|]. exact N.
Defined.

#[local] Arguments restarts : simpl never.
#[local] Arguments started_clients : simpl never.
#[local] Arguments stops : simpl never.
#[local] Arguments sleeps : simpl never.
#[local] Arguments notifications : simpl never.

(** A launch whose configuration cannot be read. *)
Lemma startClient_failed enableFlow env s :
  clientLock s = false ->
  getConfigPath env = Throw \/ getWorkspaceSettings env = Throw ->
  startClient enableFlow env s
  = (Threw,
     mkApi (client s) true (running s) false
       (match enableFlow with Some _ => emulatorConnected s | None => probe env end)
       (accessCheckMode s) (flowCommand s) (effects s)).
Proof.
  destruct s as [c0 l r i e a f es0]. cbn. intros -> H.
  unfold startClient.
  destruct enableFlow as [b|]; run_op; rewrite ?emulatorExists_probe; cbn;
    destruct (getConfigPath env), (getWorkspaceSettings env); cbn;
    by destruct H.
Qed.

Lemma held_blocks s :
  clientLock s = true ->
  forall enableFlow env,
    startClient enableFlow env s = (Blocked, s)
    /\ stopClient env s = (Blocked, s)
    /\ tick env s = (Blocked, s).
Proof.
  intros Hl enableFlow env.
  unfold startClient, stopClient, tick, bind, acquire. by rewrite Hl.
Qed.

(** [stopClient] with the mutex free never fails, also when
    [client.stop()] rejects: it returns normally with the handle cleared
    and the mutex free.  [client.stop()] is called once when there was a
    handle and not at all when there was none; the extension is notified
    once at the end, besides once for every state change reported during
    the stop, each of which puts the host to sleep for 5000 ms when it
    leads to a state other than [Running] and the client was initialised.
    A second [stopClient] straight after only notifies the extension. *)
Theorem stopClient_clears_handle (env : Env) (s : LanguageServerAPI) :
  clientLock s = false ->
  exists s' es,
    stopClient env s = (Done tt, s')
    /\ effects s' = effects s ++ es
    /\ client s' = None
    /\ clientLock s' = false
    /\ stops es = (if client s is Some _ then 1 else 0)%nat
    /\ notifications es
       = ((if client s is Some _ then length (stop_states env) else 0) + 1)%nat
    /\ sleeps es
       = (if client s is Some _
          then if initializedClient s
               then (fun _ => 5000)
                      <$> filter (fun st => is_running st = false) (stop_states env)
               else []
          else [])
    /\ started_clients es = []
    /\ forall env', exists s'',
         stopClient env' s' = (Done tt, s'')
         /\ effects s'' = effects s' ++ [EmulatorStateChanged]
         /\ client s'' = None
         /\ clientLock s'' = false.
Proof.
  intros Hl. rewrite (stopClient_exact env s Hl).
  eexists _, _. split; [reflexivity|]. cbn [effects client clientLock].
  split; [reflexivity|]. do 2 (split; [reflexivity|]).
  destruct (state_effects_quiet (initializedClient s) (stop_states env))
    as (R & C & St).
  pose proof (state_effects_sleeps (initializedClient s) (stop_states env)) as Z.
  pose proof (state_effects_notifications (initializedClient s) (stop_states env)) as N.
  split; [|split; [|split; [|split]]].
  - rewrite stops_app. destruct (client s); [|done].
    change (stops (ClientStop :: ?l)) with (S (stops l)). by rewrite St.
  - rewrite notifications_app. destruct (client s); [|done].
    change (notifications (ClientStop :: ?l)) with (notifications l).
    by rewrite N.
  - rewrite sleeps_app, app_nil_r. destruct (client s); [|done].
    change (sleeps (ClientStop :: ?l)) with (sleeps l). by rewrite Z.
  - rewrite started_clients_app, app_nil_r. destruct (client s); [|done].
    change (started_clients (ClientStop :: ?l)) with (started_clients l).
    by rewrite C.
  - intros env'. rewrite stopClient_exact by done. eexists. by split.
Qed.

Lemma stopClient_clears_handle_witness :
  let settings := mkSettings 3 (lit "strict") (lit "flow") in
  let env :=
    mkEnv (Normal (lit "open")) (Normal (lit "flow.json")) (Normal settings)
      (Normal tt) [Starting; Running] Throw [Stopped] in
  let s := (startClient None env (init settings)).2 in
  exists s' es,
    stopClient env s = (Done tt, s')
    /\ effects s' = effects s ++ es
    /\ client s' = None
    /\ stops es = 1%nat
    /\ sleeps es = [5000].
Proof.
  intros settings env s.
  destruct (stopClient_clears_handle env s eq_refl)
    as (s' & es & E & F & C & _ & S & _ & Z & _).
  exists s', es. by repeat (split; [assumption|]).
Defined.

(** A launch that cannot read its configuration leaves the supervisor
    stuck.  When [Config.getConfigPath()] rejects or the settings cannot be
    read, [startClient] called with the mutex free is rejected before it
    does anything visible: no process is killed, no client made or
    started, no message shown, the handle is what it was, and the client
    is marked not initialised.  The mutex stays held, so every later
    [startClient], [stopClient] and monitor tick waits for ever and
    changes nothing. *)
Theorem failed_launch_blocks_supervisor
    (enableFlow : option bool) (env : Env) (s : LanguageServerAPI) :
  clientLock s = false ->
  getConfigPath env = Throw \/ getWorkspaceSettings env = Throw ->
  exists s',
    startClient enableFlow env s = (Threw, s')
    /\ effects s' = effects s
    /\ client s' = client s
    /\ initializedClient s' = false
    /\ forall enableFlow' env',
         startClient enableFlow' env' s' = (Blocked, s')
         /\ stopClient env' s' = (Blocked, s')
         /\ tick env' s' = (Blocked, s').
Proof.
  intros Hl H. rewrite (startClient_failed enableFlow env s Hl H).
  eexists. split; [reflexivity|]. do 3 (split; [reflexivity|]).
  by apply held_blocks.
Qed.

Lemma failed_launch_blocks_supervisor_witness :
  let settings := mkSettings 3 (lit "strict") (lit "flow") in
  let env :=
    mkEnv (Normal (lit "open")) Throw (Normal settings) (Normal tt)
      [Starting; Running] (Normal tt) [Stopped] in
  exists s',
    startClient None env (init settings) = (Threw, s')
    /\ effects s' = []
    /\ tick env s' = (Blocked, s').
Proof.
  intros settings env.
  destruct (failed_launch_blocks_supervisor None env (init settings) eq_refl
              (or_introl eq_refl))
    as (s' & E & F & _ & _ & B).
  exists s'. split; [exact E|]. split; [exact F|].
  exact (proj2 (proj2 (B None env))).
Defined.

(** The monitor does not survive a restart whose launch fails.  When a
    tick gets the mutex, reads a state of the emulator other than the one
    recorded, and the configuration path or the settings cannot be read,
    the tick itself returns normally: it records the reading, calls
    [restart] once, the old client is stopped and the handle cleared, and
    no client is started.  The rejection of the launch is dropped, the
    mutex stays held, and every later tick, [startClient] and [stopClient]
    waits for ever. *)
Theorem tick_failed_restart_stalls_monitor (env : Env) (s : LanguageServerAPI) :
  clientLock s = false ->
  emulatorConnected s <> probe env ->
  getConfigPath env = Throw \/ getWorkspaceSettings env = Throw ->
  exists s' es,
    tick env s = (Done tt, s')
    /\ effects s' = effects s ++ es
    /\ emulatorConnected s' = probe env
    /\ restarts es = [probe env]
    /\ stops es = (if client s is Some _ then 1 else 0)%nat
    /\ started_clients es = []
    /\ client s' = None
    /\ clientLock s' = true
    /\ forall enableFlow' env',
         startClient enableFlow' env' s' = (Blocked, s')
         /\ stopClient env' s' = (Blocked, s')
         /\ tick env' s' = (Blocked, s').
Proof.
  intros Hl Hne H. destruct s as [c0 l r i e a f es0]. cbn in Hl, Hne. subst l.
  unfold tick, bind at 1, acquire. cbn -[bind].
  unfold bind at 1. rewrite emulatorExists_probe.
  unfold bind at 1, read. cbn -[bind].
  rewrite bool_decide_eq_false_2 by done.
  unfold bind at 1, set_emulatorConnected. cbn -[bind].
  unfold bind at 1, release, set_clientLock. cbn -[bind].
  unfold restart, bind at 1, do. cbn -[bind void].
  unfold bind, void. rewrite stopClient_exact by done. cbn [client clientLock
    running initializedClient emulatorConnected accessCheckMode flowCommand
    effects].
  rewrite startClient_failed by done.
  eexists _, _. split; [reflexivity|]. cbn [client clientLock
    running initializedClient emulatorConnected accessCheckMode flowCommand
    effects].
  split; [by rewrite <- !app_assoc|]. split; [reflexivity|].
  destruct (state_effects_quiet i (stop_states env)) as (R & C & St).
  split; [|split; [|split; [|split; [reflexivity|split; [reflexivity|]]]]].
  - rewrite !restarts_app. destruct c0; cbn;
      change (restarts (ClientStop :: ?l)) with (restarts l); by rewrite ?R.
  - rewrite !stops_app. destruct c0; cbn; [|done].
    change (stops (ClientStop :: ?l)) with (S (stops l)). by rewrite St.
  - rewrite !started_clients_app. destruct c0; cbn; [|done].
    change (started_clients (ClientStop :: ?l)) with (started_clients l).
    by rewrite C.
  - by apply held_blocks.
Qed.

Lemma tick_failed_restart_stalls_monitor_witness :
  let settings := mkSettings 3 (lit "strict") (lit "flow") in
  let env :=
    mkEnv (Normal (lit "open")) (Normal (lit "flow.json")) (Normal settings)
      (Normal tt) [Starting; Running] (Normal tt) [Stopped] in
  let env' :=
    mkEnv (Normal (lit "closed")) Throw (Normal settings)
      (Normal tt) [Starting; Running] (Normal tt) [Stopped] in
  let s := (startClient None env (init settings)).2 in
  exists s' es,
    tick env' s = (Done tt, s')
    /\ effects s' = effects s ++ es
    /\ restarts es = [false]
    /\ stops es = 1%nat
    /\ client s' = None
    /\ tick env s' = (Blocked, s').
Proof.
  intros settings env env' s.
  assert (emulatorConnected s <> probe env') as Hne by (by vm_compute).
  destruct (tick_failed_restart_stalls_monitor env' s eq_refl Hne
              (or_introl eq_refl))
    as (s' & es & E & F & _ & R & S & _ & C & _ & B).
  exists s', es. split; [exact E|]. split; [exact F|]. split; [exact R|].
  split; [exact S|]. split; [exact C|].
  exact (proj2 (proj2 (B None env))).
Defined.

(** [restart] with everything at hand: with the mutex free and the
    configuration path and the settings readable, [restart] returns
    normally with a new client as the handle, launched with the flag it
    was given as its last argument, and the mutex free.  The old client,
    when there is one, is stopped before the new one is started, and no
    other client is stopped or started; the recorded state of the
    emulator is left as it was. *)
Theorem restart_stops_then_starts
    (b : bool) (env : Env) (s : LanguageServerAPI)
    (configPath : jsstring) (settings : Settings) :
  clientLock s = false ->
  getConfigPath env = Normal configPath ->
  getWorkspaceSettings env = Normal settings ->
  exists s' es1 c es2,
    restart b env s = (Done tt, s')
    /\ effects s' = effects s ++ [Restart b] ++ es1 ++ [ClientStart c] ++ es2
    /\ stops es1 = (if client s is Some _ then 1 else 0)%nat
    /\ started_clients es1 = []
    /\ stops es2 = 0%nat
    /\ started_clients es2 = []
    /\ client s' = Some c
    /\ command c = flowCommand s
    /\ last (args c) = Some (lit "--enable-flow-client=" ++ bool_toString b)
    /\ clientLock s' = false
    /\ emulatorConnected s' = emulatorConnected s.
Proof.
  intros Hl Hc Hs. destruct s as [c0 l r i e a f es0]. cbn in Hl. subst l.
  unfold restart, bind at 1, do. cbn -[bind void].
  unfold bind, void. rewrite stopClient_exact by done. cbn [client clientLock
    running initializedClient emulatorConnected accessCheckMode flowCommand
    effects].
  rewrite (startClient_exact _ _ _ configPath settings) by done.
  cbn [client clientLock running initializedClient emulatorConnected
    accessCheckMode flowCommand effects launch_flag].
  destruct (state_effects_quiet i (stop_states env)) as (R1 & C1 & S1).
  destruct (state_effects_quiet false (start_states env)) as (R2 & C2 & S2).
  eexists _,
    (match c0 with
     | Some _ => ClientStop :: state_effects i (stop_states env)
     | None => []
     end ++ [EmulatorStateChanged]
     ++ (if bool_decide (f = lit "flow") then [] else [KillDlv])),
    _,
    (state_effects false (start_states env)
     ++ match start env with
        | Normal _ => [EmulatorStateChanged; WatchFlowConfiguration]
        | Throw => [ShowErrorMessage]
        end
     ++ [if b then ShowInformationMessage else ShowWarningMessage]).
  split; [reflexivity|]. cbn [client clientLock running initializedClient
    emulatorConnected accessCheckMode flowCommand effects].
  split; [by rewrite <- !app_assoc|].
  split; [|split; [|split; [|split]]].
  - rewrite !stops_app. destruct c0, (bool_decide (f = lit "flow")); cbn;
      rewrite ?Nat.add_0_r; try done;
      change (stops (ClientStop :: ?l)) with (S (stops l)); by rewrite S1.
  - rewrite !started_clients_app.
    destruct c0, (bool_decide (f = lit "flow")); cbn; try done;
      change (started_clients (ClientStop :: ?l)) with (started_clients l);
      by rewrite C1.
  - rewrite !stops_app, S2. by destruct (start env), b.
  - rewrite !started_clients_app, C2. by destruct (start env), b.
  - done.
Qed.

Lemma restart_stops_then_starts_witness :
  let settings := mkSettings 3 (lit "strict") (lit "flow") in
  let env :=
    mkEnv (Normal (lit "open")) (Normal (lit "flow.json")) (Normal settings)
      (Normal tt) [Starting; Running] (Normal tt) [Stopped] in
  let s := (startClient None env (init settings)).2 in
  exists s' es1 c es2,
    restart false env s = (Done tt, s')
    /\ effects s' = effects s ++ [Restart false] ++ es1 ++ [ClientStart c] ++ es2
    /\ stops es1 = 1%nat
    /\ stops es2 = 0%nat
    /\ client s' = Some c
    /\ last (args c) = Some (lit "--enable-flow-client=false").
Proof.
  intros settings env s.
  destruct (restart_stops_then_starts false env s (lit "flow.json") settings
              eq_refl eq_refl eq_refl)
    as (s' & es1 & c & es2 & E & F & S1 & _ & S2 & _ & C & _ & A & _).
  exists s', es1, c, es2. by repeat (split; [assumption|]).
Defined.

(** A tick that gets the mutex, with the configuration at hand. *)
Lemma tick_ok env s :
  clientLock s = false ->
  getConfigPath env <> Throw -> getWorkspaceSettings env <> Throw ->
  exists s' es,
    tick env s = (Done tt, s')
    /\ effects s' = effects s ++ es
    /\ clientLock s' = false
    /\ emulatorConnected s' = probe env
    /\ restarts es
       = (if bool_decide (emulatorConnected s = probe env) then [] else [probe env])
    /\ length (started_clients es) = length (restarts es)
    /\ (stops es <= length (restarts es))%nat.
Proof.
  intros Hl Hc Hs.
  destruct (getConfigPath env) as [configPath|] eqn:Ec; [|done].
  destruct (getWorkspaceSettings env) as [settings|] eqn:Es; [|done].
  destruct s as [c0 l r i e a f es0]. cbn in Hl. subst l.
  unfold tick, bind at 1, acquire. cbn -[bind].
  unfold bind at 1. rewrite emulatorExists_probe.
  unfold bind at 1, read. cbn -[bind].
  case_bool_decide as Hp.
  { subst e. eexists _, []. rewrite app_nil_r. by repeat split. }
  unfold bind at 1, set_emulatorConnected. cbn -[bind].
  unfold bind at 1, release, set_clientLock. cbn -[bind].
  unfold restart, bind at 1, do. cbn -[bind void].
  unfold bind, void. rewrite stopClient_exact by done. cbn [client clientLock
    running initializedClient emulatorConnected accessCheckMode flowCommand
    effects].
  rewrite (startClient_exact _ _ _ configPath settings) by done.
  cbn [client clientLock running initializedClient emulatorConnected
    accessCheckMode flowCommand effects launch_flag].
  destruct (state_effects_quiet i (stop_states env)) as (R1 & C1 & S1).
  destruct (state_effects_quiet false (start_states env)) as (R2 & C2 & S2).
  eexists _, _. split; [reflexivity|]. cbn [client clientLock running
    initializedClient emulatorConnected accessCheckMode flowCommand effects].
  split; [by rewrite <- !app_assoc|]. do 2 (split; [reflexivity|]).
  rewrite !restarts_app, !started_clients_app, !stops_app, R2, C2, S2.
  destruct c0, (bool_decide (f = lit "flow")), (start env), (probe env); cbn;
    try change (restarts (ClientStop :: ?l)) with (restarts l);
    try change (started_clients (ClientStop :: ?l)) with (started_clients l);
    try change (stops (ClientStop :: ?l)) with (S (stops l));
    rewrite ?R1, ?C1, ?S1; unfold restarts, started_clients, stops; cbn;
    by repeat split; lia.
Qed.

(** The monitor restarts once for every change of the reading.  Over any
    run of ticks, each run to its end with the mutex free at the start
    and the configuration path and the settings readable, the calls of
    [restart] are exactly the readings of the port scan that differ from
    the reading before them (from the recorded state, for the first), in
    order and with the reading as flag; every restart starts one client
    and stops at most one; at the end the mutex is free and the recorded
    state is the last reading. *)
Theorem monitor_restarts_once_per_transition (envs : list Env) :
  forall s : LanguageServerAPI,
  clientLock s = false ->
  Forall (fun env => getConfigPath env <> Throw /\ getWorkspaceSettings env <> Throw)
    envs ->
  exists s' es,
    ticks envs s = (Done tt, s')
    /\ effects s' = effects s ++ es
    /\ clientLock s' = false
    /\ emulatorConnected s' = default (emulatorConnected s) (last (probe <$> envs))
    /\ restarts es = transitions (emulatorConnected s) (probe <$> envs)
    /\ length (started_clients es) = length (restarts es)
    /\ (stops es <= length (restarts es))%nat.
Proof.
  induction envs as [|env envs IH]; intros s Hl Hok.
  - exists s, []. cbn. rewrite app_nil_r. by repeat split.
  - apply Forall_cons in Hok as [[Hc Hs] Hok].
    destruct (tick_ok env s Hl Hc Hs) as (s1 & es1 & E1 & F1 & L1 & P1 & R1 & C1 & S1).
    destruct (IH s1 L1 Hok) as (s' & es & E & F & L & P & R & C & St).
    exists s', (es1 ++ es). cbn [ticks]. unfold bind at 1. rewrite E1, E.
    split; [done|]. split; [by rewrite F, F1, <- app_assoc|]. split; [done|].
    split.
    { rewrite P, P1, fmap_cons, last_cons. by destruct (last (probe <$> envs)). }
    split; [by rewrite restarts_app, R, R1, P1|].
    rewrite restarts_app, started_clients_app, stops_app, !length_app.
    split; lia.
Qed.

Lemma monitor_restarts_once_per_transition_witness :
  let settings := mkSettings 3 (lit "strict") (lit "flow") in
  let up :=
    mkEnv (Normal (lit "open")) (Normal (lit "flow.json")) (Normal settings)
      (Normal tt) [Starting; Running] (Normal tt) [Stopped] in
  let down :=
    mkEnv (Normal (lit "closed")) (Normal (lit "flow.json")) (Normal settings)
      (Normal tt) [Starting; Running] Throw [Stopped] in
  exists s' es,
    ticks [down; up; up; down; down; up] (init settings) = (Done tt, s')
    /\ effects s' = es
    /\ restarts es = [true; false; true]
    /\ length (started_clients es) = 3%nat
    /\ emulatorConnected s' = true.
Proof.
  intros settings up down.
  assert (Forall (fun env => getConfigPath env <> Throw
                             /\ getWorkspaceSettings env <> Throw)
            [down; up; up; down; down; up]) as Hok
    by (repeat constructor; by vm_compute).
  destruct (monitor_restarts_once_per_transition
              [down; up; up; down; down; up] (init settings) eq_refl Hok)
    as (s' & es & E & F & _ & P & R & C & _).
  exists s', es. split; [exact E|]. split; [exact F|]. split; [exact R|].
  split; [by rewrite C, R|exact P].
Defined.

(** [deactivate] does not wait for the mutex and does not clear the
    handle.  Whatever the state of the mutex, it returns normally, also
    when [client.stop()] rejects; it calls [client.stop()] once when there
    is a handle and does nothing when there is none; the mutex, the handle
    and the recorded state of the emulator are as before.  As the handle
    stays, a [stopClient] that follows with the mutex free calls
    [client.stop()] on the same client once more. *)
Theorem deactivate_skips_mutex_and_keeps_handle (env : Env) (s : LanguageServerAPI) :
  exists s' es,
    deactivate env s = (Done tt, s')
    /\ effects s' = effects s ++ es
    /\ client s' = client s
    /\ clientLock s' = clientLock s
    /\ emulatorConnected s' = emulatorConnected s
    /\ stops es = (if client s is Some _ then 1 else 0)%nat
    /\ started_clients es = []
    /\ (clientLock s = false ->
        forall env', exists s'' es',
          stopClient env' s' = (Done tt, s'')
          /\ effects s'' = effects s' ++ es'
          /\ stops es' = (if client s is Some _ then 1 else 0)%nat).
Proof.
  assert (deactivate env s
          = (Done tt,
             mkApi (client s) (clientLock s)
               (if client s is Some _
                then running_after (running s) (stop_states env) else running s)
               (initializedClient s) (emulatorConnected s) (accessCheckMode s)
               (flowCommand s)
               (effects s
                ++ if client s is Some _
                   then ClientStop :: state_effects (initializedClient s) (stop_states env)
                   else [])))
    as ->.
  { destruct s as [c0 l r i e a f es0]. unfold deactivate. run_op.
    destruct c0 as [c0|]; cbn; [|by rewrite app_nil_r].
    rewrite deliver_exact; cbn.
    destruct (stop env) as [[]|]; cbn; by rewrite <- ?app_assoc. }
  eexists _, _. split; [reflexivity|]. cbn [effects client clientLock
    emulatorConnected initializedClient].
  split; [reflexivity|]. do 3 (split; [reflexivity|]).
  destruct (state_effects_quiet (initializedClient s) (stop_states env))
    as (R & C & St).
  split; [|split].
  - destruct (client s); [|done].
    change (stops (ClientStop :: ?l)) with (S (stops l)). by rewrite St.
  - destruct (client s); [|done].
    change (started_clients (ClientStop :: ?l)) with (started_clients l).
    by rewrite C.
  - intros Hl env'. rewrite stopClient_exact by done.
    eexists _, _. split; [reflexivity|]. cbn [effects client initializedClient].
    split; [reflexivity|].
    destruct (state_effects_quiet (initializedClient s) (stop_states env'))
      as (R' & C' & St').
    rewrite stops_app. destruct (client s); [|done].
    change (stops (ClientStop :: ?l)) with (S (stops l)). by rewrite St'.
Qed.

Lemma deactivate_skips_mutex_and_keeps_handle_witness :
  let settings := mkSettings 3 (lit "strict") (lit "flow") in
  let env :=
    mkEnv (Normal (lit "open")) (Normal (lit "flow.json")) (Normal settings)
      (Normal tt) [Starting; Running] Throw [Stopped] in
  let s := (startClient None env (init settings)).2 in
  exists s' es s'' es',
    deactivate env s = (Done tt, s')
    /\ effects s' = effects s ++ es
    /\ stops es = 1%nat
    /\ is_Some (client s')
    /\ stopClient env s' = (Done tt, s'')
    /\ effects s'' = effects s' ++ es'
    /\ stops es' = 1%nat.
Proof.
  intros settings env s.
  destruct (deactivate_skips_mutex_and_keeps_handle env s)
    as (s' & es & E & F & C & _ & _ & St & _ & H).
  destruct (H eq_refl env) as (s'' & es' & E' & F' & St').
  exists s', es, s'', es'. split; [exact E|]. split; [exact F|].
  split; [exact St|]. split; [rewrite C; vm_compute; by eexists|].
  split; [exact E'|]. split; [exact F'|exact St'].
Defined.

End SupervisorFacts.

(** ** The requests and the handle *)
Module RequestsFacts.
Import Js LanguageServer LanguageServerFacts SupervisorFacts Requests.

(** The requests follow the handle.  After a [stopClient] that got the
    mutex, a request of any command is answered with [undefined] and sends
    nothing; so [reset] is fulfilled without a request, and
    [createAccount] sends none and hands [undefined] to the conversion of
    the response.  After a [startClient] that got the mutex, the
    configuration path and the settings, every request is sent to the new
    client as [workspace/executeCommand] with the command and the
    arguments, and its answer is the result: also when that client failed
    to start. *)
Theorem requests_follow_handle
    (env : Env) (s : LanguageServerAPI) (answer : request -> settled value) :
  clientLock s = false ->
  let stopped := handle_of answer (stopClient env s).2 in
  (forall cmd args, sendRequest stopped cmd args = (Fulfilled VUndefined, []))
  /\ reset stopped = (Fulfilled tt, [])
  /\ (forall Account (asAccount : value -> settled Account),
        sent (createAccount stopped Account asAccount).2 = []
        /\ (createAccount stopped Account asAccount).1 = asAccount VUndefined)
  /\ (getConfigPath env <> Throw -> getWorkspaceSettings env <> Throw ->
      forall enableFlow cmd args,
        let r := mkRequest (lit "workspace/executeCommand") cmd args in
        sendRequest (handle_of answer (startClient enableFlow env s).2) cmd args
        = (answer r, [Sent r])).
Proof.
  intros Hl stopped.
  assert (stopped = None) as ->.
  { unfold stopped, handle_of. by rewrite (stopClient_exact env s Hl). }
  split; [done|]. split; [done|]. split.
  - intros Account asAccount. unfold createAccount. cbn.
    destruct (asAccount VUndefined) as [acc|[m|v]]; by cbn.
  - intros Hc Hs enableFlow cmd args r.
    destruct (getConfigPath env) as [configPath|] eqn:Ec; [|done].
    destruct (getWorkspaceSettings env) as [settings|] eqn:Es; [|done].
    unfold handle_of.
    by rewrite (startClient_exact enableFlow env s configPath settings Hl Ec Es).
Qed.

Lemma requests_follow_handle_witness :
  let settings := mkSettings 3 (lit "strict") (lit "flow") in
  let env :=
    mkEnv (Normal (lit "open")) (Normal (lit "flow.json")) (Normal settings)
      Throw [Starting; Stopped] (Normal tt) [Stopped] in
  let answer := fun r : request => Fulfilled (VString (request_command r)) in
  reset (handle_of answer (stopClient env (init settings)).2) = (Fulfilled tt, [])
  /\ (sendRequest (handle_of answer (startClient None env (init settings)).2)
        RESTART_SERVER []).1
     = Fulfilled (VString RESTART_SERVER).
Proof.
  intros settings env answer.
  destruct (requests_follow_handle env (init settings) answer eq_refl)
    as (_ & R & _ & S).
  split; [exact R|].
  by rewrite (S ltac:(discriminate) ltac:(discriminate) None RESTART_SERVER []).
Defined.

End RequestsFacts.

(** ** The items of the version selector *)
Module SelectionFacts.
Import Js CliVersions CliSelection.

Lemma findIndex_first {A} (p : A -> bool) pre x post :
  Forall (fun y => p y = false) pre ->
  p x = true ->
  findIndex p (pre ++ x :: post) = Some (length pre).
Proof.
  intros Hpre Hx. induction Hpre as [|y pre Hy _ IH]; cbn.
  - by rewrite Hx.
  - by rewrite Hy, IH.
Qed.

Lemma findIndex_None {A} (p : A -> bool) l :
  Forall (fun y => p y = false) l -> findIndex p l = None.
Proof.
  induction 1 as [|y l Hy _ IH]; cbn; [done|]. by rewrite Hy, IH.
Qed.

Lemma findIndex_split {A} (p : A -> bool) l :
  (findIndex p l = None /\ Forall (fun y => p y = false) l)
  \/ exists pre x post,
       l = pre ++ x :: post
       /\ Forall (fun y => p y = false) pre
       /\ p x = true.
Proof.
  induction l as [|y l IH]; [by left|].
  destruct (p y) eqn:Hy.
  - right. by exists [], y, l.
  - destruct IH as [[E F]|(pre & x & post & -> & F & Hx)].
    + left. cbn. rewrite Hy, E. by split; [|constructor].
    + right. exists (y :: pre), x, post. by split; [|split; [constructor|]].
Qed.

Lemma hoist {A} pre (x : A) post :
  (pre ++ x :: post) !! length pre = Some x
  /\ delete (length pre) (pre ++ x :: post) = pre ++ post.
Proof.
  split.
  - by rewrite list_lookup_middle.
  - apply delete_middle.
Qed.

Lemma is_current_available cur pre :
  Forall (fun b => Some (command b) <> command <$> cur) pre ->
  Forall (fun i => is_current cur i = false) (AvailableBinaryItem <$> pre).
Proof.
  intros H. apply Forall_fmap. eapply Forall_impl; [exact H|].
  intros b Hb. cbn. destruct cur as [c|]; [|done].
  apply bool_decide_eq_false_2. intros E. apply Hb. cbn. by rewrite E.
Qed.

(** The current binary is hoisted.  When an available binary has the
    command of the current one, the selector starts with the item of the
    first such binary of the list (the one of the list, whatever version
    the current binary carries), followed by the items of the other
    binaries in their order, later ones with the same command included,
    and the custom item comes last. *)
Theorem selector_hoists_current
    (current b : CliBinary) (pre post : list CliBinary) :
  Forall (fun x => command x <> command current) pre ->
  command b = command current ->
  createVersionSelector_items (Some current) (pre ++ b :: post)
  = AvailableBinaryItem b
    :: (AvailableBinaryItem <$> pre ++ post) ++ [CustomBinaryItem].
Proof.
  intros Hpre Hb. unfold createVersionSelector_items.
  rewrite fmap_app, fmap_cons, <- app_assoc. cbn [app].
  rewrite (findIndex_first _ (AvailableBinaryItem <$> pre)
             (AvailableBinaryItem b)).
  - destruct (hoist (AvailableBinaryItem <$> pre)
                (AvailableBinaryItem b)
                ((AvailableBinaryItem <$> post) ++ [CustomBinaryItem]))
      as [-> ->].
    by rewrite fmap_app, <- app_assoc.
  - apply (is_current_available (Some current)).
    eapply Forall_impl; [exact Hpre|]. intros x Hx [=]. done.
  - cbn. by apply bool_decide_eq_true_2.
Qed.

Lemma selector_hoists_current_witness :
  let v1 := Semver.mkSemVer (lit "1.2.3") 1 2 3 [] [] (lit "1.2.3") in
  let v2 := Semver.mkSemVer (lit "2.0.0") 2 0 0 [] [] (lit "2.0.0") in
  let a := mkCliBinary (lit "flow") v1 in
  let b := mkCliBinary (lit "flow-c1") v2 in
  createVersionSelector_items (Some (mkCliBinary (lit "flow-c1") v1)) [a; b; a]
  = [AvailableBinaryItem b; AvailableBinaryItem a; AvailableBinaryItem a;
     CustomBinaryItem].
Proof.
  intros v1 v2 a b.
  apply (selector_hoists_current (mkCliBinary (lit "flow-c1") v1) b [a] [a]).
  - repeat constructor. by vm_compute.
  - reflexivity.
Defined.

(** Nothing is hoisted without a match.  When there is no current binary,
    or no available binary has its command, the selector shows the
    available binaries in their order, followed by the custom item. *)
Theorem selector_keeps_order_without_match
    (currentBinary : option CliBinary) (availableBinaries : list CliBinary) :
  Forall (fun b => Some (command b) <> command <$> currentBinary)
    availableBinaries ->
  createVersionSelector_items currentBinary availableBinaries
  = (AvailableBinaryItem <$> availableBinaries) ++ [CustomBinaryItem].
Proof.
  intros H. unfold createVersionSelector_items.
  rewrite findIndex_None; [done|].
  apply Forall_app. split; [by apply is_current_available|].
  by repeat constructor.
Qed.

Lemma selector_keeps_order_without_match_witness :
  let v1 := Semver.mkSemVer (lit "1.2.3") 1 2 3 [] [] (lit "1.2.3") in
  let a := mkCliBinary (lit "flow") v1 in
  let b := mkCliBinary (lit "flow-c1") v1 in
  createVersionSelector_items (Some (mkCliBinary (lit "/opt/flow") v1)) [a; b]
  = [AvailableBinaryItem a; AvailableBinaryItem b; CustomBinaryItem].
Proof.
  intros v1 a b.
  apply (selector_keeps_order_without_match
           (Some (mkCliBinary (lit "/opt/flow") v1)) [a; b]).
  repeat constructor; by vm_compute.
Defined.

(** The selector always offers every available binary once and the custom
    item: for every current binary and every list of available binaries,
    the items are a rearrangement of the items of the binaries and the
    custom item, and the custom item is the last one. *)
Theorem selector_items_complete
    (currentBinary : option CliBinary) (availableBinaries : list CliBinary) :
  createVersionSelector_items currentBinary availableBinaries
    ≡ₚ (AvailableBinaryItem <$> availableBinaries) ++ [CustomBinaryItem]
  /\ last (createVersionSelector_items currentBinary availableBinaries)
     = Some CustomBinaryItem
  /\ length (createVersionSelector_items currentBinary availableBinaries)
     = S (length availableBinaries).
Proof.
  unfold createVersionSelector_items.
  set (items := (AvailableBinaryItem <$> availableBinaries) ++ [CustomBinaryItem]).
  assert (last items = Some CustomBinaryItem) as Hlast by apply last_snoc.
  assert (length items = S (length availableBinaries)) as Hlen.
  { unfold items. rewrite length_app, length_fmap. cbn. lia. }
  destruct (findIndex_split (is_current currentBinary) items)
    as [[-> _]|(pre & x & post & E & Hpre & Hx)]; [done|].
  rewrite E, (findIndex_first _ pre x post Hpre Hx).
  destruct (hoist pre x post) as [-> ->].
  rewrite E in Hlast, Hlen. split; [|split].
  - by rewrite Permutation_middle.
  - destruct post as [|y post _] using rev_ind.
    + rewrite last_snoc in Hlast. injection Hlast as ->. done.
    + change (pre ++ x :: post ++ [y]) with (pre ++ (x :: post) ++ [y]) in Hlast.
      rewrite (assoc_L (++) pre (x :: post) [y]), last_snoc in Hlast.
      injection Hlast as ->.
      by rewrite (assoc_L (++) pre post), (app_comm_cons _ _ x), last_snoc.
  - rewrite <- Hlen, !length_app. cbn. rewrite length_app. lia.
Qed.

Lemma token_parses buffer token :
  parseFlowCliVersion buffer = Some token ->
  exists sv, Semver.parse token = Some sv /\ Semver.version sv = token.
Proof.
  unfold parseFlowCliVersion. intros Hb.
  destruct (RegExp.exec LEGACY_VERSION_REGEXP buffer) as [[t|]|]; try done.
  unfold Semver.clean in Hb.
  destruct (Semver.parse _) as [sv0|] eqn:E0; [|done].
  injection Hb as <-.
  destruct (SemverFacts.parse_version _ _ E0) as (sv' & E' & Hv' & _).
  by exists sv'.
Qed.

(** The label of a resolved binary.  A binary made from a version string
    is shown, in the selector and in the status bar, as [Flow CLI v]
    followed by its canonical version; and when the version string is what
    [parseFlowCliVersion] took from the output of the CLI, the binary
    exists and that is the very text extracted. *)
Theorem resolved_binary_label (bin versionStr : jsstring) :
  (forall b,
     cliBinaryFromVersion bin (VString versionStr) = Some b ->
     label (AvailableBinaryItem b) = lit "Flow CLI v" ++ Semver.version (version b)
     /\ statusBarItem_text (Some (version b))
        = lit "Flow CLI v" ++ Semver.version (version b))
  /\ (forall buffer,
       parseFlowCliVersion buffer = Some versionStr ->
       exists b,
         cliBinaryFromVersion bin (VString versionStr) = Some b
         /\ label (AvailableBinaryItem b) = lit "Flow CLI v" ++ versionStr).
Proof.
  assert (forall sv, Semver.parse versionStr = Some sv ->
            GET_BINARY_LABEL sv = lit "Flow CLI v" ++ Semver.version sv) as Hl.
  { intros sv. unfold Semver.parse, Semver.new_SemVer, GET_BINARY_LABEL.
    destruct (_ <? _)%nat; [done|].
    destruct (Semver.match_full _) as [[[[[m1 m2] m3] m4] m5]|]; [|done]. cbn.
    destruct (_ || _ || _); [done|]. by intros [= <-]. }
  split.
  - intros b. unfold cliBinaryFromVersion.
    destruct (Semver.parse versionStr) as [sv|] eqn:E; [|done].
    intros [= <-]. unfold label, statusBarItem_text. cbn [version].
    by rewrite Hl.
  - intros buffer (sv & E & Hv)%token_parses.
    exists (mkCliBinary bin sv). unfold cliBinaryFromVersion. rewrite E.
    split; [done|]. unfold label. cbn [version]. by rewrite Hl, Hv.
Qed.

Lemma resolved_binary_label_witness :
  exists b,
    cliBinaryFromVersion (lit "flow") (VString (lit "1.2.3")) = Some b
    /\ label (AvailableBinaryItem b) = lit "Flow CLI v1.2.3".
Proof.
  apply (proj2 (resolved_binary_label (lit "flow") (lit "1.2.3"))
           (lit "Version: v1.2.3+build" ++ [10])).
  reflexivity.
Defined.

End SelectionFacts.

(** ** The installer *)
Module InstallerFacts.
Import Js Installer.

#[local] Arguments lit : simpl never.

(** The step of the platform. *)
Lemma install_eq env :
  install env
  = let isActive := default false (isActive env) in
    M_bind (if isActive then perform Deactivate (deactivate env) else M_ret tt)
      (fun _ =>
    M_bind
      (M_catch
         (if bool_decide (platform env = lit "darwin") then install_macos env
          else if bool_decide (platform env = lit "win32") then install_windows env
          else install_bash_cmd env)
         (perform (ShowError (lit "Failed to install Flow CLI")) (Normal tt)))
      (fun _ =>
    if isActive then perform Activate (activate env) else M_ret tt)).
Proof. reflexivity. Qed.

Lemma step_quiet env :
  exists r steps,
    (if bool_decide (platform env = lit "darwin") then install_macos env
     else if bool_decide (platform env = lit "win32") then install_windows env
     else install_bash_cmd env) = (r, steps)
    /\ Forall (fun a => a <> Deactivate /\ a <> Activate) steps
    /\ (1 <= length steps)%nat.
Proof.
  unfold install_macos, install_windows, install_bash_cmd, M_bind, perform, M_ret.
  repeat case_match; simplify_eq; eexists _, _;
    (split; [reflexivity|]); (split; [by repeat constructor|cbn; lia]).
Qed.

(** [install] puts the language server back.  When the language server is
    not active, or its [deactivate] and [activate] succeed, [install]
    returns normally on every platform and whatever the shell answers: a
    failure of the installation step is answered with an error message.
    The language server is deactivated before the first installation step
    and activated again after the last, exactly when it was active, and at
    least one installation step is taken. *)
Theorem install_restores_language_server (env : Env) :
  (default false (isActive env) = true ->
   deactivate env = Normal tt /\ activate env = Normal tt) ->
  exists steps,
    install env
    = (Normal tt,
       (if default false (isActive env) then [Deactivate] else [])
       ++ steps
       ++ (if default false (isActive env) then [Activate] else []))
    /\ Forall (fun a => a <> Deactivate /\ a <> Activate) steps
    /\ (1 <= length steps)%nat.
Proof.
  intros H. rewrite install_eq. cbn zeta.
  destruct (step_quiet env) as (r & steps & -> & Hq & Hn).
  destruct (default false (isActive env)).
  - destruct (H eq_refl) as [-> ->].
    destruct r as [[]|]; cbn.
    + by exists steps.
    + exists (steps ++ [ShowError (lit "Failed to install Flow CLI")]).
      rewrite <- !app_assoc. split; [done|]. split.
      * apply Forall_app. split; [done|]. by repeat constructor.
      * rewrite length_app. lia.
  - destruct r as [[]|]; cbn.
    + exists steps. by rewrite !app_nil_r.
    + exists (steps ++ [ShowError (lit "Failed to install Flow CLI")]).
      rewrite !app_nil_r. split; [done|]. split.
      * apply Forall_app. split; [done|]. by repeat constructor.
      * rewrite length_app. lia.
Qed.

Lemma install_restores_language_server_witness :
  let env :=
    mkEnv (lit "linux") (Some (lit "t0ken")) (Some true) (Normal tt) (Normal tt)
      (fun _ => Normal false) (fun _ => Normal false) (fun _ _ => Throw) in
  exists steps,
    install env = (Normal tt, [Deactivate] ++ steps ++ [Activate])
    /\ (1 <= length steps)%nat.
Proof.
  intros env.
  destruct (install_restores_language_server env
              (fun _ => conj eq_refl eq_refl))
    as (steps & E & _ & N).
  exists steps. split; [exact E|exact N].
Defined.

(** What the installation runs, on every platform.  Unless the language
    server is active and its [deactivate] fails, [install] does this.  On
    [darwin] it runs nothing silently and hands the Homebrew command to
    the terminal.  On [win32] and on every other platform, without a token
    it runs nothing silently and hands the installer to the terminal; with
    a token it first runs the installer with the token silently, once, and
    hands an installer to the terminal, straight after, exactly when the
    silent run answers [false].  The installer handed to the terminal on
    [win32] is the PowerShell one with the token; on the other platforms
    it is the shell one without any token. *)
Theorem terminal_commands_of_install (env : Env) :
  (default false (isActive env) = true -> deactivate env = Normal tt) ->
  let log := (install env).2 in
  let name := lit "Install Flow CLI" in
  let shell_installer :=
    lit "sh -ci " ++ [34]
    ++ lit "$(curl -fsSL https://raw.githubusercontent.com/onflow/flow-cli/master/install.sh)"
    ++ [34] in
  (platform env = lit "darwin" ->
   silent_commands log = []
   /\ terminal_commands log = [lit "brew update && brew install flow-cli"])
  /\ (platform env = lit "win32" ->
      match GITHUB_TOKEN env with
      | None =>
          silent_commands log = []
          /\ terminal_commands log = [POWERSHELL_INSTALL_CMD None]
      | Some t =>
          let cmd := POWERSHELL_INSTALL_CMD (Some t) in
          silent_commands log = [cmd]
          /\ terminal_commands log
             = match tryExecPowerShell env cmd with
               | Normal false => [cmd]
               | _ => []
               end
          /\ (tryExecPowerShell env cmd = Normal false ->
              exists before after,
                log = before
                      ++ [TryExecPowerShell cmd; ExecVscodeTerminal name cmd]
                      ++ after)
      end)
  /\ (platform env <> lit "darwin" -> platform env <> lit "win32" ->
      match GITHUB_TOKEN env with
      | None =>
          silent_commands log = []
          /\ terminal_commands log = [shell_installer]
      | Some t =>
          let cmd := BASH_INSTALL_FLOW_CLI (Some t) in
          cmd = lit "GITHUB_TOKEN=" ++ t ++ lit " " ++ shell_installer
          /\ silent_commands log = [cmd]
          /\ terminal_commands log
             = match tryExecUnixDefault env cmd with
               | Normal false => [shell_installer]
               | _ => []
               end
          /\ (tryExecUnixDefault env cmd = Normal false ->
              exists before after,
                log = before
                      ++ [TryExecUnixDefault cmd;
                          ExecVscodeTerminal name shell_installer]
                      ++ after)
      end).
Proof.
  intros Hd log name shell_installer. subst log. rewrite install_eq. cbn zeta.
  assert (exists pre,
            (if default false (isActive env)
             then perform Deactivate (deactivate env) else M_ret tt)
            = (Normal tt, pre)
            /\ silent_commands pre = [] /\ terminal_commands pre = []) as (pre & -> & Sp & Tp).
  { destruct (default false (isActive env)); [|by eexists].
    rewrite Hd by done. by eexists. }
  assert (exists post r,
            (if default false (isActive env)
             then perform Activate (activate env) else M_ret tt)
            = (r, post)
            /\ silent_commands post = [] /\ terminal_commands post = []) as (post & r & -> & Ss & Ts).
  { destruct (default false (isActive env)); by eexists _, _. }
  unfold install_macos, install_windows, install_bash_cmd, M_bind, M_catch,
    perform, M_ret.
  split; [|split].
  - intros ->. rewrite bool_decide_eq_true_2 by done.
    destruct (execVscodeTerminal env _ _) as [[]|]; cbn [snd];
      unfold silent_commands, terminal_commands in *;
      rewrite !omap_app, ?Sp, ?Tp, ?Ss, ?Ts; by cbn.
  - intros Hw. rewrite Hw, bool_decide_eq_false_2, bool_decide_eq_true_2 by done.
    destruct (GITHUB_TOKEN env) as [t|]; cbn zeta.
    + destruct (tryExecPowerShell env _) as [[]|] eqn:Et;
        [| destruct (execVscodeTerminal env _ _) as [[]|] |];
        cbn [snd]; (split; [|split]);
        try (unfold silent_commands, terminal_commands in *;
             rewrite !omap_app, ?Sp, ?Tp, ?Ss, ?Ts; by cbn);
        try (intros E; discriminate E); intros _.
      * exists pre, post. by rewrite <- !app_assoc.
      * exists pre, ([ShowError (lit "Failed to install Flow CLI")] ++ post).
        by rewrite <- !app_assoc.
    + destruct (execVscodeTerminal env _ _) as [[]|]; cbn [snd];
        unfold silent_commands, terminal_commands in *;
        rewrite !omap_app, ?Sp, ?Tp, ?Ss, ?Ts; by cbn.
  - intros Hnd Hnw. rewrite !bool_decide_eq_false_2 by done.
    destruct (GITHUB_TOKEN env) as [t|]; cbn zeta.
    + split; [unfold BASH_INSTALL_FLOW_CLI; by rewrite <- !app_assoc|].
      destruct (tryExecUnixDefault env _) as [[]|] eqn:Et;
        [| destruct (execVscodeTerminal env _ _) as [[]|] |];
        cbn [snd]; (split; [|split]);
        try (unfold silent_commands, terminal_commands in *;
             rewrite !omap_app, ?Sp, ?Tp, ?Ss, ?Ts; by cbn);
        try (intros E; discriminate E); intros _.
      * exists pre, post. by rewrite <- !app_assoc.
      * exists pre, ([ShowError (lit "Failed to install Flow CLI")] ++ post).
        by rewrite <- !app_assoc.
    + destruct (execVscodeTerminal env _ _) as [[]|]; cbn [snd];
        unfold silent_commands, terminal_commands in *;
        rewrite !omap_app, ?Sp, ?Tp, ?Ss, ?Ts; by cbn.
Qed.

Lemma terminal_commands_of_install_witness :
  let env :=
    mkEnv (lit "linux") (Some (lit "t0ken")) (Some true) (Normal tt) (Normal tt)
      (fun _ => Normal false) (fun _ => Normal false) (fun _ _ => Normal tt) in
  let shell_installer :=
    lit "sh -ci " ++ [34]
    ++ lit "$(curl -fsSL https://raw.githubusercontent.com/onflow/flow-cli/master/install.sh)"
    ++ [34] in
  silent_commands (install env).2 = [lit "GITHUB_TOKEN=t0ken " ++ shell_installer]
  /\ terminal_commands (install env).2 = [shell_installer].
Proof.
  intros env shell_installer.
  assert (platform env <> lit "darwin") as Hd by (by vm_compute).
  assert (platform env <> lit "win32") as Hw by (by vm_compute).
  destruct (proj2 (proj2 (terminal_commands_of_install env (fun _ => eq_refl)))
              Hd Hw) as (_ & S & T & _).
  split; [exact S|exact T].
Defined.

End InstallerFacts.

